(** * Alertmanager configuration and matcher model

    A shallow embedding of [config/config.go] (package [config]: secrets,
    URLs and their marshalers, [HostPort], [Regexp], [Load], [LoadFile],
    [Config.UnmarshalYAML], [checkReceiver], the decode hooks of [Route],
    [InhibitRule] and [Receiver]) and of the matcher file that follows it in
    the same source file (package [types]: [Matcher], [Matchers], their
    order, their texts and [NewMatchers]), with the properties the
    specification states about them and further properties of the code.

    Conventions.
    - Go strings are byte strings: [string] (a list of [ascii] bytes).
    - A Go [map[string]T] is a [gmap string T], a Go set
      [map[string]struct{}] is a [gset string].
    - A function returning [(T, error)] returns a [result]; a function that
      can dereference a nil pointer returns an [outcome] (package [types])
      or a [run] (package [config]), which have a case for the panic.
    - A slice of pointers to structs is a list of [option]s, [None] being
      the nil that the decoder leaves for a null entry of the document; the
      structs are also given by value, with lists of structs, which is what
      a configuration is once every entry has been followed.  A pointer
      whose target is never written is an [option]; a [*URL], whose target
      is written by the defaulting pass, is a location in a store.
    - Libraries the program only calls ([regexp], [sort], [net/url], [net],
      [encoding/json], [path/filepath], the verb [%q] of [fmt]) appear as
      interfaces; a small executable instance of each is given so that
      statements can be run on concrete inputs. *)

From Stdlib Require Import ZArith Lia List Ascii String.
From Stdlib Require Import Sorting.Permutation.
From stdpp Require Import base option gmap strings list fin_maps functions sorting.

Open Scope string_scope.
Open Scope list_scope.

Set Warnings "-register-all,-clear-no-such-hyp".

(** ** Libraries the program calls *)

(** [regexp]: the part of Go's package the program uses.  [Compile] returns
    [None] where Go returns an error.  [MatchString re s] reports whether [s]
    contains any match of [re] (so an unanchored pattern matches inside [s]);
    [Regexp_String] is the source text the expression was compiled from. *)
Class RegexpLib := {
  Regexp : Type;
  Compile : string -> option Regexp;
  MatchString : Regexp -> string -> bool;
  Regexp_String : Regexp -> string
}.

(** [strings.HasSuffix]: [len(s) >= len(suffix) && s[len(s)-len(suffix):] == suffix]. *)
Definition HasSuffix (s suffix : string) : bool :=
  (String.length suffix <=? String.length s)%nat &&
  String.eqb
    (substring (String.length s - String.length suffix) (String.length suffix) s)
    suffix.

(** [model.LabelName.IsValid] of prometheus/common, which is also what
    [model.LabelNameRE] ([^[a-zA-Z_][a-zA-Z0-9_]*$]) accepts. *)
Definition is_alpha_ (c : ascii) : bool :=
  let n := nat_of_ascii c in
  ((97 <=? n) && (n <=? 122) || (65 <=? n) && (n <=? 90) || (n =? 95))%nat.

Definition is_digit (c : ascii) : bool :=
  let n := nat_of_ascii c in ((48 <=? n) && (n <=? 57))%nat.

Fixpoint label_tail_ok (s : string) : bool :=
  match s with
  | EmptyString => true
  | String c s' => (is_alpha_ c || is_digit c) && label_tail_ok s'
  end.

Definition LabelName_IsValid (ln : string) : bool :=
  match ln with
  | EmptyString => false
  | String c s' => is_alpha_ c && label_tail_ok s'
  end.

(** [utf8.ValidString], which is [model.LabelValue.IsValid]: the byte
    automaton of well-formed UTF-8 (no overlong forms, no surrogates, nothing
    above U+10FFFF). *)
Definition in_range (lo hi : nat) (c : ascii) : bool :=
  let n := nat_of_ascii c in ((lo <=? n) && (n <=? hi))%nat.

Fixpoint ValidString (s : string) : bool :=
  match s with
  | EmptyString => true
  | String c0 r0 =>
    if in_range 0 127 c0 then ValidString r0
    else match r0 with
    | EmptyString => false
    | String c1 r1 =>
      if in_range 194 223 c0 then in_range 128 191 c1 && ValidString r1
      else match r1 with
      | EmptyString => false
      | String c2 r2 =>
        let second :=
          if in_range 224 224 c0 then in_range 160 191 c1
          else if in_range 237 237 c0 then in_range 128 159 c1
          else in_range 128 191 c1 in
        if in_range 224 239 c0
        then second && in_range 128 191 c2 && ValidString r2
        else match r2 with
        | EmptyString => false
        | String c3 r3 =>
          let second4 :=
            if in_range 240 240 c0 then in_range 144 191 c1
            else if in_range 244 244 c0 then in_range 128 143 c1
            else in_range 128 191 c1 in
          in_range 240 244 c0 && second4 && in_range 128 191 c2
            && in_range 128 191 c3 && ValidString r3
        end
      end
    end
  end.

(** *** An executable regular-expression engine

    A fragment of Go's RE2 syntax, enough to run the statements below:
    literals, [.], [^], [$], grouping [( )] and [(?: )], alternation [|] and
    the postfix operators [*], [+], [?] (with an optional lazy mark).
    Patterns outside the fragment (escapes, classes, counted repetition) are
    rejected.  Matching is by derivatives; [^] and [$] are assertions on the
    position in the text. *)
Module toyre.

Inductive re :=
| Empty
| Eps
| Chr (c : ascii)
| AnyNotNL
| AnyChar
| Bol
| Eol
| Cat (r1 r2 : re)
| Alt (r1 r2 : re)
| Star (r : re).

(** [nullable bol eol r]: [r] matches the empty string at a position that is
    the beginning of the text iff [bol] and its end iff [eol]. *)
Fixpoint nullable (bol eol : bool) (r : re) : bool :=
  match r with
  | Empty | Chr _ | AnyNotNL | AnyChar => false
  | Eps | Star _ => true
  | Bol => bol
  | Eol => eol
  | Cat r1 r2 => nullable bol eol r1 && nullable bol eol r2
  | Alt r1 r2 => nullable bol eol r1 || nullable bol eol r2
  end.

Fixpoint deriv (bol : bool) (c : ascii) (r : re) : re :=
  match r with
  | Empty | Eps | Bol | Eol => Empty
  | Chr d => if Ascii.eqb c d then Eps else Empty
  | AnyNotNL => if Ascii.eqb c "010"%char then Empty else Eps
  | AnyChar => Eps
  | Cat r1 r2 =>
    Alt (Cat (deriv bol c r1) r2)
        (if nullable bol false r1 then deriv bol c r2 else Empty)
  | Alt r1 r2 => Alt (deriv bol c r1) (deriv bol c r2)
  | Star r1 => Cat (deriv bol c r1) (Star r1)
  end.

Fixpoint run (bol : bool) (r : re) (s : string) : bool :=
  match s with
  | EmptyString => nullable bol true r
  | String c s' => run false (deriv bol c r) s'
  end.

(** The whole text matches [r]. *)
Definition full_match (r : re) (s : string) : bool := run true r s.

(** Some substring of the text matches [r]. *)
Definition search (r : re) (s : string) : bool :=
  run true (Cat (Star AnyChar) (Cat r (Star AnyChar))) s.

Definition is_postfix (c : ascii) : bool :=
  Ascii.eqb c "*" || Ascii.eqb c "+" || Ascii.eqb c "?".

Definition is_unsupported (c : ascii) : bool :=
  Ascii.eqb c "\" || Ascii.eqb c "[" || Ascii.eqb c "]"
  || Ascii.eqb c "{" || Ascii.eqb c "}".

Definition apply_postfix (op : ascii) (r : re) : re :=
  if Ascii.eqb op "*" then Star r
  else if Ascii.eqb op "+" then Cat r (Star r)
  else Alt r Eps.

(** After an atom: at most one postfix operator, optionally marked lazy; a
    second operator is Go's "invalid nested repetition operator". *)
Definition parse_postfix (r : re) (s : list ascii) : option (re * list ascii) :=
  match s with
  | op :: s1 =>
    if is_postfix op then
      let s2 := match s1 with
                | q :: s2 => if Ascii.eqb q "?" then s2 else s1
                | [] => s1
                end in
      match s2 with
      | op2 :: _ => if is_postfix op2 then None else Some (apply_postfix op r, s2)
      | [] => Some (apply_postfix op r, s2)
      end
    else Some (r, s)
  | [] => Some (r, s)
  end.

Fixpoint parse_alt (fuel : nat) (s : list ascii) : option (re * list ascii) :=
  match fuel with
  | O => None
  | S n =>
    match parse_cat n s with
    | Some (r, "|"%char :: s1) =>
      match parse_alt n s1 with
      | Some (r2, s2) => Some (Alt r r2, s2)
      | None => None
      end
    | other => other
    end
  end
with parse_cat (fuel : nat) (s : list ascii) : option (re * list ascii) :=
  match fuel with
  | O => None
  | S n =>
    match s with
    | [] => Some (Eps, s)
    | c :: _ =>
      if Ascii.eqb c "|" || Ascii.eqb c ")" then Some (Eps, s)
      else
        match parse_atom n s with
        | Some (a, s1) =>
          match parse_postfix a s1 with
          | Some (a', s2) =>
            match parse_cat n s2 with
            | Some (r, s3) => Some (Cat a' r, s3)
            | None => None
            end
          | None => None
          end
        | None => None
        end
    end
  end
with parse_atom (fuel : nat) (s : list ascii) : option (re * list ascii) :=
  match fuel with
  | O => None
  | S n =>
    match s with
    | [] => None
    | c :: s1 =>
      if Ascii.eqb c "(" then
        let body := match s1 with
                    | "?"%char :: ":"%char :: s2 => Some s2
                    | "?"%char :: _ => None
                    | _ => Some s1
                    end in
        match body with
        | Some s2 =>
          match parse_alt n s2 with
          | Some (r, ")"%char :: s3) => Some (r, s3)
          | _ => None
          end
        | None => None
        end
      else if Ascii.eqb c "." then Some (AnyNotNL, s1)
      else if Ascii.eqb c "^" then Some (Bol, s1)
      else if Ascii.eqb c "$" then Some (Eol, s1)
      else if is_postfix c || is_unsupported c then None
      else Some (Chr c, s1)
    end
  end.

Definition parse (s : string) : option re :=
  match parse_alt (4 * String.length s + 4) (list_ascii_of_string s) with
  | Some (r, []) => Some r
  | _ => None
  end.

Record compiled := { source : string; ast : re }.

Definition compile (s : string) : option compiled :=
  match parse s with
  | Some r => Some {| source := s; ast := r |}
  | None => None
  end.

End toyre.

Definition toyRegexp : RegexpLib := {|
  Regexp := toyre.compiled;
  Compile := toyre.compile;
  MatchString := fun re s => toyre.search (toyre.ast re) s;
  Regexp_String := toyre.source
|}.

(** ** Package [types]: matchers *)
Module types.

Inductive error :=
| CompileError (pattern : string)
| InvalidName (name : string)
| InvalidRegex (value : string)
| InvalidValue (value : string).

(** What a call does: it returns, it returns an error, or it panics (a nil
    pointer is dereferenced). *)
Inductive outcome (A : Type) :=
| Returns (a : A)
| Fails (e : error)
| Panics.
Arguments Returns {A} a.
Arguments Fails {A} e.
Arguments Panics {A}.

(** A run of a method: its outcome and the patterns it handed to
    [regexp.Compile], in call order. *)
Definition Run (A : Type) : Type := outcome A * list string.

#[global] Instance Run_ret : MRet Run := fun A a => (Returns a, []).

#[global] Instance Run_bind : MBind Run := fun A B f r =>
  match r with
  | (Returns a, w) => let '(o, w') := f a in (o, w ++ w')
  | (Fails e, w) => (Fails e, w)
  | (Panics, w) => (Panics, w)
  end.

Definition fail {A} (e : error) : Run A := (Fails e, []).
Definition panic {A} : Run A := (Panics, []).

Definition result_of {A} (r : Run A) : outcome A := fst r.
Definition compiled_by {A} (r : Run A) : list string := snd r.

Section WithRegexp.
Context {RL : RegexpLib}.

(** A call of [regexp.Compile]. *)
Definition regexp_Compile (p : string) : Run Regexp :=
  (match Compile p with
   | Some re => Returns re
   | None => Fails (CompileError p)
   end, [p]).

Record Matcher := {
  Name : string;
  Value : string;
  IsRegex : bool;
  regex : option Regexp
}.

Definition anchored (value : string) : string := "^(?:" +:+ value +:+ ")$".

(** [func (m *Matcher) Init() error]; the matcher it leaves behind is
    returned. *)
Definition Init (m : Matcher) : Run Matcher :=
  if negb (IsRegex m) then mret m
  else
    re ← regexp_Compile (anchored (Value m));
    mret {| Name := Name m; Value := Value m; IsRegex := IsRegex m;
            regex := Some re |}.

(** [func (m *Matcher) Validate() error]: the value is compiled as it stands
    and the compiled expression is dropped. *)
Definition Validate (m : Matcher) : Run unit :=
  if negb (LabelName_IsValid (Name m)) then fail (InvalidName (Name m))
  else if IsRegex m then
    match regexp_Compile (Value m) with
    | (Returns _, w) => (Returns tt, w)
    | (_, w) => (Fails (InvalidRegex (Value m)), w)
    end
  else if negb (ValidString (Value m)) || (String.length (Value m) =? 0)%nat
  then fail (InvalidValue (Value m))
  else mret tt.

(** [lset[name]]: an absent label reads as the empty string. *)
Definition label (lset : gmap string string) (name : string) : string :=
  default "" (lset !! name).

(** [func (m *Matcher) Match(lset model.LabelSet) bool]. *)
Definition Match (m : Matcher) (lset : gmap string string) : Run bool :=
  let v := label lset (Name m) in
  if IsRegex m then
    match regex m with
    | Some re => mret (MatchString re v)
    | None => panic
    end
  else mret (String.eqb v (Value m)).

Definition NewMatcher (name value : string) : Matcher :=
  {| Name := name; Value := value; IsRegex := false; regex := None |}.

Definition NewRegexMatcher (name : string) (re : Regexp) : Matcher :=
  {| Name := name; Value := Regexp_String re; IsRegex := true;
     regex := Some re |}.

(** [func (ms Matchers) Less(i, j int) bool], on the two elements. *)
Definition Less (a b : Matcher) : bool :=
  if String.ltb (Name b) (Name a) then false
  else if String.ltb (Name a) (Name b) then true
  else if String.ltb (Value b) (Value a) then false
  else if String.ltb (Value a) (Value b) then true
  else negb (IsRegex a) && IsRegex b.

(** [sort.IsSorted]: no element is less than the one before it. *)
Fixpoint IsSorted (ms : list Matcher) : bool :=
  match ms with
  | a :: (b :: _) as rest => negb (Less b a) && IsSorted rest
  | _ => true
  end.

(** [sort.Sort] at the [Matchers] interface: some rearrangement of the
    slice that [sort.IsSorted] accepts.  The library promises no more (the
    sort is not stable). *)
Class MatchersSort := {
  sort_Sort : list Matcher -> list Matcher;
  sort_Sort_perm : forall ms, sort_Sort ms ≡ₚ ms;
  sort_Sort_sorted : forall ms, IsSorted (sort_Sort ms) = true
}.

Definition NewMatchers {S : MatchersSort} (ms : list Matcher) : list Matcher :=
  sort_Sort ms.

(** [func (ms Matchers) Match(lset model.LabelSet) bool]. *)
Fixpoint Matchers_Match (ms : list Matcher) (lset : gmap string string) : Run bool :=
  match ms with
  | [] => mret true
  | m :: ms' =>
    b ← Match m lset;
    if negb b then mret false else Matchers_Match ms' lset
  end.

(** The insertion pass [sort.Sort] runs on short slices: each element moves
    left past the elements it is less than. *)
Fixpoint insert (x : Matcher) (sorted : list Matcher) : list Matcher :=
  match sorted with
  | [] => [x]
  | y :: rest => if Less x y then x :: y :: rest else y :: insert x rest
  end.

Definition insertionSort (ms : list Matcher) : list Matcher :=
  fold_left (fun acc x => insert x acc) ms [].

(** The fields the order looks at. *)
Definition key (m : Matcher) : string * string * bool :=
  (Name m, Value m, IsRegex m).

End WithRegexp.
Arguments Matcher : clear implicits.
Arguments Matcher {RL}.

(** The verb [%q] of [fmt] at a string: the text as a quoted Go string
    literal ([strconv.Quote]). *)
Class FmtLib := { fmt_q : string -> string }.

Section Strings.
Context {RL : RegexpLib} {Q : FmtLib}.

(** [func (m *Matcher) String]. *)
Definition Matcher_String (m : Matcher) : string :=
  if IsRegex m then Name m +:+ "=~" +:+ fmt_q (Value m)
  else Name m +:+ "=" +:+ fmt_q (Value m).

(** The loop of [Matchers.String] over the buffer; [i] is the index of the
    first matcher of [ms]. *)
Fixpoint Matchers_String_loop (i : nat) (ms : list Matcher) (buf : string) : string :=
  match ms with
  | [] => buf
  | m :: ms' =>
    let buf := if (0 <? i)%nat then buf +:+ "," else buf in
    Matchers_String_loop (S i) ms' (buf +:+ Matcher_String m)
  end.

(** [func (ms Matchers) String]. *)
Definition Matchers_String (ms : list Matcher) : string :=
  Matchers_String_loop 0 ms "{" +:+ "}".

End Strings.

(** [%q] for texts of printable ASCII characters: the quote and the
    backslash are escaped. *)
Definition quote_char : ascii := ascii_of_nat 34.

Fixpoint toy_escape (s : string) : string :=
  match s with
  | EmptyString => EmptyString
  | String c s' =>
    if Ascii.eqb c quote_char || Ascii.eqb c (ascii_of_nat 92)
    then String (ascii_of_nat 92) (String c (toy_escape s'))
    else String c (toy_escape s')
  end.

Definition toyFmt : FmtLib :=
  {| fmt_q := fun s => String quote_char (toy_escape s +:+ String quote_char EmptyString) |}.

End types.

(** ** Package [config] *)
Module config.

(** The fields of a channel configuration that can fall back to a global
    value; an error names the one that is missing. *)
Inductive global_field :=
| SMTP_smarthost
| SMTP_from
| Slack_API_URL
| PagerDuty_URL
| OpsGenie_URL
| OpsGenie_API_Key
| Wechat_URL
| Wechat_ApiSecret
| Wechat_CorpID
| VictorOps_URL
| VictorOps_API_Key.

(** The errors of the decoders of [HostPort]. *)
Inductive hostport_error :=
| HostPortNotAString                  (* the node or the JSON text is not a string *)
| SplitHostPortError (s : string)     (* net.SplitHostPort failed *)
| PortCannotBeEmpty (s : string).     (* address %q: port cannot be empty *)

(** The errors of the package, one constructor per message.  [YAMLError]
    stands for the errors that are not made in this file: those of yaml
    itself on a text that is not well-formed or not of the shape of the
    structs, and those of the decode hooks of other packages. *)
Inductive error :=
| YAMLError                                  (* an error of yaml or of another package *)
| NotAString                                 (* a scalar was expected *)
| JSONError                                  (* json.Unmarshal failed *)
| URLParseError (s : string)                 (* url.Parse failed *)
| UnsupportedScheme (scheme : string)        (* unsupported scheme %q for URL *)
| MissingHost                                (* missing host for URL *)
| RegexpError (pattern : string)             (* regexp.Compile failed *)
| HostPortError (e : hostport_error)         (* an error of the decoder of a HostPort *)
| NoRouteInConfig                            (* no route provided in config *)
| ContinueInRootRoute                        (* cannot have continue in root route *)
| NameNotUnique (name : string)              (* notification config name %q is not unique *)
| NoGlobalSet (field : global_field)         (* no global ... set *)
| NoRoutesProvided                           (* no routes provided *)
| RootWithoutReceiver                        (* root route must specify a default receiver *)
| RootWithMatchers                           (* root route must not have any matchers *)
| UndefinedReceiver (name : string)          (* undefined receiver %q used in route *)
| InvalidLabelName (name : string)           (* invalid label name %q *)
| InvalidGroupByLabel (name : string)        (* invalid label name %q in group_by list *)
| WildcardWithLabels                         (* cannot have wildcard group_by ... *)
| DuplicatedGroupByLabel (name : string)     (* duplicated label %q in group_by *)
| GroupIntervalZero                          (* group_interval cannot be zero *)
| RepeatIntervalZero                         (* repeat_interval cannot be zero *)
| MissingReceiverName                        (* missing name in receiver *)
| InvalidRegexpValue (name : string).        (* invalid regexp value for %q *)

Inductive result (A : Type) :=
| Ok (a : A)
| Err (e : error).
Arguments Ok {A} a.
Arguments Err {A} e.

#[global] Instance result_ret : MRet result := fun A a => Ok a.
#[global] Instance result_bind : MBind result := fun A B f r =>
  match r with
  | Ok a => f a
  | Err e => Err e
  end.

(** A call that follows pointers returns, with a value or with an error, or
    it panics on a nil pointer.  A [result] is read as the [run] that
    returns it. *)
Inductive run (A : Type) :=
| Done (r : result A)
| Panic.
Arguments Done {A} r.
Arguments Panic {A}.
Coercion Done : result >-> run.

(** A loop over a slice that stops at the first error. *)
Fixpoint mapR {A B} (f : A -> result B) (l : list A) : result (list B) :=
  match l with
  | [] => Ok []
  | x :: l' =>
    match f x with
    | Err e => Err e
    | Ok y =>
      match mapR f l' with
      | Err e => Err e
      | Ok ys => Ok (y :: ys)
      end
    end
  end.

(** *** Scalars *)

Definition secretToken : string := "<secret>".

Definition Secret := string.

(** [url.URL], with the fields the package reads or writes. *)
Record url_URL := {
  Scheme : string;
  Host : string;
  Path : string
}.

(** [url.URL{}]. *)
Definition empty_URL : url_URL := {| Scheme := ""; Host := ""; Path := "" |}.

(** [net/url] and [encoding/json], as far as the package calls them.
    [json_Marshal] is [json.Marshal] at a string and [json_Unmarshal] is
    [json.Unmarshal] into a string. *)
Class URLLib := { url_Parse : string -> option url_URL }.
Class JSONLib := {
  json_Marshal : string -> string;
  json_Unmarshal : string -> option string
}.

Record HostPort := {
  hp_Host : string;
  hp_Port : string
}.

Definition HostPort_String (hp : HostPort) : string :=
  if String.eqb (hp_Host hp) "" && String.eqb (hp_Port hp) "" then ""
  else hp_Host hp +:+ ":" +:+ hp_Port hp.

(** [model.Duration]: nanoseconds. *)
Definition Duration := Z.

(** [commoncfg.HTTPClientConfig] of prometheus/common: the package only
    passes it around. *)
Record HTTPClientConfig := { http_settings : list (string * string) }.

(** *** The store of URL objects

    A [*URL] is a location; the object it points to lives in the store, so
    that two configurations holding the same pointer see each other's
    writes.  [next] is the first location not yet handed out. *)
Definition loc := nat.

Record heap := {
  cells : loc -> url_URL;
  next : loc
}.

Definition M (A : Type) : Type := heap -> result (A * heap).

#[global] Instance M_ret : MRet M := fun A a h => Ok (a, h).
#[global] Instance M_bind : MBind M := fun A B f m h =>
  match m h with
  | Ok (a, h') => f a h'
  | Err e => Err e
  end.

Definition fail {A} (e : error) : M A := fun _ => Err e.

Definition lift {A} (r : result A) : M A := fun h =>
  match r with
  | Ok a => Ok (a, h)
  | Err e => Err e
  end.

Definition load (l : loc) : M url_URL := fun h => Ok (cells h l, h).

Definition store (l : loc) (u : url_URL) : M unit := fun h =>
  Ok (tt, {| cells := <[l := u]> (cells h); next := next h |}).

Definition alloc (u : url_URL) : M loc := fun h =>
  Ok (next h, {| cells := <[next h := u]> (cells h); next := S (next h) |}).

Fixpoint mapM {A B} (f : A -> M B) (l : list A) : M (list B) :=
  match l with
  | [] => mret []
  | x :: l' => y ← f x; ys ← mapM f l'; mret (y :: ys)
  end.

(** *** Channel configurations *)

(** The channel configuration structs are declared in the notifier file of
    the package, which is not part of the source at hand.  Each record below
    keeps the fields that [Config.UnmarshalYAML] reads or writes; section 4.3
    of the specification names the same fields. *)

Module WebhookConfig.
(** Modelled from the spec: the struct [WebhookConfig], with its HTTP
    settings. *)
Record t := { HTTPConfig : option HTTPClientConfig }.
End WebhookConfig.

Module EmailConfig.
(** Modelled from the spec: the struct [EmailConfig], with the SMTP fields
    that fall back to the global block. *)
Record t := {
  Smarthost : HostPort;
  From : string;
  Hello : string;
  AuthUsername : string;
  AuthPassword : Secret;
  AuthSecret : Secret;
  AuthIdentity : string;
  RequireTLS : option bool
}.
End EmailConfig.

Module SlackConfig.
(** Modelled from the spec: the struct [SlackConfig], with its HTTP
    settings and API URL. *)
Record t := {
  HTTPConfig : option HTTPClientConfig;
  APIURL : option loc
}.
End SlackConfig.

Module PushoverConfig.
(** Modelled from the spec: the struct [PushoverConfig], with its HTTP
    settings. *)
Record t := { HTTPConfig : option HTTPClientConfig }.
End PushoverConfig.

Module PagerdutyConfig.
(** Modelled from the spec: the struct [PagerdutyConfig], with its HTTP
    settings and URL. *)
Record t := {
  HTTPConfig : option HTTPClientConfig;
  URL : option loc
}.
End PagerdutyConfig.

Module OpsGenieConfig.
(** Modelled from the spec: the struct [OpsGenieConfig], with its HTTP
    settings, API URL and API key. *)
Record t := {
  HTTPConfig : option HTTPClientConfig;
  APIURL : option loc;
  APIKey : Secret
}.
End OpsGenieConfig.

Module WechatConfig.
(** Modelled from the spec: the struct [WechatConfig], with its HTTP
    settings, API URL, API secret and corporation id. *)
Record t := {
  HTTPConfig : option HTTPClientConfig;
  APIURL : option loc;
  APISecret : Secret;
  CorpID : string
}.
End WechatConfig.

Module VictorOpsConfig.
(** Modelled from the spec: the struct [VictorOpsConfig], with its HTTP
    settings, API URL and API key. *)
Record t := {
  HTTPConfig : option HTTPClientConfig;
  APIURL : option loc;
  APIKey : Secret
}.
End VictorOpsConfig.

Module GlobalConfig.
Record t := {
  ResolveTimeout : Duration;
  HTTPConfig : option HTTPClientConfig;
  SMTPFrom : string;
  SMTPHello : string;
  SMTPSmarthost : HostPort;
  SMTPAuthUsername : string;
  SMTPAuthPassword : Secret;
  SMTPAuthSecret : Secret;
  SMTPAuthIdentity : string;
  SMTPRequireTLS : bool;
  SlackAPIURL : option loc;
  PagerdutyURL : option loc;
  OpsGenieAPIURL : option loc;
  OpsGenieAPIKey : Secret;
  WeChatAPIURL : option loc;
  WeChatAPISecret : Secret;
  WeChatAPICorpID : string;
  VictorOpsAPIURL : option loc;
  VictorOpsAPIKey : Secret
}.
End GlobalConfig.

(** *** The structs by value

    [Receiver], [Route] and [Config] with their slices of pointers as lists
    of structs: a configuration in which no entry of a slice is nil, every
    pointer followed.  The module [ptr] below has the same structs with the
    pointers. *)
Module Receiver.
Record t := {
  Name : string;
  EmailConfigs : list EmailConfig.t;
  PagerdutyConfigs : list PagerdutyConfig.t;
  SlackConfigs : list SlackConfig.t;
  WebhookConfigs : list WebhookConfig.t;
  OpsGenieConfigs : list OpsGenieConfig.t;
  WechatConfigs : list WechatConfig.t;
  PushoverConfigs : list PushoverConfig.t;
  VictorOpsConfigs : list VictorOpsConfig.t
}.
End Receiver.

(** [config.Regexp]: the compiled expression (nil when the document gave
    none) and the text it was written as. *)
Module Regexp_.
Record t {RL : RegexpLib} := {
  compiled : option Regexp;
  original : string
}.
End Regexp_.

(** A route as the document gives it: the fields that have a YAML key. *)
Module RouteYAML.
Inductive t {RL : RegexpLib} := make {
  Receiver : string;
  GroupByStr : list string;
  Match : gmap string string;
  MatchRE : gmap string Regexp_.t;
  Continue : bool;
  Routes : list t;
  GroupWait : option Duration;
  GroupInterval : option Duration;
  RepeatInterval : option Duration
}.
End RouteYAML.

(** [Route]: the struct after its decode hook has run. *)
Module Route.
Inductive t {RL : RegexpLib} := make {
  Receiver : string;
  GroupByStr : list string;
  GroupBy : list string;
  GroupByAll : bool;
  Match : gmap string string;
  MatchRE : gmap string Regexp_.t;
  Continue : bool;
  Routes : list t;
  GroupWait : option Duration;
  GroupInterval : option Duration;
  RepeatInterval : option Duration
}.
End Route.

Module InhibitRule.
Record t {RL : RegexpLib} := {
  SourceMatch : gmap string string;
  SourceMatchRE : gmap string Regexp_.t;
  TargetMatch : gmap string string;
  TargetMatchRE : gmap string Regexp_.t;
  Equal : list string
}.
End InhibitRule.

(** The top-level document, as the decoder hands it over: the scalars are
    decoded, the URL objects are in the store, and the hooks of [Route],
    [InhibitRule], [Receiver] and [Config] have not run yet.  By value: no
    list of the document has a null entry. *)
Module ConfigYAML.
Record t {RL : RegexpLib} := {
  Global : option GlobalConfig.t;
  Route : option RouteYAML.t;
  InhibitRules : list InhibitRule.t;
  Receivers : list Receiver.t;
  Templates : list string
}.
End ConfigYAML.

Module Config.
Record t {RL : RegexpLib} := {
  Global : option GlobalConfig.t;
  Route : option Route.t;
  InhibitRules : list InhibitRule.t;
  Receivers : list Receiver.t;
  Templates : list string;
  original : string
}.
End Config.


Section Hooks.
Context {RL : RegexpLib}.

(** *** Decode hooks

    The functions of this section that take a [Route], a [Receiver] or a
    [Config] take it by value: they are the functions of the source on
    structs whose slices have no nil entry, where no pointer can be nil.
    The functions of the source on the structs with their pointers follow in
    the module [ptr]; [Load] runs those. *)

(** [func (re *Regexp) UnmarshalYAML]: the text is compiled once, wrapped
    as [^(?:text)$]. *)
Definition Regexp_UnmarshalYAML (node : option string) : result Regexp_.t :=
  match node with
  | None => Err NotAString
  | Some s =>
    match Compile ("^(?:" +:+ s +:+ ")$") with
    | None => Err (RegexpError ("^(?:" +:+ s +:+ ")$"))
    | Some regex => Ok {| Regexp_.compiled := Some regex; Regexp_.original := s |}
    end
  end.

(** [for k := range m]: Go walks a map in no particular order; the model
    walks it in the order of [map_to_list]. *)
Definition check_label_names {V} (m : gmap string V) : result unit :=
  match filter (fun k => LabelName_IsValid k = false) (map fst (map_to_list m)) with
  | [] => Ok tt
  | k :: _ => Err (InvalidLabelName k)
  end.

(** [func (m *MatchRegexps) UnmarshalYAML]. *)
Definition MatchRegexps_check (kv : string * Regexp_.t) : result unit :=
  if negb (LabelName_IsValid kv.1) then Err (InvalidLabelName kv.1)
  else match Regexp_.compiled kv.2 with
       | None => Err (InvalidRegexpValue kv.1)
       | Some _ => Ok tt
       end.

Definition MatchRegexps_UnmarshalYAML (m : gmap string Regexp_.t) : result unit :=
  match mapR MatchRegexps_check (map_to_list m) with
  | Ok _ => Ok tt
  | Err e => Err e
  end.

(** The loop over [r.GroupByStr]. *)
Fixpoint group_by_loop (ls : list string) (groupBy : list string) (groupByAll : bool)
  : result (list string * bool) :=
  match ls with
  | [] => Ok (groupBy, groupByAll)
  | l :: ls' =>
    if String.eqb l "..." then group_by_loop ls' groupBy true
    else if negb (LabelName_IsValid l) then Err (InvalidGroupByLabel l)
    else group_by_loop ls' (groupBy ++ [l]) groupByAll
  end.

(** The loop over [r.GroupBy] that fills the local set [groupBy]. *)
Fixpoint check_duplicates (lns : list string) (seen : gset string) : result unit :=
  match lns with
  | [] => Ok tt
  | ln :: lns' =>
    if decide (ln ∈ seen) then Err (DuplicatedGroupByLabel ln)
    else check_duplicates lns' ({[ln]} ∪ seen)
  end.

Definition is_zero (d : option Duration) : bool :=
  match d with
  | Some n => (n =? 0)%Z
  | None => false
  end.

(** [func (r *Route) UnmarshalYAML]: decoding the plain struct runs the hooks
    of the child routes and of [match_re]; then come the checks of the node
    itself. *)
Fixpoint Route_UnmarshalYAML (y : RouteYAML.t) : result Route.t :=
  routes ← mapR Route_UnmarshalYAML (RouteYAML.Routes y);
  _ ← MatchRegexps_UnmarshalYAML (RouteYAML.MatchRE y);
  _ ← check_label_names (RouteYAML.Match y);
  gb ← group_by_loop (RouteYAML.GroupByStr y) [] false;
  if (0 <? length gb.1)%nat && gb.2 then Err WildcardWithLabels
  else
    _ ← check_duplicates gb.1 ∅;
    if is_zero (RouteYAML.GroupInterval y) then Err GroupIntervalZero
    else if is_zero (RouteYAML.RepeatInterval y) then Err RepeatIntervalZero
    else Ok {|
      Route.Receiver := RouteYAML.Receiver y;
      Route.GroupByStr := RouteYAML.GroupByStr y;
      Route.GroupBy := gb.1;
      Route.GroupByAll := gb.2;
      Route.Match := RouteYAML.Match y;
      Route.MatchRE := RouteYAML.MatchRE y;
      Route.Continue := RouteYAML.Continue y;
      Route.Routes := routes;
      Route.GroupWait := RouteYAML.GroupWait y;
      Route.GroupInterval := RouteYAML.GroupInterval y;
      Route.RepeatInterval := RouteYAML.RepeatInterval y
    |}.

(** [func (r *InhibitRule) UnmarshalYAML]. *)
Definition InhibitRule_UnmarshalYAML (r : InhibitRule.t) : result InhibitRule.t :=
  _ ← MatchRegexps_UnmarshalYAML (InhibitRule.SourceMatchRE r);
  _ ← MatchRegexps_UnmarshalYAML (InhibitRule.TargetMatchRE r);
  _ ← check_label_names (InhibitRule.SourceMatch r);
  _ ← check_label_names (InhibitRule.TargetMatch r);
  Ok r.

(** [func (c *Receiver) UnmarshalYAML]. *)
Definition Receiver_UnmarshalYAML (c : Receiver.t) : result Receiver.t :=
  if String.eqb (Receiver.Name c) "" then Err MissingReceiverName else Ok c.

(** The plain decode at the head of [Config.UnmarshalYAML]: the hooks of
    the parts run (in the model: route, inhibit rules, receivers; in Go: in the
    order of the keys in the document). *)
Definition unmarshal_plain (y : ConfigYAML.t) : result Config.t :=
  route ← match ConfigYAML.Route y with
          | None => Ok None
          | Some ry => r ← Route_UnmarshalYAML ry; Ok (Some r)
          end;
  rules ← mapR InhibitRule_UnmarshalYAML (ConfigYAML.InhibitRules y);
  rcvs ← mapR Receiver_UnmarshalYAML (ConfigYAML.Receivers y);
  Ok {|
    Config.Global := ConfigYAML.Global y;
    Config.Route := route;
    Config.InhibitRules := rules;
    Config.Receivers := rcvs;
    Config.Templates := ConfigYAML.Templates y;
    Config.original := ""
  |}.

(** *** Defaults from the global configuration *)

(** [DefaultGlobalConfig]: [mustParseURL] makes a new URL object for each of
    the four addresses; the values are what [url.Parse] finds in them. *)
Definition DefaultGlobalConfig : M GlobalConfig.t :=
  pagerduty ← alloc {| Scheme := "https"; Host := "events.pagerduty.com";
                       Path := "/v2/enqueue" |};
  opsgenie ← alloc {| Scheme := "https"; Host := "api.opsgenie.com"; Path := "/" |};
  wechat ← alloc {| Scheme := "https"; Host := "qyapi.weixin.qq.com";
                    Path := "/cgi-bin/" |};
  victorops ← alloc {| Scheme := "https"; Host := "alert.victorops.com";
                       Path := "/integrations/generic/20131114/alert/" |};
  mret {|
    GlobalConfig.ResolveTimeout := 300000000000%Z;
    GlobalConfig.HTTPConfig := Some {| http_settings := [] |};
    GlobalConfig.SMTPFrom := "";
    GlobalConfig.SMTPHello := "localhost";
    GlobalConfig.SMTPSmarthost := {| hp_Host := ""; hp_Port := "" |};
    GlobalConfig.SMTPAuthUsername := "";
    GlobalConfig.SMTPAuthPassword := "";
    GlobalConfig.SMTPAuthSecret := "";
    GlobalConfig.SMTPAuthIdentity := "";
    GlobalConfig.SMTPRequireTLS := true;
    GlobalConfig.SlackAPIURL := None;
    GlobalConfig.PagerdutyURL := Some pagerduty;
    GlobalConfig.OpsGenieAPIURL := Some opsgenie;
    GlobalConfig.OpsGenieAPIKey := "";
    GlobalConfig.WeChatAPIURL := Some wechat;
    GlobalConfig.WeChatAPISecret := "";
    GlobalConfig.WeChatAPICorpID := "";
    GlobalConfig.VictorOpsAPIURL := Some victorops;
    GlobalConfig.VictorOpsAPIKey := ""
  |}.

(** [if x.HTTPConfig == nil { x.HTTPConfig = c.Global.HTTPConfig }]. *)
Definition http_or_global (own : option HTTPClientConfig) (g : GlobalConfig.t)
  : option HTTPClientConfig :=
  match own with
  | None => GlobalConfig.HTTPConfig g
  | Some _ => own
  end.

(** A string field that must be set here or globally. *)
Definition required (own global : string) (field : global_field) : result string :=
  if String.eqb own "" then
    if String.eqb global "" then Err (NoGlobalSet field) else Ok global
  else Ok own.

(** A string field that is copied from the global value when unset. *)
Definition optional (own global : string) : string :=
  if String.eqb own "" then global else own.

(** A pointer field that must be set here or globally; the global pointer
    itself is copied, not the object. *)
Definition required_ptr (own global : option loc) (field : global_field) : result loc :=
  match own with
  | Some l => Ok l
  | None =>
    match global with
    | None => Err (NoGlobalSet field)
    | Some l => Ok l
    end
  end.

(** [if !strings.HasSuffix(x.APIURL.Path, "/") { x.APIURL.Path += "/" }]:
    a write through the pointer. *)
Definition ensure_slash (l : loc) : M unit :=
  u ← load l;
  if HasSuffix (Path u) "/" then mret tt
  else store l {| Scheme := Scheme u; Host := Host u; Path := Path u +:+ "/" |}.

Definition default_webhook (g : GlobalConfig.t) (wh : WebhookConfig.t) : M WebhookConfig.t :=
  mret {| WebhookConfig.HTTPConfig := http_or_global (WebhookConfig.HTTPConfig wh) g |}.

Definition default_email (g : GlobalConfig.t) (ec : EmailConfig.t) : M EmailConfig.t :=
  smarthost ← lift (
    if String.eqb (HostPort_String (EmailConfig.Smarthost ec)) "" then
      if String.eqb (HostPort_String (GlobalConfig.SMTPSmarthost g)) ""
      then Err (NoGlobalSet SMTP_smarthost)
      else Ok (GlobalConfig.SMTPSmarthost g)
    else Ok (EmailConfig.Smarthost ec));
  from ← lift (required (EmailConfig.From ec) (GlobalConfig.SMTPFrom g) SMTP_from);
  mret {|
    EmailConfig.Smarthost := smarthost;
    EmailConfig.From := from;
    EmailConfig.Hello := optional (EmailConfig.Hello ec) (GlobalConfig.SMTPHello g);
    EmailConfig.AuthUsername :=
      optional (EmailConfig.AuthUsername ec) (GlobalConfig.SMTPAuthUsername g);
    EmailConfig.AuthPassword :=
      optional (EmailConfig.AuthPassword ec) (GlobalConfig.SMTPAuthPassword g);
    EmailConfig.AuthSecret :=
      optional (EmailConfig.AuthSecret ec) (GlobalConfig.SMTPAuthSecret g);
    EmailConfig.AuthIdentity :=
      optional (EmailConfig.AuthIdentity ec) (GlobalConfig.SMTPAuthIdentity g);
    EmailConfig.RequireTLS :=
      match EmailConfig.RequireTLS ec with
      | None => Some (GlobalConfig.SMTPRequireTLS g)
      | Some b => Some b
      end
  |}.

Definition default_slack (g : GlobalConfig.t) (sc : SlackConfig.t) : M SlackConfig.t :=
  apiurl ← lift (required_ptr (SlackConfig.APIURL sc) (GlobalConfig.SlackAPIURL g)
                   Slack_API_URL);
  mret {|
    SlackConfig.HTTPConfig := http_or_global (SlackConfig.HTTPConfig sc) g;
    SlackConfig.APIURL := Some apiurl
  |}.

Definition default_pushover (g : GlobalConfig.t) (poc : PushoverConfig.t) : M PushoverConfig.t :=
  mret {| PushoverConfig.HTTPConfig := http_or_global (PushoverConfig.HTTPConfig poc) g |}.

Definition default_pagerduty (g : GlobalConfig.t) (pdc : PagerdutyConfig.t) : M PagerdutyConfig.t :=
  url ← lift (required_ptr (PagerdutyConfig.URL pdc) (GlobalConfig.PagerdutyURL g)
                PagerDuty_URL);
  mret {|
    PagerdutyConfig.HTTPConfig := http_or_global (PagerdutyConfig.HTTPConfig pdc) g;
    PagerdutyConfig.URL := Some url
  |}.

Definition default_opsgenie (g : GlobalConfig.t) (ogc : OpsGenieConfig.t) : M OpsGenieConfig.t :=
  apiurl ← lift (required_ptr (OpsGenieConfig.APIURL ogc) (GlobalConfig.OpsGenieAPIURL g)
                   OpsGenie_URL);
  _ ← ensure_slash apiurl;
  apikey ← lift (required (OpsGenieConfig.APIKey ogc) (GlobalConfig.OpsGenieAPIKey g)
                   OpsGenie_API_Key);
  mret {|
    OpsGenieConfig.HTTPConfig := http_or_global (OpsGenieConfig.HTTPConfig ogc) g;
    OpsGenieConfig.APIURL := Some apiurl;
    OpsGenieConfig.APIKey := apikey
  |}.

Definition default_wechat (g : GlobalConfig.t) (wcc : WechatConfig.t) : M WechatConfig.t :=
  apiurl ← lift (required_ptr (WechatConfig.APIURL wcc) (GlobalConfig.WeChatAPIURL g)
                   Wechat_URL);
  apisecret ← lift (required (WechatConfig.APISecret wcc) (GlobalConfig.WeChatAPISecret g)
                      Wechat_ApiSecret);
  corpid ← lift (required (WechatConfig.CorpID wcc) (GlobalConfig.WeChatAPICorpID g)
                   Wechat_CorpID);
  _ ← ensure_slash apiurl;
  mret {|
    WechatConfig.HTTPConfig := http_or_global (WechatConfig.HTTPConfig wcc) g;
    WechatConfig.APIURL := Some apiurl;
    WechatConfig.APISecret := apisecret;
    WechatConfig.CorpID := corpid
  |}.

Definition default_victorops (g : GlobalConfig.t) (voc : VictorOpsConfig.t) : M VictorOpsConfig.t :=
  apiurl ← lift (required_ptr (VictorOpsConfig.APIURL voc) (GlobalConfig.VictorOpsAPIURL g)
                   VictorOps_URL);
  _ ← ensure_slash apiurl;
  apikey ← lift (required (VictorOpsConfig.APIKey voc) (GlobalConfig.VictorOpsAPIKey g)
                   VictorOps_API_Key);
  mret {|
    VictorOpsConfig.HTTPConfig := http_or_global (VictorOpsConfig.HTTPConfig voc) g;
    VictorOpsConfig.APIURL := Some apiurl;
    VictorOpsConfig.APIKey := apikey
  |}.

(** The body of [for _, rcv := range c.Receivers], after the name check: the
    eight inner loops, in the order of the source. *)
Definition default_receiver (g : GlobalConfig.t) (rcv : Receiver.t) : M Receiver.t :=
  webhooks ← mapM (default_webhook g) (Receiver.WebhookConfigs rcv);
  emails ← mapM (default_email g) (Receiver.EmailConfigs rcv);
  slacks ← mapM (default_slack g) (Receiver.SlackConfigs rcv);
  pushovers ← mapM (default_pushover g) (Receiver.PushoverConfigs rcv);
  pagerduties ← mapM (default_pagerduty g) (Receiver.PagerdutyConfigs rcv);
  opsgenies ← mapM (default_opsgenie g) (Receiver.OpsGenieConfigs rcv);
  wechats ← mapM (default_wechat g) (Receiver.WechatConfigs rcv);
  victorops ← mapM (default_victorops g) (Receiver.VictorOpsConfigs rcv);
  mret {|
    Receiver.Name := Receiver.Name rcv;
    Receiver.EmailConfigs := emails;
    Receiver.PagerdutyConfigs := pagerduties;
    Receiver.SlackConfigs := slacks;
    Receiver.WebhookConfigs := webhooks;
    Receiver.OpsGenieConfigs := opsgenies;
    Receiver.WechatConfigs := wechats;
    Receiver.PushoverConfigs := pushovers;
    Receiver.VictorOpsConfigs := victorops
  |}.

(** [for _, rcv := range c.Receivers], with the set [names] of the receivers
    seen so far; by value, so no [rcv] is nil. *)
Fixpoint default_receivers (g : GlobalConfig.t) (rcvs : list Receiver.t)
    (names : gset string) : M (list Receiver.t * gset string) :=
  match rcvs with
  | [] => mret ([], names)
  | rcv :: rest =>
    if decide (Receiver.Name rcv ∈ names) then fail (NameNotUnique (Receiver.Name rcv))
    else
      rcv' ← default_receiver g rcv;
      out ← default_receivers g rest ({[Receiver.Name rcv]} ∪ names);
      mret (rcv' :: out.1, out.2)
  end.

(** [checkReceiver]: the child routes first, then the node; by value, so no
    child is nil. *)
Fixpoint checkReceiver (r : Route.t) (receivers : gset string) : result unit :=
  _ ← mapR (fun sr => checkReceiver sr receivers) (Route.Routes r);
  if String.eqb (Route.Receiver r) "" then Ok tt
  else if decide (Route.Receiver r ∈ receivers) then Ok tt
  else Err (UndefinedReceiver (Route.Receiver r)).

(** The checks on the root route at the end of [Config.UnmarshalYAML]. *)
Definition check_root (route : option Route.t) : result Route.t :=
  match route with
  | None => Err NoRoutesProvided
  | Some r =>
    if (String.length (Route.Receiver r) =? 0)%nat then Err RootWithoutReceiver
    else if (0 <? size (Route.Match r))%nat || (0 <? size (Route.MatchRE r))%nat
    then Err RootWithMatchers
    else Ok r
  end.

(** [func (c *Config) UnmarshalYAML], by value. *)
Definition Config_UnmarshalYAML (y : ConfigYAML.t) : M Config.t :=
  c ← lift (unmarshal_plain y);
  g ← match Config.Global c with
      | Some g => mret g
      | None => DefaultGlobalConfig
      end;
  out ← default_receivers g (Config.Receivers c) ∅;
  r ← lift (check_root (Config.Route c));
  _ ← lift (checkReceiver r out.2);
  mret {|
    Config.Global := Some g;
    Config.Route := Config.Route c;
    Config.InhibitRules := Config.InhibitRules c;
    Config.Receivers := out.1;
    Config.Templates := Config.Templates c;
    Config.original := Config.original c
  |}.

End Hooks.

(** *** The structs with their pointers

    [Receivers []*Receiver], [Routes []*Route] and the eight lists of channel
    configurations of a receiver are slices of pointers.  Where the document
    has a null entry ([receivers: [null]]) the decoder leaves nil, and the
    hook of the entry does not run.  The module [ptr] has the structs with
    these slices as lists of [option]s and the functions of the package on
    them: they panic where the source reads a field through a nil entry.
    The package never ranges over [InhibitRules []*InhibitRule]; a null
    entry in that list is outside the model. *)
Module ptr.

Module Receiver.
Record t := {
  Name : string;
  EmailConfigs : list (option EmailConfig.t);
  PagerdutyConfigs : list (option PagerdutyConfig.t);
  SlackConfigs : list (option SlackConfig.t);
  WebhookConfigs : list (option WebhookConfig.t);
  OpsGenieConfigs : list (option OpsGenieConfig.t);
  WechatConfigs : list (option WechatConfig.t);
  PushoverConfigs : list (option PushoverConfig.t);
  VictorOpsConfigs : list (option VictorOpsConfig.t)
}.
End Receiver.

(** A route as the document gives it. *)
Module RouteYAML.
Inductive t {RL : RegexpLib} := make {
  Receiver : string;
  GroupByStr : list string;
  Match : gmap string string;
  MatchRE : gmap string Regexp_.t;
  Continue : bool;
  Routes : list (option t);
  GroupWait : option Duration;
  GroupInterval : option Duration;
  RepeatInterval : option Duration
}.
End RouteYAML.

(** [Route]: the struct after its decode hook has run. *)
Module Route.
Inductive t {RL : RegexpLib} := make {
  Receiver : string;
  GroupByStr : list string;
  GroupBy : list string;
  GroupByAll : bool;
  Match : gmap string string;
  MatchRE : gmap string Regexp_.t;
  Continue : bool;
  Routes : list (option t);
  GroupWait : option Duration;
  GroupInterval : option Duration;
  RepeatInterval : option Duration
}.
End Route.

(** The top-level document, as the decoder hands it over. *)
Module ConfigYAML.
Record t {RL : RegexpLib} := {
  Global : option GlobalConfig.t;
  Route : option RouteYAML.t;
  InhibitRules : list InhibitRule.t;
  Receivers : list (option Receiver.t);
  Templates : list string
}.
End ConfigYAML.

(** [Config], while its hook runs. *)
Module Config.
Record t {RL : RegexpLib} := {
  Global : option GlobalConfig.t;
  Route : option Route.t;
  InhibitRules : list InhibitRule.t;
  Receivers : list (option Receiver.t);
  Templates : list string;
  original : string
}.
End Config.

Section Hooks.
Context {RL : RegexpLib}.

(** Computations on the store that can panic. *)
Definition MP (A : Type) : Type := heap -> run (A * heap).

#[global] Instance MP_ret : MRet MP := fun A a h => Done (Ok (a, h)).
#[global] Instance MP_bind : MBind MP := fun A B f m h =>
  match m h with
  | Done (Ok (a, h')) => f a h'
  | Done (Err e) => Done (Err e)
  | Panic => Panic
  end.

(** A step that cannot panic. *)
Definition call {A} (m : M A) : MP A := fun h => Done (m h).

(** A step that does not touch the store. *)
Definition pure {A} (r : run A) : MP A := fun h =>
  match r with
  | Done (Ok a) => Done (Ok (a, h))
  | Done (Err e) => Done (Err e)
  | Panic => Panic
  end.

(** Reading a field through a pointer: a nil pointer panics. *)
Definition deref {A} (p : option A) : MP A := fun h =>
  match p with
  | Some a => Done (Ok (a, h))
  | None => Panic
  end.

(** [for _, x := range xs { body }] over a slice of pointers, where the body
    reads a field of [x] first: so do the eight inner loops of
    [Config.UnmarshalYAML] ([wh.HTTPConfig], [ec.Smarthost], [sc.HTTPConfig],
    [poc.HTTPConfig], [pdc.HTTPConfig], [ogc.HTTPConfig], [wcc.HTTPConfig],
    [voc.HTTPConfig]). *)
Fixpoint range {A B} (body : A -> M B) (xs : list (option A)) : MP (list B) :=
  match xs with
  | [] => mret []
  | p :: xs' =>
    x ← deref p;
    y ← call (body x);
    ys ← range body xs';
    mret (y :: ys)
  end.

(** The decoder on a pointer to a struct with a decode hook: a null entry
    stays nil and the hook does not run. *)
Definition hook {A B} (f : A -> result B) (p : option A) : result (option B) :=
  match p with
  | None => Ok None
  | Some a => b ← f a; Ok (Some b)
  end.

(** [func (r *Route) UnmarshalYAML]: decoding the plain struct runs the hooks
    of the child routes that are not null and of [match_re]; then come the
    checks of the node itself. *)
Fixpoint Route_UnmarshalYAML (y : RouteYAML.t) : result Route.t :=
  routes ← mapR (hook Route_UnmarshalYAML) (RouteYAML.Routes y);
  _ ← MatchRegexps_UnmarshalYAML (RouteYAML.MatchRE y);
  _ ← check_label_names (RouteYAML.Match y);
  gb ← group_by_loop (RouteYAML.GroupByStr y) [] false;
  if (0 <? length gb.1)%nat && gb.2 then Err WildcardWithLabels
  else
    _ ← check_duplicates gb.1 ∅;
    if is_zero (RouteYAML.GroupInterval y) then Err GroupIntervalZero
    else if is_zero (RouteYAML.RepeatInterval y) then Err RepeatIntervalZero
    else Ok {|
      Route.Receiver := RouteYAML.Receiver y;
      Route.GroupByStr := RouteYAML.GroupByStr y;
      Route.GroupBy := gb.1;
      Route.GroupByAll := gb.2;
      Route.Match := RouteYAML.Match y;
      Route.MatchRE := RouteYAML.MatchRE y;
      Route.Continue := RouteYAML.Continue y;
      Route.Routes := routes;
      Route.GroupWait := RouteYAML.GroupWait y;
      Route.GroupInterval := RouteYAML.GroupInterval y;
      Route.RepeatInterval := RouteYAML.RepeatInterval y
    |}.

(** [func (c *Receiver) UnmarshalYAML]. *)
Definition Receiver_UnmarshalYAML (c : Receiver.t) : result Receiver.t :=
  if String.eqb (Receiver.Name c) "" then Err MissingReceiverName else Ok c.

(** The plain decode at the head of [Config.UnmarshalYAML]: the hooks of
    the parts run (in the model: route, inhibit rules, receivers; in Go: in the
    order of the keys in the document). *)
Definition unmarshal_plain (y : ConfigYAML.t) : result Config.t :=
  route ← hook Route_UnmarshalYAML (ConfigYAML.Route y);
  rules ← mapR InhibitRule_UnmarshalYAML (ConfigYAML.InhibitRules y);
  rcvs ← mapR (hook Receiver_UnmarshalYAML) (ConfigYAML.Receivers y);
  Ok {|
    Config.Global := ConfigYAML.Global y;
    Config.Route := route;
    Config.InhibitRules := rules;
    Config.Receivers := rcvs;
    Config.Templates := ConfigYAML.Templates y;
    Config.original := ""
  |}.

(** The body of [for _, rcv := range c.Receivers], after the name check: the
    eight inner loops, in the order of the source.  Each entry has been
    followed when the loops are through, so the receiver is returned by
    value. *)
Definition default_receiver (g : GlobalConfig.t) (rcv : Receiver.t)
  : MP config.Receiver.t :=
  webhooks ← range (default_webhook g) (Receiver.WebhookConfigs rcv);
  emails ← range (default_email g) (Receiver.EmailConfigs rcv);
  slacks ← range (default_slack g) (Receiver.SlackConfigs rcv);
  pushovers ← range (default_pushover g) (Receiver.PushoverConfigs rcv);
  pagerduties ← range (default_pagerduty g) (Receiver.PagerdutyConfigs rcv);
  opsgenies ← range (default_opsgenie g) (Receiver.OpsGenieConfigs rcv);
  wechats ← range (default_wechat g) (Receiver.WechatConfigs rcv);
  victorops ← range (default_victorops g) (Receiver.VictorOpsConfigs rcv);
  mret {|
    config.Receiver.Name := Receiver.Name rcv;
    config.Receiver.EmailConfigs := emails;
    config.Receiver.PagerdutyConfigs := pagerduties;
    config.Receiver.SlackConfigs := slacks;
    config.Receiver.WebhookConfigs := webhooks;
    config.Receiver.OpsGenieConfigs := opsgenies;
    config.Receiver.WechatConfigs := wechats;
    config.Receiver.PushoverConfigs := pushovers;
    config.Receiver.VictorOpsConfigs := victorops
  |}.

(** [for _, rcv := range c.Receivers], with the set [names] of the receivers
    seen so far; the loop starts with [names[rcv.Name]], which reads through
    [rcv]. *)
Fixpoint default_receivers (g : GlobalConfig.t) (rcvs : list (option Receiver.t))
    (names : gset string) : MP (list config.Receiver.t * gset string) :=
  match rcvs with
  | [] => mret ([], names)
  | p :: rest =>
    rcv ← deref p;
    if decide (Receiver.Name rcv ∈ names)
    then call (fail (NameNotUnique (Receiver.Name rcv)))
    else
      rcv' ← default_receiver g rcv;
      out ← default_receivers g rest ({[Receiver.Name rcv]} ∪ names);
      mret (rcv' :: out.1, out.2)
  end.

(** [for _, x := range xs { if err := f(x); err != nil { return err } }]
    where [f] reads a field of [x] first: [checkReceiver] starts with
    [r.Routes]. *)
Fixpoint each {A} (f : A -> run unit) (ps : list (option A)) : run unit :=
  match ps with
  | [] => Ok tt
  | None :: _ => Panic
  | Some a :: ps' =>
    match f a with
    | Done (Ok _) => each f ps'
    | stop => stop
    end
  end.

(** [checkReceiver]: the child routes first, then the node. *)
Fixpoint checkReceiver (r : Route.t) (receivers : gset string) : run unit :=
  match each (fun sr => checkReceiver sr receivers) (Route.Routes r) with
  | Done (Ok _) =>
    if String.eqb (Route.Receiver r) "" then Ok tt
    else if decide (Route.Receiver r ∈ receivers) then Ok tt
    else Err (UndefinedReceiver (Route.Receiver r))
  | stop => stop
  end.

(** The checks on the root route at the end of [Config.UnmarshalYAML]. *)
Definition check_root (route : option Route.t) : result Route.t :=
  match route with
  | None => Err NoRoutesProvided
  | Some r =>
    if (String.length (Route.Receiver r) =? 0)%nat then Err RootWithoutReceiver
    else if (0 <? size (Route.Match r))%nat || (0 <? size (Route.MatchRE r))%nat
    then Err RootWithMatchers
    else Ok r
  end.

(** A route tree by value: the pointers to the child routes followed.  It
    is taken of a tree on which [checkReceiver] has returned nil, which has
    no nil child (lemma [checked_values]). *)
Fixpoint values (r : Route.t) : config.Route.t := {|
  config.Route.Receiver := Route.Receiver r;
  config.Route.GroupByStr := Route.GroupByStr r;
  config.Route.GroupBy := Route.GroupBy r;
  config.Route.GroupByAll := Route.GroupByAll r;
  config.Route.Match := Route.Match r;
  config.Route.MatchRE := Route.MatchRE r;
  config.Route.Continue := Route.Continue r;
  config.Route.Routes :=
    (fix go (ps : list (option Route.t)) : list config.Route.t :=
       match ps with
       | [] => []
       | Some sr :: ps' => values sr :: go ps'
       | None :: ps' => go ps'
       end) (Route.Routes r);
  config.Route.GroupWait := Route.GroupWait r;
  config.Route.GroupInterval := Route.GroupInterval r;
  config.Route.RepeatInterval := Route.RepeatInterval r
|}.

(** [func (c *Config) UnmarshalYAML].  When it returns nil every receiver,
    every channel configuration and every route has been read through its
    pointer, and the configuration is returned by value. *)
Definition Config_UnmarshalYAML (y : ConfigYAML.t) : MP config.Config.t :=
  c ← call (lift (unmarshal_plain y));
  g ← call (match Config.Global c with
            | Some g => mret g
            | None => DefaultGlobalConfig
            end);
  out ← default_receivers g (Config.Receivers c) ∅;
  r ← call (lift (check_root (Config.Route c)));
  _ ← pure (checkReceiver r out.2);
  mret {|
    config.Config.Global := Some g;
    config.Config.Route := Some (values r);
    config.Config.InhibitRules := Config.InhibitRules c;
    config.Config.Receivers := out.1;
    config.Config.Templates := Config.Templates c;
    config.Config.original := Config.original c
  |}.

End Hooks.
End ptr.

Section Loading.
Context {RL : RegexpLib}.

(** *** From values to pointers and back *)

(** The structs by value as structs with pointers: no entry is nil. *)
Fixpoint ref_routeY (y : RouteYAML.t) : ptr.RouteYAML.t := {|
  ptr.RouteYAML.Receiver := RouteYAML.Receiver y;
  ptr.RouteYAML.GroupByStr := RouteYAML.GroupByStr y;
  ptr.RouteYAML.Match := RouteYAML.Match y;
  ptr.RouteYAML.MatchRE := RouteYAML.MatchRE y;
  ptr.RouteYAML.Continue := RouteYAML.Continue y;
  ptr.RouteYAML.Routes := map (fun c => Some (ref_routeY c)) (RouteYAML.Routes y);
  ptr.RouteYAML.GroupWait := RouteYAML.GroupWait y;
  ptr.RouteYAML.GroupInterval := RouteYAML.GroupInterval y;
  ptr.RouteYAML.RepeatInterval := RouteYAML.RepeatInterval y
|}.

Fixpoint ref_route (r : Route.t) : ptr.Route.t := {|
  ptr.Route.Receiver := Route.Receiver r;
  ptr.Route.GroupByStr := Route.GroupByStr r;
  ptr.Route.GroupBy := Route.GroupBy r;
  ptr.Route.GroupByAll := Route.GroupByAll r;
  ptr.Route.Match := Route.Match r;
  ptr.Route.MatchRE := Route.MatchRE r;
  ptr.Route.Continue := Route.Continue r;
  ptr.Route.Routes := map (fun c => Some (ref_route c)) (Route.Routes r);
  ptr.Route.GroupWait := Route.GroupWait r;
  ptr.Route.GroupInterval := Route.GroupInterval r;
  ptr.Route.RepeatInterval := Route.RepeatInterval r
|}.

Definition ref_receiver (rcv : Receiver.t) : ptr.Receiver.t := {|
  ptr.Receiver.Name := Receiver.Name rcv;
  ptr.Receiver.EmailConfigs := map Some (Receiver.EmailConfigs rcv);
  ptr.Receiver.PagerdutyConfigs := map Some (Receiver.PagerdutyConfigs rcv);
  ptr.Receiver.SlackConfigs := map Some (Receiver.SlackConfigs rcv);
  ptr.Receiver.WebhookConfigs := map Some (Receiver.WebhookConfigs rcv);
  ptr.Receiver.OpsGenieConfigs := map Some (Receiver.OpsGenieConfigs rcv);
  ptr.Receiver.WechatConfigs := map Some (Receiver.WechatConfigs rcv);
  ptr.Receiver.PushoverConfigs := map Some (Receiver.PushoverConfigs rcv);
  ptr.Receiver.VictorOpsConfigs := map Some (Receiver.VictorOpsConfigs rcv)
|}.

Definition ref_document (y : ConfigYAML.t) : ptr.ConfigYAML.t := {|
  ptr.ConfigYAML.Global := ConfigYAML.Global y;
  ptr.ConfigYAML.Route := option_map ref_routeY (ConfigYAML.Route y);
  ptr.ConfigYAML.InhibitRules := ConfigYAML.InhibitRules y;
  ptr.ConfigYAML.Receivers :=
    map (fun rcv => Some (ref_receiver rcv)) (ConfigYAML.Receivers y);
  ptr.ConfigYAML.Templates := ConfigYAML.Templates y
|}.

Definition ref_config (c : Config.t) : ptr.Config.t := {|
  ptr.Config.Global := Config.Global c;
  ptr.Config.Route := option_map ref_route (Config.Route c);
  ptr.Config.InhibitRules := Config.InhibitRules c;
  ptr.Config.Receivers := map (fun rcv => Some (ref_receiver rcv)) (Config.Receivers c);
  ptr.Config.Templates := Config.Templates c;
  ptr.Config.original := Config.original c
|}.

(** The entries of a document that are not nil, by value. *)
Fixpoint deref_routeY (y : ptr.RouteYAML.t) : RouteYAML.t := {|
  RouteYAML.Receiver := ptr.RouteYAML.Receiver y;
  RouteYAML.GroupByStr := ptr.RouteYAML.GroupByStr y;
  RouteYAML.Match := ptr.RouteYAML.Match y;
  RouteYAML.MatchRE := ptr.RouteYAML.MatchRE y;
  RouteYAML.Continue := ptr.RouteYAML.Continue y;
  RouteYAML.Routes :=
    (fix go (ps : list (option ptr.RouteYAML.t)) : list RouteYAML.t :=
       match ps with
       | [] => []
       | Some c :: ps' => deref_routeY c :: go ps'
       | None :: ps' => go ps'
       end) (ptr.RouteYAML.Routes y);
  RouteYAML.GroupWait := ptr.RouteYAML.GroupWait y;
  RouteYAML.GroupInterval := ptr.RouteYAML.GroupInterval y;
  RouteYAML.RepeatInterval := ptr.RouteYAML.RepeatInterval y
|}.

Definition deref_receiver (rcv : ptr.Receiver.t) : Receiver.t := {|
  Receiver.Name := ptr.Receiver.Name rcv;
  Receiver.EmailConfigs := omap id (ptr.Receiver.EmailConfigs rcv);
  Receiver.PagerdutyConfigs := omap id (ptr.Receiver.PagerdutyConfigs rcv);
  Receiver.SlackConfigs := omap id (ptr.Receiver.SlackConfigs rcv);
  Receiver.WebhookConfigs := omap id (ptr.Receiver.WebhookConfigs rcv);
  Receiver.OpsGenieConfigs := omap id (ptr.Receiver.OpsGenieConfigs rcv);
  Receiver.WechatConfigs := omap id (ptr.Receiver.WechatConfigs rcv);
  Receiver.PushoverConfigs := omap id (ptr.Receiver.PushoverConfigs rcv);
  Receiver.VictorOpsConfigs := omap id (ptr.Receiver.VictorOpsConfigs rcv)
|}.

Definition deref_document (d : ptr.ConfigYAML.t) : ConfigYAML.t := {|
  ConfigYAML.Global := ptr.ConfigYAML.Global d;
  ConfigYAML.Route := option_map deref_routeY (ptr.ConfigYAML.Route d);
  ConfigYAML.InhibitRules := ptr.ConfigYAML.InhibitRules d;
  ConfigYAML.Receivers := deref_receiver <$> omap id (ptr.ConfigYAML.Receivers d);
  ConfigYAML.Templates := ptr.ConfigYAML.Templates d
|}.

Definition deref_config (c : ptr.Config.t) : Config.t := {|
  Config.Global := ptr.Config.Global c;
  Config.Route := option_map ptr.values (ptr.Config.Route c);
  Config.InhibitRules := ptr.Config.InhibitRules c;
  Config.Receivers := deref_receiver <$> omap id (ptr.Config.Receivers c);
  Config.Templates := ptr.Config.Templates c;
  Config.original := ptr.Config.original c
|}.

(** *** [Load] *)

(** What [yaml.UnmarshalStrict] makes of the text, up to the hooks of
    [Route], [InhibitRule], [Receiver] and [Config], which the model runs on
    the result.  The decoder stops with an error: yaml's own, for a text
    that is not well-formed or not of the right shape, or the error that the
    hook of a scalar has returned ([Regexp], [URL], [Secret], [HostPort]);
    or it finds nothing at all (the hook of [Config] does not run then); or
    it has a document, together with the URL objects decoding has made. *)
Inductive decoded :=
| Malformed (e : error)
| EmptyInput
| Parsed (d : ptr.ConfigYAML.t) (h : heap).

(** A document none of whose lists has a null entry. *)
Definition Document (y : ConfigYAML.t) (h : heap) : decoded :=
  Parsed (ref_document y) h.

(** [func Load(s string)], with the result of decoding [s].  An error of
    the decoder is returned as it is.  A configuration is returned together
    with the store its pointers refer to. *)
Definition Load (s : string) (input : decoded) : run (Config.t * heap) :=
  match input with
  | Malformed e => Err e
  | EmptyInput => Err NoRouteInConfig
  | Parsed d h =>
    match ptr.Config_UnmarshalYAML d h with
    | Panic => Panic
    | Done (Err e) => Err e
    | Done (Ok (cfg, h')) =>
      match Config.Route cfg with
      | None => Err NoRouteInConfig
      | Some r =>
        if Route.Continue r then Err ContinueInRootRoute
        else Ok ({|
          Config.Global := Config.Global cfg;
          Config.Route := Config.Route cfg;
          Config.InhibitRules := Config.InhibitRules cfg;
          Config.Receivers := Config.Receivers cfg;
          Config.Templates := Config.Templates cfg;
          Config.original := s
        |}, h')
      end
    end
  end.

End Loading.

(** *** Secrets and URLs *)
Section Secrets.
Context {U : URLLib} {J : JSONLib}.

(** [secretTokenJSON], set in [init]. *)
Definition secretTokenJSON : string := json_Marshal secretToken.

(** A marshaler returns a value or nil; [None] is nil. *)
Definition Secret_MarshalYAML (s : Secret) : option string :=
  if negb (String.eqb s "") then Some secretToken else None.

Definition Secret_UnmarshalYAML (node : option string) : result Secret :=
  match node with
  | Some s => Ok s
  | None => Err NotAString
  end.

Definition Secret_MarshalJSON (s : Secret) : string := json_Marshal secretToken.

(** [URL]: a struct holding a pointer to a [url.URL]; [None] is the nil
    pointer. *)
Definition URL := option url_URL.

Definition parseURL (s : string) : result url_URL :=
  match url_Parse s with
  | None => Err (URLParseError s)
  | Some u =>
    if negb (String.eqb (Scheme u) "http") && negb (String.eqb (Scheme u) "https")
    then Err (UnsupportedScheme (Scheme u))
    else if String.eqb (Host u) "" then Err MissingHost
    else Ok u
  end.

(** [func (u *URL) UnmarshalYAML]; [node] is what decoding the node into a
    string gives. *)
Definition URL_UnmarshalYAML (node : option string) : result URL :=
  match node with
  | None => Err NotAString
  | Some s =>
    match parseURL s with
    | Err e => Err e
    | Ok u => Ok (Some u)
    end
  end.

Definition URL_UnmarshalJSON (data : string) : result URL :=
  match json_Unmarshal data with
  | None => Err JSONError
  | Some s =>
    match parseURL s with
    | Err e => Err e
    | Ok u => Ok (Some u)
    end
  end.

(** [type SecretURL URL]. *)
Definition SecretURL := URL.

Definition SecretURL_MarshalYAML (s : SecretURL) : option string :=
  match s with
  | Some _ => Some secretToken
  | None => None
  end.

Definition SecretURL_UnmarshalYAML (node : option string) : result SecretURL :=
  match node with
  | None => Err NotAString
  | Some str =>
    if String.eqb str secretToken then Ok (Some empty_URL)
    else URL_UnmarshalYAML node
  end.

Definition SecretURL_MarshalJSON (s : SecretURL) : string := json_Marshal secretToken.

Definition SecretURL_UnmarshalJSON (data : string) : result SecretURL :=
  if String.eqb data secretToken || String.eqb data secretTokenJSON
  then Ok (Some empty_URL)
  else URL_UnmarshalJSON data.

End Secrets.

(** *** Executable instances of the two libraries

    [url.Parse] for addresses of the form [scheme://host/path] (a text
    without [://] is a path); [json.Marshal] of a string with Go's escapes
    of the quote, the backslash and the HTML characters. *)
Module toy.

Fixpoint split_scheme (s acc : string) : option (string * string) :=
  match s with
  | EmptyString => None
  | String ":" (String "/" (String "/" rest)) => Some (acc, rest)
  | String c s' => split_scheme s' (acc +:+ String c "")
  end.

Fixpoint split_host (s acc : string) : string * string :=
  match s with
  | EmptyString => (acc, "")
  | String c s' =>
    if Ascii.eqb c "/" then (acc, s) else split_host s' (acc +:+ String c "")
  end.

Definition parse_url (s : string) : option url_URL :=
  match split_scheme s "" with
  | Some (scheme, rest) =>
    let hp := split_host rest "" in
    Some {| Scheme := scheme; Host := hp.1; Path := hp.2 |}
  | None => Some {| Scheme := ""; Host := ""; Path := s |}
  end.

Definition quote_char : ascii := ascii_of_nat 34.
Definition backslash_char : ascii := ascii_of_nat 92.
Definition quote : string := String quote_char EmptyString.
Definition backslash : string := String backslash_char EmptyString.

Fixpoint escape (s : string) : string :=
  match s with
  | EmptyString => EmptyString
  | String c s' =>
    (if Ascii.eqb c quote_char then backslash +:+ quote
     else if Ascii.eqb c backslash_char then backslash +:+ backslash
     else if Ascii.eqb c "<" then backslash +:+ "u003c"
     else if Ascii.eqb c ">" then backslash +:+ "u003e"
     else if Ascii.eqb c "&" then backslash +:+ "u0026"
     else String c EmptyString) +:+ escape s'
  end.

Definition marshal (s : string) : string := quote +:+ escape s +:+ quote.

Definition unicode_escape (a b c d : ascii) : option ascii :=
  let code := String a (String b (String c (String d EmptyString))) in
  if String.eqb code "003c" then Some "<"%char
  else if String.eqb code "003e" then Some ">"%char
  else if String.eqb code "0026" then Some "&"%char
  else None.

Fixpoint unescape (s : string) : option string :=
  match s with
  | EmptyString => Some EmptyString
  | String c s' =>
    if Ascii.eqb c backslash_char then
      match s' with
      | String e s'' =>
        if Ascii.eqb e quote_char || Ascii.eqb e backslash_char
        then String e <$> unescape s''
        else if Ascii.eqb e "u" then
          match s'' with
          | String a (String b (String c' (String d rest))) =>
            match unicode_escape a b c' d with
            | Some x => String x <$> unescape rest
            | None => None
            end
          | _ => None
          end
        else None
      | EmptyString => None
      end
    else if Ascii.eqb c quote_char then None
    else String c <$> unescape s'
  end.

Definition unmarshal (data : string) : option string :=
  match data with
  | String q body =>
    let n := String.length body in
    if Ascii.eqb q quote_char && (1 <=? n)%nat
       && String.eqb (substring (n - 1) 1 body) quote
    then unescape (substring 0 (n - 1) body)
    else None
  | EmptyString => None
  end.

End toy.

Definition toyURL : URLLib := {| url_Parse := toy.parse_url |}.

Definition toyJSON : JSONLib := {|
  json_Marshal := toy.marshal;
  json_Unmarshal := toy.unmarshal
|}.

(** *** More marshalers, [URL.Copy] and [LoadFile] *)

(** [net.SplitHostPort] and [path/filepath], as far as the package calls
    them. *)
Class NetLib := { net_SplitHostPort : string -> option (string * string) }.

Class FilepathLib := {
  filepath_IsAbs : string -> bool;
  filepath_Join : string -> string -> string;
  filepath_Dir : string -> string
}.

(** [func (u *url.URL) String], on the fields of [url_URL]. *)
Class URLStringLib := { url_String : url_URL -> string }.

(** The errors of [LoadFile]. *)
Inductive file_error :=
| ReadFileError                       (* ioutil.ReadFile failed *)
| LoadError (e : error).

(** A call that returns an error of type [E] or a value, or panics. *)
Inductive returns (E A : Type) :=
| Returned (r : E + A)
| Panicked.
Arguments Returned {E A} r.
Arguments Panicked {E A}.
Coercion Returned : sum >-> returns.

Section Marshalers.
Context {RL : RegexpLib} {J : JSONLib} {N : NetLib} {F : FilepathLib}
        {US : URLStringLib}.

(** [func (u URL) MarshalYAML]; [None] is nil. *)
Definition URL_MarshalYAML (u : URL) : option string :=
  match u with
  | Some v => Some (url_String v)
  | None => None
  end.

(** [func (u URL) MarshalJSON]. *)
Definition URL_MarshalJSON (u : URL) : option string :=
  match u with
  | Some v => Some (json_Marshal (url_String v))
  | None => None
  end.

(** [func (re Regexp) MarshalYAML]; [None] is nil. *)
Definition Regexp_MarshalYAML (re : Regexp_.t) : option string :=
  if negb (String.eqb (Regexp_.original re) "") then Some (Regexp_.original re)
  else None.

(** [func (re *Regexp) UnmarshalJSON]. *)
Definition Regexp_UnmarshalJSON (data : string) : result Regexp_.t :=
  match json_Unmarshal data with
  | None => Err JSONError
  | Some s =>
    match Compile ("^(?:" +:+ s +:+ ")$") with
    | None => Err (RegexpError ("^(?:" +:+ s +:+ ")$"))
    | Some regex => Ok {| Regexp_.compiled := Some regex; Regexp_.original := s |}
    end
  end.

(** [func (re Regexp) MarshalJSON]. *)
Definition Regexp_MarshalJSON (re : Regexp_.t) : option string :=
  if negb (String.eqb (Regexp_.original re) "") then
    Some (json_Marshal (Regexp_.original re))
  else None.

(** [func (hp *HostPort) UnmarshalYAML]: [hp] is the receiver as it is when
    the decoder calls the method; an empty text leaves it as it is.  On an
    error the decode is given up, so the model returns no value then. *)
Definition HostPort_UnmarshalYAML (node : option string) (hp : HostPort)
  : hostport_error + HostPort :=
  match node with
  | None => inl HostPortNotAString
  | Some s =>
    if String.eqb s "" then inr hp
    else
      match net_SplitHostPort s with
      | None => inl (SplitHostPortError s)
      | Some (host, port) =>
        if String.eqb port "" then inl (PortCannotBeEmpty s)
        else inr {| hp_Host := host; hp_Port := port |}
      end
  end.

(** [func (hp *HostPort) UnmarshalJSON]. *)
Definition HostPort_UnmarshalJSON (data : string) (hp : HostPort)
  : hostport_error + HostPort :=
  match json_Unmarshal data with
  | None => inl HostPortNotAString
  | Some s =>
    if String.eqb s "" then inr hp
    else
      match net_SplitHostPort s with
      | None => inl (SplitHostPortError s)
      | Some (host, port) =>
        if String.eqb port "" then inl (PortCannotBeEmpty s)
        else inr {| hp_Host := host; hp_Port := port |}
      end
  end.

Definition HostPort_MarshalYAML (hp : HostPort) : string := HostPort_String hp.

Definition HostPort_MarshalJSON (hp : HostPort) : string :=
  json_Marshal (HostPort_String hp).

(** [func (u *URL) Copy]: a new object with the value of the old one. *)
Definition URL_Copy (u : loc) : M loc :=
  v ← load u;
  alloc v.

(** The closure [join] of [resolveFilepaths]. *)
Definition join (baseDir fp : string) : string :=
  if (0 <? String.length fp)%nat && negb (filepath_IsAbs fp)
  then filepath_Join baseDir fp
  else fp.

(** [func resolveFilepaths]: the loop writes [cfg.Templates] in place. *)
Definition resolveFilepaths (baseDir : string) (cfg : Config.t) : Config.t := {|
  Config.Global := Config.Global cfg;
  Config.Route := Config.Route cfg;
  Config.InhibitRules := Config.InhibitRules cfg;
  Config.Receivers := Config.Receivers cfg;
  Config.Templates := map (join baseDir) (Config.Templates cfg);
  Config.original := Config.original cfg
|}.

(** [func LoadFile]: [file] is what [ioutil.ReadFile] finds under the name
    ([None]: an error), [decode] is [yaml.UnmarshalStrict] on a text. *)
Definition LoadFile (filename : string) (file : option string)
    (decode : string -> decoded) : returns file_error (Config.t * heap) :=
  match file with
  | None => inl ReadFileError
  | Some content =>
    match Load content (decode content) with
    | Panic => Panicked
    | Done (Err e) => inl (LoadError e)
    | Done (Ok (cfg, h)) => inr (resolveFilepaths (filepath_Dir filename) cfg, h)
    end
  end.

End Marshalers.

(** [net.SplitHostPort] for the forms [host:port] and [[host]:port]: the
    port follows the last colon; a host with a colon has to stand in
    brackets. *)
Fixpoint toy_split_last (s : string) : option (string * string) :=
  match s with
  | EmptyString => None
  | String c s' =>
    match toy_split_last s' with
    | Some (a, b) => Some (String c a, b)
    | None => if Ascii.eqb c ":" then Some (EmptyString, s') else None
    end
  end.

Fixpoint toy_has (c : ascii) (s : string) : bool :=
  match s with
  | EmptyString => false
  | String d s' => Ascii.eqb c d || toy_has c s'
  end.

Definition toy_SplitHostPort (s : string) : option (string * string) :=
  match toy_split_last s with
  | None => None
  | Some (host, port) =>
    match host with
    | String "[" inner =>
      let n := String.length inner in
      if (1 <=? n)%nat && String.eqb (substring (n - 1) 1 inner) "]"
      then
        let bare := substring 0 (n - 1) inner in
        if toy_has "[" bare || toy_has "]" bare then None else Some (bare, port)
      else None
    | _ =>
      if toy_has ":" host || toy_has "[" host || toy_has "]" host then None
      else Some (host, port)
    end
  end.

Definition toyNet : NetLib := {| net_SplitHostPort := toy_SplitHostPort |}.

(** [URL.String] for the URLs that [toy.parse_url] makes. *)
Definition toyURLString : URLStringLib := {|
  url_String := fun u =>
    if String.eqb (Scheme u) "" then Path u
    else Scheme u +:+ "://" +:+ Host u +:+ Path u
|}.

(** [path/filepath] on slash-separated paths that are already clean. *)
Fixpoint toy_dir (s : string) : option string :=
  match s with
  | EmptyString => None
  | String c s' =>
    match toy_dir s' with
    | Some d => Some (String c d)
    | None => if Ascii.eqb c "/" then Some EmptyString else None
    end
  end.

Definition toyFilepath : FilepathLib := {|
  filepath_IsAbs := fun p => match p with String "/" _ => true | _ => false end;
  filepath_Join := fun a b =>
    if String.eqb a "" then b
    else if String.eqb b "" then a
    else if HasSuffix a "/" then a +:+ b else a +:+ "/" +:+ b;
  filepath_Dir := fun p =>
    match toy_dir p with
    | None => "."
    | Some EmptyString => "/"
    | Some d => d
    end
|}.

End config.

(** A returned value is read as a run outside the module as well. *)
Coercion config.Done : config.result >-> config.run.
Coercion config.Returned : sum >-> config.returns.

(** * Vocabulary of the statements *)

(** [Less] as a function of the fields it reads. *)
Definition key_lt (k1 k2 : string * string * bool) : bool :=
  if String.ltb k2.1.1 k1.1.1 then false
  else if String.ltb k1.1.1 k2.1.1 then true
  else if String.ltb k2.1.2 k1.1.2 then false
  else if String.ltb k1.1.2 k2.1.2 then true
  else negb k1.2 && k2.2.

(** Not greater: what [sort.IsSorted] asks of neighbours. *)
Definition key_le (k1 k2 : string * string * bool) : Prop := key_lt k2 k1 = false.

Section Vocabulary.
Context {RL : RegexpLib}.
Import config.

(** All nodes of a route tree, a node before its descendants. *)
Fixpoint nodesY (y : RouteYAML.t) : list RouteYAML.t :=
  y :: concat (map nodesY (RouteYAML.Routes y)).

Fixpoint nodes (r : Route.t) : list Route.t :=
  r :: concat (map nodes (Route.Routes r)).

(** What a successful run of the hook of one node says. *)
Record hooked (y : RouteYAML.t) (r : Route.t) : Prop := {
  hooked_routes : mapR Route_UnmarshalYAML (RouteYAML.Routes y) = Ok (Route.Routes r);
  hooked_match_re : MatchRegexps_UnmarshalYAML (RouteYAML.MatchRE y) = Ok tt;
  hooked_match : check_label_names (RouteYAML.Match y) = Ok tt;
  hooked_group_by :
    group_by_loop (RouteYAML.GroupByStr y) [] false = Ok (Route.GroupBy r, Route.GroupByAll r);
  hooked_wildcard : (0 <? length (Route.GroupBy r))%nat && Route.GroupByAll r = false;
  hooked_duplicates : check_duplicates (Route.GroupBy r) ∅ = Ok tt;
  hooked_group_interval : is_zero (RouteYAML.GroupInterval y) = false;
  hooked_repeat_interval : is_zero (RouteYAML.RepeatInterval y) = false;
  hooked_Receiver : Route.Receiver r = RouteYAML.Receiver y;
  hooked_GroupByStr : Route.GroupByStr r = RouteYAML.GroupByStr y;
  hooked_Match : Route.Match r = RouteYAML.Match y;
  hooked_MatchRE : Route.MatchRE r = RouteYAML.MatchRE y;
  hooked_Continue : Route.Continue r = RouteYAML.Continue y;
  hooked_GroupWait : Route.GroupWait r = RouteYAML.GroupWait y;
  hooked_GroupInterval : Route.GroupInterval r = RouteYAML.GroupInterval y;
  hooked_RepeatInterval : Route.RepeatInterval r = RouteYAML.RepeatInterval y
}.

(** A route node that names a receiver that is not declared. *)
Definition dangling (names : gset string) (receiver : string) : Prop :=
  receiver <> "" /\ receiver ∉ names.

Definition slash (h : heap) (l : loc) : Prop :=
  HasSuffix (Path (cells h l)) "/" = true.

(** Later states of the store keep the slashes that are there. *)
Definition keeps_slashes (h h' : heap) : Prop := forall l, slash h l -> slash h' l.



(** The part of [Config.UnmarshalYAML] that runs before [checkReceiver]. *)
Definition before_checkReceiver (y : ConfigYAML.t)
  : M (Config.t * GlobalConfig.t * (list Receiver.t * gset string) * Route.t) :=
  c ← lift (unmarshal_plain y);
  g ← match Config.Global c with
      | Some g => mret g
      | None => DefaultGlobalConfig
      end;
  out ← default_receivers g (Config.Receivers c) ∅;
  r ← lift (check_root (Config.Route c));
  mret (c, g, out, r).

Definition loaded (s : string) (c : Config.t) (g : GlobalConfig.t)
    (rcvs : list Receiver.t) : Config.t := {|
  Config.Global := Some g;
  Config.Route := Config.Route c;
  Config.InhibitRules := Config.InhibitRules c;
  Config.Receivers := rcvs;
  Config.Templates := Config.Templates c;
  Config.original := s
|}.

(** The names of the receivers the document declares. *)
Definition declared (y : ConfigYAML.t) : gset string :=
  list_to_set (Receiver.Name <$> ConfigYAML.Receivers y).



(** What [ensure_slash] leaves at the location it is given. *)
Definition with_slash (path : string) : string :=
  if HasSuffix path "/" then path else path +:+ "/".

(** The explicit label names of a [group_by] list. *)
Definition explicit_labels (ls : list string) : list string :=
  filter (fun l => l <> "...") ls.

(** [group_by] names the wildcard together with a label. *)
Definition wildcard_with_label (ls : list string) : Prop :=
  "..." ∈ ls /\ exists l, l ∈ ls /\ l <> "...".

(** [group_by] names the same label twice. *)
Definition label_twice (ls : list string) : Prop :=
  exists l l1 l2 l3, l <> "..." /\ ls = l1 ++ l :: l2 ++ l :: l3.

Definition lacks_smarthost (ec : EmailConfig.t) : bool :=
  String.eqb (HostPort_String (EmailConfig.Smarthost ec)) "".






End Vocabulary.

(** * Inputs on which the statements are run *)

(** A regular-expression matcher as a struct literal or a JSON decode leaves
    it: the compiled expression is nil. *)
Definition uninitialised : @types.Matcher toyRegexp :=
  {| types.Name := "severity"; types.Value := "crit.*";
     types.IsRegex := true; types.regex := None |}.

(** Three matchers on the label [job], out of order. *)
Definition job_matchers : list (@types.Matcher toyRegexp) :=
  [ {| types.Name := "job"; types.Value := "api"; types.IsRegex := true;
       types.regex := @Compile toyRegexp "^(?:api)$" |};
    types.NewMatcher "job" "api";
    types.NewMatcher "instance" "web" ].

(** A store as decoding leaves it: an OpsGenie URL written on a receiver
    (location 0) and the four URLs of the global block (locations 1 to 4).
    The global WeChat URL is written without a final slash. *)
Definition sample_heap : config.heap := {|
  config.cells := fun l =>
    match l with
    | 0 => {| config.Scheme := "https"; config.Host := "opsgenie.example.com";
              config.Path := "/v2" |}
    | 1 => {| config.Scheme := "https"; config.Host := "api.opsgenie.com";
              config.Path := "/" |}
    | 2 => {| config.Scheme := "https"; config.Host := "qyapi.weixin.qq.com";
              config.Path := "/cgi-bin" |}
    | 3 => {| config.Scheme := "https"; config.Host := "alert.victorops.com";
              config.Path := "/integrations/generic/20131114/alert/" |}
    | 4 => {| config.Scheme := "https"; config.Host := "events.pagerduty.com";
              config.Path := "/v2/enqueue" |}
    | _ => config.empty_URL
    end;
  config.next := 5
|}.

Definition no_host : config.HostPort := {| config.hp_Host := ""; config.hp_Port := "" |}.

(** A global block; [smarthost] is its [smtp_smarthost]. *)
Definition sample_global (smarthost : config.HostPort) : config.GlobalConfig.t := {|
  config.GlobalConfig.ResolveTimeout := 300000000000%Z;
  config.GlobalConfig.HTTPConfig := Some {| config.http_settings := [] |};
  config.GlobalConfig.SMTPFrom := "alertmanager@example.com";
  config.GlobalConfig.SMTPHello := "localhost";
  config.GlobalConfig.SMTPSmarthost := smarthost;
  config.GlobalConfig.SMTPAuthUsername := "";
  config.GlobalConfig.SMTPAuthPassword := "";
  config.GlobalConfig.SMTPAuthSecret := "";
  config.GlobalConfig.SMTPAuthIdentity := "";
  config.GlobalConfig.SMTPRequireTLS := true;
  config.GlobalConfig.SlackAPIURL := None;
  config.GlobalConfig.PagerdutyURL := Some 4;
  config.GlobalConfig.OpsGenieAPIURL := Some 1;
  config.GlobalConfig.OpsGenieAPIKey := "opsgenie-key";
  config.GlobalConfig.WeChatAPIURL := Some 2;
  config.GlobalConfig.WeChatAPISecret := "wechat-secret";
  config.GlobalConfig.WeChatAPICorpID := "corp";
  config.GlobalConfig.VictorOpsAPIURL := Some 3;
  config.GlobalConfig.VictorOpsAPIKey := "victorops-key"
|}.

Definition example_smarthost : config.HostPort :=
  {| config.hp_Host := "smtp.example.com"; config.hp_Port := "25" |}.

(** An email configuration that leaves every field to the global block. *)
Definition bare_email : config.EmailConfig.t := {|
  config.EmailConfig.Smarthost := no_host;
  config.EmailConfig.From := "";
  config.EmailConfig.Hello := "";
  config.EmailConfig.AuthUsername := "";
  config.EmailConfig.AuthPassword := "";
  config.EmailConfig.AuthSecret := "";
  config.EmailConfig.AuthIdentity := "";
  config.EmailConfig.RequireTLS := None
|}.

Definition mail_receiver : config.Receiver.t := {|
  config.Receiver.Name := "default";
  config.Receiver.EmailConfigs := [bare_email];
  config.Receiver.PagerdutyConfigs := [];
  config.Receiver.SlackConfigs := [];
  config.Receiver.WebhookConfigs := [];
  config.Receiver.OpsGenieConfigs := [];
  config.Receiver.WechatConfigs := [];
  config.Receiver.PushoverConfigs := [];
  config.Receiver.VictorOpsConfigs := []
|}.

(** A receiver with an OpsGenie configuration that has its own URL, one that
    has none, and a WeChat and a VictorOps configuration that have none. *)
Definition pager_receiver : config.Receiver.t := {|
  config.Receiver.Name := "pager";
  config.Receiver.EmailConfigs := [];
  config.Receiver.PagerdutyConfigs := [];
  config.Receiver.SlackConfigs := [];
  config.Receiver.WebhookConfigs := [];
  config.Receiver.OpsGenieConfigs :=
    [ {| config.OpsGenieConfig.HTTPConfig := None;
         config.OpsGenieConfig.APIURL := Some 0;
         config.OpsGenieConfig.APIKey := "own-key" |};
      {| config.OpsGenieConfig.HTTPConfig := None;
         config.OpsGenieConfig.APIURL := None;
         config.OpsGenieConfig.APIKey := "" |} ];
  config.Receiver.WechatConfigs :=
    [ {| config.WechatConfig.HTTPConfig := None;
         config.WechatConfig.APIURL := None;
         config.WechatConfig.APISecret := "";
         config.WechatConfig.CorpID := "" |} ];
  config.Receiver.PushoverConfigs := [];
  config.Receiver.VictorOpsConfigs :=
    [ {| config.VictorOpsConfig.HTTPConfig := None;
         config.VictorOpsConfig.APIURL := None;
         config.VictorOpsConfig.APIKey := "" |} ]
|}.

(** A route node of a document. *)
Definition route_node (receiver : string) (group_by : list string)
    (matchers : gmap string string) (group_wait group_interval : option Z)
    (routes : list (@config.RouteYAML.t toyRegexp)) : @config.RouteYAML.t toyRegexp :=
  {| config.RouteYAML.Receiver := receiver;
     config.RouteYAML.GroupByStr := group_by;
     config.RouteYAML.Match := matchers;
     config.RouteYAML.MatchRE := ∅;
     config.RouteYAML.Continue := false;
     config.RouteYAML.Routes := routes;
     config.RouteYAML.GroupWait := group_wait;
     config.RouteYAML.GroupInterval := group_interval;
     config.RouteYAML.RepeatInterval := None |}.

(** The root route sends to [default] and groups by every label; its child
    sends critical alerts to [receiver], grouped by [group_by]. *)
Definition sample_route (receiver : string) (group_by : list string)
    (group_wait group_interval : option Z) : @config.RouteYAML.t toyRegexp :=
  route_node "default" ["..."] ∅ None None
    [ route_node receiver group_by {[ "severity" := "critical" ]}
        group_wait group_interval [] ].

Definition sample_document (smarthost : config.HostPort)
    (route : @config.RouteYAML.t toyRegexp) : @config.ConfigYAML.t toyRegexp := {|
  config.ConfigYAML.Global := Some (sample_global smarthost);
  config.ConfigYAML.Route := Some route;
  config.ConfigYAML.InhibitRules := [];
  config.ConfigYAML.Receivers := [mail_receiver; pager_receiver];
  config.ConfigYAML.Templates := []
|}.

(** A document that loads; its child route has a [group_wait] of zero. *)
Definition good_document : @config.ConfigYAML.t toyRegexp :=
  sample_document example_smarthost
    (sample_route "pager" ["alertname"; "cluster"] (Some 0%Z) (Some 300000000000%Z)).

(** The child route names a receiver that is not declared. *)
Definition ghost_document : @config.ConfigYAML.t toyRegexp :=
  sample_document example_smarthost
    (sample_route "ghost" ["alertname"] None None).

(** The child route has a [group_interval] of zero. *)
Definition zero_interval_document : @config.ConfigYAML.t toyRegexp :=
  sample_document example_smarthost
    (sample_route "pager" ["alertname"] None (Some 0%Z)).

(** The child route groups by the wildcard and a label. *)
Definition mixed_group_by_document : @config.ConfigYAML.t toyRegexp :=
  sample_document example_smarthost
    (sample_route "pager" ["..."; "service"] None None).

(** The child route groups by the same label twice. *)
Definition twice_group_by_document : @config.ConfigYAML.t toyRegexp :=
  sample_document example_smarthost
    (sample_route "pager" ["service"; "service"] None None).


(** A route node of a document whose lists can have null entries. *)
Definition pointer_node (receiver : string) (matchers : gmap string string)
    (routes : list (option (@config.ptr.RouteYAML.t toyRegexp)))
  : @config.ptr.RouteYAML.t toyRegexp :=
  {| config.ptr.RouteYAML.Receiver := receiver;
     config.ptr.RouteYAML.GroupByStr := [];
     config.ptr.RouteYAML.Match := matchers;
     config.ptr.RouteYAML.MatchRE := ∅;
     config.ptr.RouteYAML.Continue := false;
     config.ptr.RouteYAML.Routes := routes;
     config.ptr.RouteYAML.GroupWait := None;
     config.ptr.RouteYAML.GroupInterval := None;
     config.ptr.RouteYAML.RepeatInterval := None |}.

Definition pointer_document (route : @config.ptr.RouteYAML.t toyRegexp)
    (receivers : list (option config.ptr.Receiver.t))
  : @config.ptr.ConfigYAML.t toyRegexp := {|
  config.ptr.ConfigYAML.Global := Some (sample_global example_smarthost);
  config.ptr.ConfigYAML.Route := Some route;
  config.ptr.ConfigYAML.InhibitRules := [];
  config.ptr.ConfigYAML.Receivers := receivers;
  config.ptr.ConfigYAML.Templates := []
|}.

(** [receivers: [{name: default, ...}, null]], under a root route that has
    a matcher. *)
Definition null_receiver_document : @config.ptr.ConfigYAML.t toyRegexp :=
  pointer_document (pointer_node "default" {[ "severity" := "critical" ]} [])
    [Some (config.ref_receiver mail_receiver); None].




(** [routes: [null, {receiver: ghost}]] under the root route; no receiver
    [ghost] is declared. *)
Definition null_route_document : @config.ptr.ConfigYAML.t toyRegexp :=
  pointer_document
    (pointer_node "default" ∅ [None; Some (pointer_node "ghost" ∅ [])])
    [Some (config.ref_receiver mail_receiver)].

(** [receivers: [{name: default, ...}, {name: default, ...}, null]]: the
    name is there twice before the null entry. *)
Definition twice_then_null_document : @config.ptr.ConfigYAML.t toyRegexp :=
  pointer_document (pointer_node "default" ∅ [])
    [Some (config.ref_receiver mail_receiver); Some (config.ref_receiver mail_receiver);
     None].

(** * Properties *)

(** ** The order on strings

    Go compares strings byte by byte; [String.ltb] does the same. *)

Lemma ascii_compare_refl c : Ascii.compare c c = Eq.
Proof. unfold Ascii.compare. apply N.compare_refl. Qed.

Lemma ascii_compare_lt_trans a b c :
  Ascii.compare a b = Lt -> Ascii.compare b c = Lt -> Ascii.compare a c = Lt.
Proof. unfold Ascii.compare. rewrite !N.compare_lt_iff. lia. Qed.

Lemma string_compare_refl s : String.compare s s = Eq.
Proof. induction s as [|c s IH]; simpl; [done|]. by rewrite ascii_compare_refl. Qed.

Lemma string_compare_lt_trans a b c :
  String.compare a b = Lt -> String.compare b c = Lt -> String.compare a c = Lt.
Proof.
  revert b c. induction a as [|x a IH]; intros [|y b] [|z c]; simpl; try done.
  destruct (Ascii.compare x y) eqn:Hxy; try done.
  - apply Ascii.compare_eq_iff in Hxy as ->.
    destruct (Ascii.compare y z) eqn:Hyz; try done. apply IH.
  - destruct (Ascii.compare y z) eqn:Hyz; try done.
    + apply Ascii.compare_eq_iff in Hyz as ->. by rewrite Hxy.
    + by rewrite (ascii_compare_lt_trans _ _ _ Hxy Hyz).
Qed.

Lemma ltb_irrefl s : String.ltb s s = false.
Proof. unfold String.ltb. by rewrite string_compare_refl. Qed.

Lemma ltb_trans a b c : String.ltb a b = true -> String.ltb b c = true -> String.ltb a c = true.
Proof.
  unfold String.ltb. intros Hab Hbc.
  destruct (String.compare a b) eqn:H1; try done.
  destruct (String.compare b c) eqn:H2; try done.
  by rewrite (string_compare_lt_trans _ _ _ H1 H2).
Qed.

Lemma ltb_total a b : String.ltb a b = false -> String.ltb b a = false -> a = b.
Proof.
  unfold String.ltb. rewrite (String.compare_antisym a b).
  destruct (String.compare b a) eqn:H; simpl; try done.
  intros _ _. symmetry. by apply String.compare_eq_iff.
Qed.

Lemma ltb_asym a b : String.ltb a b = true -> String.ltb b a = false.
Proof.
  unfold String.ltb. rewrite (String.compare_antisym a b).
  by destruct (String.compare b a).
Qed.

Lemma key_lt_spec n1 v1 r1 n2 v2 r2 :
  key_lt (n1, v1, r1) (n2, v2, r2) = true <->
  String.ltb n1 n2 = true \/
  (n1 = n2 /\ (String.ltb v1 v2 = true \/ (v1 = v2 /\ r1 = false /\ r2 = true))).
Proof.
  unfold key_lt; simpl.
  destruct (String.ltb n2 n1) eqn:Hn21.
  { split; [done|]. intros [H|[-> _]].
    - apply ltb_asym in H. congruence.
    - rewrite ltb_irrefl in Hn21. done. }
  destruct (String.ltb n1 n2) eqn:Hn12; [tauto|].
  pose proof (ltb_total _ _ Hn12 Hn21) as ->.
  destruct (String.ltb v2 v1) eqn:Hv21.
  { split; [done|]. intros [H|[_ [H|[-> _]]]]; [done| |].
    - apply ltb_asym in H. congruence.
    - rewrite ltb_irrefl in Hv21. done. }
  destruct (String.ltb v1 v2) eqn:Hv12; [tauto|].
  pose proof (ltb_total _ _ Hv12 Hv21) as ->.
  destruct r1, r2; simpl; intuition congruence.
Qed.

Lemma key_lt_irrefl k : key_lt k k = false.
Proof.
  destruct k as [[n v] r]. unfold key_lt; simpl.
  rewrite !ltb_irrefl. by destruct r.
Qed.

Lemma key_lt_trans a b c : key_lt a b = true -> key_lt b c = true -> key_lt a c = true.
Proof.
  destruct a as [[n1 v1] r1], b as [[n2 v2] r2], c as [[n3 v3] r3].
  rewrite !key_lt_spec.
  intros [H1|[-> H1]] [H2|[-> H2]]; eauto using ltb_trans.
  right; split; [done|].
  destruct H1 as [H1|[-> H1]], H2 as [H2|[-> H2]]; eauto using ltb_trans.
  intuition congruence.
Qed.

Lemma key_lt_total a b : key_lt a b = false -> key_lt b a = false -> a = b.
Proof.
  destruct a as [[n1 v1] r1], b as [[n2 v2] r2]. unfold key_lt; simpl.
  destruct (String.ltb n2 n1) eqn:Hn21.
  { rewrite (ltb_asym _ _ Hn21). done. }
  destruct (String.ltb n1 n2) eqn:Hn12; [done|].
  pose proof (ltb_total _ _ Hn12 Hn21) as ->.
  destruct (String.ltb v2 v1) eqn:Hv21.
  { rewrite (ltb_asym _ _ Hv21). done. }
  destruct (String.ltb v1 v2) eqn:Hv12; [done|].
  pose proof (ltb_total _ _ Hv12 Hv21) as ->.
  by destruct r1, r2.
Qed.

#[local] Instance key_le_trans : Transitive key_le.
Proof.
  intros a b c Hab Hbc. unfold key_le in *.
  destruct (key_lt c a) eqn:Hca; [|done].
  destruct (key_lt a b) eqn:Hab'.
  - by rewrite (key_lt_trans _ _ _ Hca Hab') in Hbc.
  - pose proof (key_lt_total _ _ Hab' Hab) as ->. congruence.
Qed.

#[local] Instance key_le_antisym : AntiSymm (=) key_le.
Proof. intros a b Hab Hba. by apply key_lt_total. Qed.

(** ** Sorting matchers *)

Section Order.
Context {RL : RegexpLib}.
Import types.

Lemma Less_key (a b : Matcher) : Less a b = key_lt (key a) (key b).
Proof. reflexivity. Qed.

Lemma IsSorted_Sorted (ms : list Matcher) :
  IsSorted ms = true <-> Sorted key_le (key <$> ms).
Proof.
  induction ms as [|a [|b ms] IH]; simpl.
  - split; [constructor|done].
  - split; [repeat constructor|done].
  - rewrite andb_true_iff, negb_true_iff, IH. split.
    + intros [Hab Hs]. constructor; [done|]. constructor. exact Hab.
    + intros Hs. inversion Hs as [|? ? Hs' Hhd]; subst.
      inversion Hhd; subst. done.
Qed.

Lemma sorted_keys_unique (l1 l2 : list Matcher) :
  IsSorted l1 = true -> IsSorted l2 = true -> l1 ≡ₚ l2 ->
  key <$> l1 = key <$> l2.
Proof.
  intros H1 H2 Hp. apply (Sorted_unique key_le).
  - by apply IsSorted_Sorted.
  - by apply IsSorted_Sorted.
  - by rewrite Hp.
Qed.

Lemma sorted_lookup_le (ms : list Matcher) i j a b :
  IsSorted ms = true -> (i < j)%nat -> ms !! i = Some a -> ms !! j = Some b ->
  Less b a = false.
Proof.
  rewrite IsSorted_Sorted. intros Hs%Sorted_StronglySorted; [|apply _].
  revert i j. induction ms as [|x ms IH]; intros i j Hij Hi Hj; [done|].
  rewrite fmap_cons in Hs. apply StronglySorted_cons in Hs as [Hall Hs].
  destruct j as [|j]; [lia|]. simpl in Hj.
  destruct i as [|i]; simpl in Hi.
  - injection Hi as ->. rewrite Forall_forall in Hall.
    apply (Hall (key b)). apply list_elem_of_fmap_2.
    eapply list_elem_of_lookup_2. exact Hj.
  - eapply (IH Hs i j); [lia|done|done].
Qed.

Lemma insert_perm x (l : list Matcher) : insert x l ≡ₚ x :: l.
Proof.
  induction l as [|y l IH]; simpl; [done|].
  destruct (Less x y); [done|]. rewrite IH. apply Permutation_swap.
Qed.

Lemma Less_asym (a b : Matcher) : Less a b = true -> Less b a = false.
Proof.
  rewrite !Less_key. intros H. destruct (key_lt (key b) (key a)) eqn:H'; [|done].
  pose proof (key_lt_trans _ _ _ H H') as Hc. by rewrite key_lt_irrefl in Hc.
Qed.

Lemma insert_sorted x (l : list Matcher) :
  IsSorted l = true -> IsSorted (insert x l) = true.
Proof.
  induction l as [|y l IH]; [done|]. intros Hs.
  cbn [insert]. destruct (Less x y) eqn:Hxy.
  - cbn [IsSorted]. rewrite (Less_asym _ _ Hxy). simpl. exact Hs.
  - destruct l as [|z l].
    + simpl. by rewrite Hxy.
    + cbn [IsSorted] in Hs. apply andb_true_iff in Hs as [Hzy Hs].
      specialize (IH Hs). cbn [insert] in *.
      destruct (Less x z); cbn [IsSorted] in *.
      * rewrite Hxy. simpl. exact IH.
      * rewrite Hzy. simpl. exact IH.
Qed.

Lemma insertion_fold_perm (ms acc : list Matcher) :
  fold_left (fun acc x => insert x acc) ms acc ≡ₚ acc ++ ms.
Proof.
  revert acc. induction ms as [|x ms IH]; intros acc; simpl.
  - by rewrite app_nil_r.
  - rewrite IH, insert_perm. simpl. first [apply Permutation_middle | symmetry; apply Permutation_middle].
Qed.

Lemma insertion_fold_sorted (ms acc : list Matcher) :
  IsSorted acc = true ->
  IsSorted (fold_left (fun acc x => insert x acc) ms acc) = true.
Proof.
  revert acc. induction ms as [|x ms IH]; intros acc Hs; simpl; [done|].
  apply IH. by apply insert_sorted.
Qed.

Definition insertion : MatchersSort := {|
  sort_Sort := insertionSort;
  sort_Sort_perm := fun ms => insertion_fold_perm ms [];
  sort_Sort_sorted := fun ms => insertion_fold_sorted ms [] eq_refl
|}.

Lemma IsSorted_tail (x : Matcher) (l : list Matcher) :
  IsSorted (x :: l) = true -> IsSorted l = true.
Proof. destruct l; [done|]. cbn [IsSorted]. by intros [_ ?]%andb_true_iff. Qed.

Lemma IsSorted_app_l (l1 l2 : list Matcher) :
  IsSorted (l1 ++ l2) = true -> IsSorted l1 = true.
Proof.
  induction l1 as [|x [|y l1] IH]; [done..|].
  cbn [app IsSorted] in *. intros [? ?]%andb_true_iff.
  apply andb_true_iff. split; [done|]. by apply IH.
Qed.

Lemma insert_last x (acc : list Matcher) :
  IsSorted (acc ++ [x]) = true -> insert x acc = acc ++ [x].
Proof.
  induction acc as [|y acc IH]; [done|]. intros Hs. cbn [insert app].
  rewrite (sorted_lookup_le ((y :: acc) ++ [x]) 0 (S (length acc)) y x); try done.
  - f_equal. apply IH. exact (IsSorted_tail _ _ Hs).
  - lia.
  - simpl. by rewrite lookup_app_r, Nat.sub_diag.
Qed.

Lemma insertion_fold_sorted_id (ms acc : list Matcher) :
  IsSorted (acc ++ ms) = true ->
  fold_left (fun acc x => insert x acc) ms acc = acc ++ ms.
Proof.
  revert acc. induction ms as [|x ms IH]; intros acc Hs; simpl.
  - by rewrite app_nil_r.
  - rewrite insert_last.
    + rewrite IH; rewrite <- app_assoc; done.
    + apply (IsSorted_app_l _ ms). by rewrite <- app_assoc.
Qed.

End Order.

Section MatcherFacts.
Context {RL : RegexpLib}.
Import types.

Lemma insertionSort_idempotent (ms : list Matcher) :
  insertionSort (insertionSort ms) = insertionSort ms.
Proof.
  unfold insertionSort at 1.
  apply (insertion_fold_sorted_id (insertionSort ms) []).
  apply (insertion_fold_sorted ms []). reflexivity.
Qed.

Lemma Less_spec (a b : Matcher) :
  Less a b = true <->
  String.ltb (Name a) (Name b) = true \/
  (Name a = Name b /\
   (String.ltb (Value a) (Value b) = true \/
    (Value a = Value b /\ IsRegex a = false /\ IsRegex b = true))).
Proof. rewrite Less_key. apply key_lt_spec. Qed.

Lemma Match_never_compiles (m : Matcher) lset : compiled_by (Match m lset) = [].
Proof. unfold Match. destruct (IsRegex m); [destruct (regex m)|]; reflexivity. Qed.

Lemma Validate_compiles (m : Matcher) :
  compiled_by (Validate m) =
    if LabelName_IsValid (Name m) && IsRegex m then [Value m] else [].
Proof.
  unfold Validate, regexp_Compile.
  destruct (LabelName_IsValid (Name m)); [|reflexivity]. simpl.
  destruct (IsRegex m); simpl.
  - destruct (Compile (Value m)); reflexivity.
  - destruct (negb (ValidString (Value m)) || (String.length (Value m) =? 0)%nat);
      reflexivity.
Qed.

Lemma Match_exact (m : Matcher) lset :
  IsRegex m = false ->
  Match m lset = (Returns (String.eqb (label lset (Name m)) (Value m)), []).
Proof. intros H. unfold Match. by rewrite H. Qed.

Lemma Match_regex (m : Matcher) re lset :
  IsRegex m = true -> regex m = Some re ->
  Match m lset = (Returns (MatchString re (label lset (Name m))), []).
Proof. intros H1 H2. unfold Match. by rewrite H1, H2. Qed.

Lemma Init_exact (m : Matcher) : IsRegex m = false -> Init m = (Returns m, []).
Proof. intros H. unfold Init. by rewrite H. Qed.

Lemma Init_regex (m : Matcher) :
  IsRegex m = true ->
  Init m =
  (match Compile (anchored (Value m)) with
   | Some re => Returns {| Name := Name m; Value := Value m; IsRegex := true;
                           regex := Some re |}
   | None => Fails (CompileError (anchored (Value m)))
   end, [anchored (Value m)]).
Proof.
  intros H. unfold Init, regexp_Compile. rewrite H. simpl.
  destruct (Compile (anchored (Value m))); reflexivity.
Qed.

End MatcherFacts.

(** ** Matchers: initialisation and matching *)

(** C1, the claim as stated, fails: [Validate] accepts the matcher
    [severity =~ "crit.*"] (compiling the value once, without anchors, and
    keeping nothing), and [Match] on that validated matcher dereferences the
    nil expression. *)
Lemma C1_validated_matcher_panics :
  types.Validate uninitialised = (types.Returns tt, ["crit.*"]) /\
  types.regex uninitialised = None /\
  types.result_of
    (types.Match uninitialised {[ "severity" := "critical" ]}) = types.Panics.
Proof. vm_compute. repeat split. Qed.

(** C1 (amended): the expression [Match] uses is compiled by [Init], once
    and anchored as [^(?:value)$], or is handed to [NewRegexMatcher];
    [Validate] compiles the bare value of a regular-expression matcher and
    keeps nothing; [Match] itself never calls [regexp.Compile]; and on a
    matcher that [Init] has returned without error, or that one of the two
    constructors built, [Match] returns a boolean (no nil dereference). *)
Theorem C1_Init_compiles_Match_does_not {RL : RegexpLib} :
  (forall (m : types.Matcher) lset, types.compiled_by (types.Match m lset) = []) /\
  (forall m : types.Matcher,
     types.compiled_by (types.Validate m) =
       if LabelName_IsValid (types.Name m) && types.IsRegex m
       then [types.Value m] else []) /\
  (forall m m' : types.Matcher,
     types.result_of (types.Init m) = types.Returns m' ->
     types.compiled_by (types.Init m) =
       (if types.IsRegex m then [types.anchored (types.Value m)] else []) /\
     types.Name m' = types.Name m /\
     types.Value m' = types.Value m /\
     types.IsRegex m' = types.IsRegex m /\
     (types.IsRegex m = true ->
      exists re, Compile (types.anchored (types.Value m)) = Some re /\
                 types.regex m' = Some re) /\
     forall lset, exists b,
       types.Match m' lset = (types.Returns b, [])) /\
  (forall name re lset, exists b,
     types.Match (types.NewRegexMatcher name re) lset = (types.Returns b, [])) /\
  (forall name value lset, exists b,
     types.Match (types.NewMatcher name value) lset = (types.Returns b, [])).
Proof.
  refine (conj Match_never_compiles (conj Validate_compiles (conj _ (conj _ _)))).
  - intros m m' Hinit. destruct (types.IsRegex m) eqn:Hre.
    + rewrite (Init_regex m Hre) in *. unfold types.result_of in Hinit. simpl in Hinit.
      destruct (Compile (types.anchored (types.Value m))) as [re|] eqn:Hc; [|done].
      injection Hinit as <-. simpl. repeat split; eauto.
    + rewrite (Init_exact m Hre) in *. unfold types.result_of in Hinit. simpl in Hinit.
      injection Hinit as <-. repeat split; try done.
      intros lset. rewrite (Match_exact m lset Hre). eauto.
  - intros name re lset. eexists. reflexivity.
  - intros name value lset. eexists. reflexivity.
Qed.

Lemma C1_Init_compiles_Match_does_not_witness :
  exists m' : @types.Matcher toyRegexp,
    types.result_of (types.Init uninitialised) = types.Returns m' /\
    types.compiled_by (types.Init uninitialised) = ["^(?:crit.*)$"] /\
    types.Match m' {[ "severity" := "critical" ]} = (types.Returns true, []).
Proof.
  eexists. split; [vm_compute; reflexivity|].
  pose proof (proj1 (proj2 (proj2 (@C1_Init_compiles_Match_does_not toyRegexp)))
                uninitialised _ eq_refl) as H.
  split; [exact (proj1 H)|]. vm_compute. reflexivity.
Defined.

(** C2, the claim as stated, fails for a matcher built by [NewRegexMatcher]
    from an expression that carries no anchors: its value is ["foo"], it
    matches the label value ["xfoox"], and the anchored pattern [^(?:foo)$]
    does not. *)
Lemma C2_unanchored_regex_matches_inside :
  exists re_foo re_anchored : @Regexp toyRegexp,
    @Compile toyRegexp "foo" = Some re_foo /\
    @Compile toyRegexp (types.anchored "foo") = Some re_anchored /\
    types.Value (types.NewRegexMatcher "job" re_foo) = "foo" /\
    types.IsRegex (types.NewRegexMatcher "job" re_foo) = true /\
    types.result_of
      (types.Match (types.NewRegexMatcher "job" re_foo) {[ "job" := "xfoox" ]})
      = types.Returns true /\
    @MatchString toyRegexp re_anchored "xfoox" = false.
Proof. do 2 eexists. vm_compute. repeat split. Qed.

(** C2 (amended): an exact matcher matches a label set iff the label's value
    (the empty string when the label is absent) equals the matcher's value;
    a regular-expression matcher that [Init] has initialised matches iff the
    expression compiled from [^(?:value)$] matches the label's value; a
    matcher built by [NewRegexMatcher] matches iff the expression it was
    given does, whatever anchors that expression has; the expressions
    [Regexp.UnmarshalYAML] compiles are anchored in the same way. *)
Theorem C2_Match_semantics {RL : RegexpLib} :
  (forall lset name, lset !! name = None -> types.label lset name = "") /\
  (forall (m : types.Matcher) lset,
     types.IsRegex m = false ->
     (types.result_of (types.Match m lset) = types.Returns true <->
      types.label lset (types.Name m) = types.Value m) /\
     (types.result_of (types.Match m lset) = types.Returns false <->
      types.label lset (types.Name m) <> types.Value m)) /\
  (forall (m m' : types.Matcher) lset,
     types.IsRegex m = true ->
     types.result_of (types.Init m) = types.Returns m' ->
     exists re,
       Compile ("^(?:" +:+ types.Value m +:+ ")$") = Some re /\
       types.result_of (types.Match m' lset) =
         types.Returns (MatchString re (types.label lset (types.Name m)))) /\
  (forall name re lset,
     types.Value (types.NewRegexMatcher name re) = Regexp_String re /\
     types.result_of (types.Match (types.NewRegexMatcher name re) lset) =
       types.Returns (MatchString re (types.label lset name))) /\
  (forall s r,
     config.Regexp_UnmarshalYAML (Some s) = config.Ok r ->
     exists re,
       Compile ("^(?:" +:+ s +:+ ")$") = Some re /\
       config.Regexp_.compiled r = Some re /\
       config.Regexp_.original r = s).
Proof.
  refine (conj _ (conj _ (conj _ (conj _ _)))).
  - intros lset name H. unfold types.label. by rewrite H.
  - intros m lset Hre. rewrite (Match_exact m lset Hre). unfold types.result_of. simpl.
    destruct (String.eqb_spec (types.label lset (types.Name m)) (types.Value m));
      split; split; congruence.
  - intros m m' lset Hre Hinit. rewrite (Init_regex m Hre) in Hinit.
    unfold types.result_of in Hinit. simpl in Hinit. fold (types.anchored (types.Value m)).
    destruct (Compile (types.anchored (types.Value m))) as [re|]; [|done].
    injection Hinit as <-. exists re. split; reflexivity.
  - intros name re lset. split; reflexivity.
  - intros s r H. unfold config.Regexp_UnmarshalYAML in H.
    destruct (Compile ("^(?:" +:+ s +:+ ")$")) as [re|]; [|done].
    injection H as <-. exists re. repeat split.
Qed.

Lemma C2_Match_semantics_witness :
  types.label (∅ : gmap string string) "job" = "" /\
  (types.result_of
     (types.Match (types.NewMatcher (RL := toyRegexp) "job" "api") {[ "job" := "api" ]})
     = types.Returns true <-> types.label {[ "job" := "api" ]} "job" = "api") /\
  (exists re : @Regexp toyRegexp,
     @Compile toyRegexp "^(?:crit.*)$" = Some re /\
     types.result_of
       (types.Match
          {| types.Name := "severity"; types.Value := "crit.*";
             types.IsRegex := true; types.regex := Some re |}
          {[ "severity" := "xcritical" ]})
     = types.Returns (@MatchString toyRegexp re "xcritical")).
Proof.
  pose proof (@C2_Match_semantics toyRegexp) as (H1 & H2 & H3 & _).
  split; [apply H1; reflexivity|]. split.
  - apply (H2 (types.NewMatcher "job" "api") {[ "job" := "api" ]} eq_refl).
  - destruct (H3 uninitialised
                {| types.Name := "severity"; types.Value := "crit.*";
                   types.IsRegex := true;
                   types.regex := @Compile toyRegexp "^(?:crit.*)$" |}
                {[ "severity" := "xcritical" ]} eq_refl eq_refl) as (re & Hc & Hm).
    exists re. split; [exact Hc|].
    vm_compute in Hc. injection Hc as <-. vm_compute. reflexivity.
Defined.

(** Anchoring wraps the value as text.  A value that closes the group
    itself, such as [a)|(?:b], compiles to an alternation of [^(?:a)] and
    [(?:b)$], which matches a text that merely starts with [a]. *)
Example anchors_can_be_escaped :
  exists m' : @types.Matcher toyRegexp,
    types.result_of
      (types.Init {| types.Name := "job"; types.Value := "a)|(?:b";
                     types.IsRegex := true; types.regex := None |})
      = types.Returns m' /\
    types.result_of (types.Match m' {[ "job" := "ax" ]}) = types.Returns true.
Proof. eexists. vm_compute. split; reflexivity. Qed.

(** ** The order of a matcher set *)

(** C4: [Less] orders matchers by name, then by value (both byte-wise
    lexicographic), and puts an exact matcher before a regular-expression
    matcher of the same name and value, also in what [NewMatchers] returns;
    and sorting what [NewMatchers] has returned once more gives the same
    order: the same sequence of (name, value, regex-ness).  This holds for
    every sort that keeps the promise of [sort.Sort]. *)
Theorem C4_order_and_idempotent_sort {RL : RegexpLib} {S : types.MatchersSort} :
  (forall a b : types.Matcher,
     types.Less a b = true <->
     String.ltb (types.Name a) (types.Name b) = true \/
     (types.Name a = types.Name b /\
      (String.ltb (types.Value a) (types.Value b) = true \/
       (types.Value a = types.Value b /\
        types.IsRegex a = false /\ types.IsRegex b = true)))) /\
  (forall a b : types.Matcher,
     types.Name a = types.Name b -> types.Value a = types.Value b ->
     types.IsRegex a = false -> types.IsRegex b = true ->
     types.Less a b = true /\ types.Less b a = false /\
     forall ms i j,
       types.NewMatchers ms !! i = Some a -> types.NewMatchers ms !! j = Some b ->
       (i < j)%nat) /\
  (forall ms, types.IsSorted (types.NewMatchers ms) = true /\
              types.NewMatchers ms ≡ₚ ms) /\
  (forall ms,
     types.key <$> types.NewMatchers (types.NewMatchers ms) =
     types.key <$> types.NewMatchers ms).
Proof.
  refine (conj Less_spec (conj _ (conj _ _))).
  - intros a b Hn Hv Ha Hb.
    assert (Hab : types.Less a b = true) by (apply Less_spec; tauto).
    split; [exact Hab|]. split; [by apply Less_asym|].
    intros ms i j Hi Hj.
    destruct (decide (i < j)%nat) as [|Hge]; [done|]. exfalso.
    destruct (decide (i = j)) as [->|Hne].
    + rewrite Hi in Hj. injection Hj as ->. congruence.
    + assert (Hji : (j < i)%nat) by lia.
      pose proof (sorted_lookup_le (types.NewMatchers ms) j i b a
                    (types.sort_Sort_sorted ms) Hji Hj Hi). congruence.
  - intros ms. split; [apply types.sort_Sort_sorted|apply types.sort_Sort_perm].
  - intros ms. apply sorted_keys_unique.
    + apply types.sort_Sort_sorted.
    + apply types.sort_Sort_sorted.
    + apply types.sort_Sort_perm.
Qed.

Lemma C4_order_and_idempotent_sort_witness :
  types.key <$> types.NewMatchers (S := insertion)
                  (types.NewMatchers (S := insertion) job_matchers) =
    [("instance", "web", false); ("job", "api", false); ("job", "api", true)] /\
  types.Less (types.NewMatcher (RL := toyRegexp) "job" "api")
             {| types.Name := "job"; types.Value := "api"; types.IsRegex := true;
                types.regex := None |} = true.
Proof.
  pose proof (@C4_order_and_idempotent_sort toyRegexp insertion) as (_ & H2 & _ & H4).
  split.
  - rewrite (H4 job_matchers). vm_compute. reflexivity.
  - apply (H2 (types.NewMatcher "job" "api")
              {| types.Name := "job"; types.Value := "api"; types.IsRegex := true;
                 types.regex := None |}); reflexivity.
Defined.

(** ** Loading a configuration *)

Section LoadFacts.
Context {RL : RegexpLib}.
Import config.

Lemma mapR_Ok_Forall2 {A B} (f : A -> result B) l l' :
  mapR f l = Ok l' -> Forall2 (fun x y => f x = Ok y) l l'.
Proof.
  revert l'. induction l as [|x l IH]; intros l' H; simpl in H.
  - injection H as <-. constructor.
  - destruct (f x) as [y|e] eqn:Hx; [|done].
    destruct (mapR f l) as [ys|e]; [|done].
    injection H as <-. constructor; auto.
Qed.

Lemma mapR_Forall2_Ok {A B} (f : A -> result B) l l' :
  Forall2 (fun x y => f x = Ok y) l l' -> mapR f l = Ok l'.
Proof. induction 1 as [|x y l l' Hx _ IH]; simpl; [done|]. by rewrite Hx, IH. Qed.

Lemma mapR_Err_elem {A B} (f : A -> result B) l e :
  mapR f l = Err e -> exists x, x ∈ l /\ f x = Err e.
Proof.
  induction l as [|x l IH]; simpl; [done|].
  destruct (f x) as [y|e'] eqn:Hx.
  - destruct (mapR f l) as [ys|e'] eqn:Hl; [done|].
    intros [= ->]. destruct (IH eq_refl) as (x' & ? & ?).
    exists x'. split; [by right|done].
  - intros [= ->]. exists x. split; [by left|done].
Qed.

Lemma Route_UnmarshalYAML_unfold (y : RouteYAML.t) :
  Route_UnmarshalYAML y =
  (routes ← mapR Route_UnmarshalYAML (RouteYAML.Routes y);
   _ ← MatchRegexps_UnmarshalYAML (RouteYAML.MatchRE y);
   _ ← check_label_names (RouteYAML.Match y);
   gb ← group_by_loop (RouteYAML.GroupByStr y) [] false;
   if (0 <? length gb.1)%nat && gb.2 then Err WildcardWithLabels
   else
     _ ← check_duplicates gb.1 ∅;
     if is_zero (RouteYAML.GroupInterval y) then Err GroupIntervalZero
     else if is_zero (RouteYAML.RepeatInterval y) then Err RepeatIntervalZero
     else Ok {|
       Route.Receiver := RouteYAML.Receiver y;
       Route.GroupByStr := RouteYAML.GroupByStr y;
       Route.GroupBy := gb.1;
       Route.GroupByAll := gb.2;
       Route.Match := RouteYAML.Match y;
       Route.MatchRE := RouteYAML.MatchRE y;
       Route.Continue := RouteYAML.Continue y;
       Route.Routes := routes;
       Route.GroupWait := RouteYAML.GroupWait y;
       Route.GroupInterval := RouteYAML.GroupInterval y;
       Route.RepeatInterval := RouteYAML.RepeatInterval y
     |}).
Proof. destruct y. reflexivity. Qed.

Lemma Route_UnmarshalYAML_Ok (y : RouteYAML.t) (r : Route.t) :
  Route_UnmarshalYAML y = Ok r <-> hooked y r.
Proof.
  rewrite Route_UnmarshalYAML_unfold. split.
  - intros H.
    destruct (mapR Route_UnmarshalYAML (RouteYAML.Routes y)) as [routes|] eqn:H1; [|done].
    simpl in H.
    destruct (MatchRegexps_UnmarshalYAML (RouteYAML.MatchRE y)) as [[]|] eqn:H2; [|done].
    simpl in H.
    destruct (check_label_names (RouteYAML.Match y)) as [[]|] eqn:H3; [|done].
    simpl in H.
    destruct (group_by_loop (RouteYAML.GroupByStr y) [] false) as [[gb all]|] eqn:H4; [|done].
    simpl in H.
    destruct ((0 <? length gb)%nat && all) eqn:H5; [done|].
    destruct (check_duplicates gb ∅) as [[]|] eqn:H6; [|done].
    simpl in H.
    destruct (is_zero (RouteYAML.GroupInterval y)) eqn:H7; [done|].
    destruct (is_zero (RouteYAML.RepeatInterval y)) eqn:H8; [done|].
    injection H as <-. by constructor.
  - intros [? ? ? ? ? ? ? ? ? ? ? ? ? ? ? ?]. destruct r; simpl in *; subst.
    rewrite hooked_routes0. simpl. rewrite hooked_match_re0. simpl.
    rewrite hooked_match0. simpl. rewrite hooked_group_by0. simpl.
    rewrite hooked_wildcard0. rewrite hooked_duplicates0. simpl.
    rewrite hooked_group_interval0, hooked_repeat_interval0. reflexivity.
Qed.

Lemma RouteYAML_ind' (P : RouteYAML.t -> Prop) :
  (forall y, Forall P (RouteYAML.Routes y) -> P y) -> forall y, P y.
Proof.
  intros H. fix IH 1. intros y. apply H. destruct y as [? ? ? ? ? routes ? ? ?]. simpl.
  induction routes as [|c routes IHl]; constructor; [apply IH|exact IHl].
Qed.

Lemma Route_ind' (P : Route.t -> Prop) :
  (forall r, Forall P (Route.Routes r) -> P r) -> forall r, P r.
Proof.
  intros H. fix IH 1. intros r. apply H. destruct r as [? ? ? ? ? ? ? routes ? ? ?]. simpl.
  induction routes as [|c routes IHl]; constructor; [apply IH|exact IHl].
Qed.

Lemma nodesY_unfold (y : RouteYAML.t) :
  nodesY y = y :: concat (map nodesY (RouteYAML.Routes y)).
Proof. by destruct y. Qed.

Lemma nodes_unfold (r : Route.t) :
  nodes r = r :: concat (map nodes (Route.Routes r)).
Proof. by destruct r. Qed.

Lemma elem_of_concat_map {A B} (f : A -> list B) (a : A) (l : list A) (b : B) :
  a ∈ l -> b ∈ f a -> b ∈ concat (map f l).
Proof.
  rewrite !list_elem_of_In. intros Ha Hb. apply in_concat.
  exists (f a). split; [by apply in_map|done].
Qed.

Lemma elem_of_concat_map_inv {A B} (f : A -> list B) (l : list A) (b : B) :
  b ∈ concat (map f l) -> exists a, a ∈ l /\ b ∈ f a.
Proof.
  rewrite list_elem_of_In. intros (k & Hk & Hb)%in_concat.
  apply in_map_iff in Hk as (a & <- & Ha).
  exists a. by rewrite !list_elem_of_In.
Qed.

Lemma Forall2_concat_map {A B C D} (Q : C -> D -> Prop)
    (f : A -> list C) (g : B -> list D) l l' :
  Forall2 (fun a b => Forall2 Q (f a) (g b)) l l' ->
  Forall2 Q (concat (map f l)) (concat (map g l')).
Proof. induction 1; simpl; [constructor|]. by apply Forall2_app. Qed.

(** Where the hook of the root succeeds, the hook of every node has
    succeeded, and the result has the shape of the document. *)
Lemma hooked_nodes (y : RouteYAML.t) : forall r,
  Route_UnmarshalYAML y = Ok r -> Forall2 hooked (nodesY y) (nodes r).
Proof.
  induction y as [y IH] using RouteYAML_ind'. intros r H.
  apply Route_UnmarshalYAML_Ok in H as Hh.
  rewrite nodesY_unfold, nodes_unfold. constructor; [exact Hh|].
  apply Forall2_concat_map.
  pose proof (mapR_Ok_Forall2 _ _ _ (hooked_routes _ _ Hh)) as Hc.
  clear Hh H. revert IH. induction Hc as [|c c' l l' Hcc' _ IHc]; intros IH; [constructor|].
  apply Forall_cons in IH as [IH1 IH2]. constructor; auto.
Qed.

(** A node whose own hook fails makes the hook of the root fail. *)
Lemma hook_fails_above (y node : RouteYAML.t) :
  node ∈ nodesY y -> (forall r, Route_UnmarshalYAML node <> Ok r) ->
  exists e, Route_UnmarshalYAML y = Err e.
Proof.
  intros Hin Hfail. destruct (Route_UnmarshalYAML y) as [r|e] eqn:H; [|eauto].
  exfalso. apply hooked_nodes in H.
  apply list_elem_of_lookup_1 in Hin as [i Hi].
  destruct (Forall2_lookup_l _ _ _ _ _ H Hi) as (r' & _ & Hh).
  apply Route_UnmarshalYAML_Ok in Hh. by apply (Hfail r').
Qed.

Lemma checkReceiver_unfold (r : Route.t) names :
  checkReceiver r names =
  (_ ← mapR (fun sr => checkReceiver sr names) (Route.Routes r);
   if String.eqb (Route.Receiver r) "" then Ok tt
   else if decide (Route.Receiver r ∈ names) then Ok tt
   else Err (UndefinedReceiver (Route.Receiver r))).
Proof. by destruct r. Qed.

Lemma checkReceiver_Err (r : Route.t) names e :
  checkReceiver r names = Err e ->
  exists n, n ∈ nodes r /\ dangling names (Route.Receiver n) /\
            e = UndefinedReceiver (Route.Receiver n).
Proof.
  induction r as [r IH] using Route_ind'. rewrite checkReceiver_unfold, nodes_unfold.
  destruct (mapR _ (Route.Routes r)) as [us|e'] eqn:Hc; simpl.
  - destruct (String.eqb_spec (Route.Receiver r) ""); [done|].
    destruct (decide (Route.Receiver r ∈ names)); [done|].
    intros [= <-]. exists r. split; [by left|]. by split.
  - intros [= ->]. apply mapR_Err_elem in Hc as (c & Hin & Hc).
    rewrite Forall_forall in IH. destruct (IH c Hin Hc) as (n & Hn & Hd & He).
    exists n. split; [|done]. right. by apply (elem_of_concat_map nodes c).
Qed.

Lemma checkReceiver_Ok (r : Route.t) names :
  checkReceiver r names = Ok tt ->
  Forall (fun n => ~ dangling names (Route.Receiver n)) (nodes r).
Proof.
  induction r as [r IH] using Route_ind'. rewrite checkReceiver_unfold, nodes_unfold.
  destruct (mapR _ (Route.Routes r)) as [us|e'] eqn:Hc; simpl; [|done].
  intros H. constructor.
  - intros [Hne Hnin]. destruct (String.eqb_spec (Route.Receiver r) ""); [done|].
    by destruct (decide (Route.Receiver r ∈ names)).
  - apply Forall_concat, Forall_fmap. apply mapR_Ok_Forall2 in Hc.
    clear H. induction Hc as [|c [] l l' Hcc _ IHc]; [constructor|].
    apply Forall_cons in IH as [IH1 IH2]. constructor; simpl; auto.
Qed.

Lemma checkReceiver_total (r : Route.t) names :
  checkReceiver r names = Ok tt \/ exists e, checkReceiver r names = Err e.
Proof. destruct (checkReceiver r names) as [[]|e]; eauto. Qed.

(** *** The state monad *)

Lemma bind_Ok {A B} (m : M A) (f : A -> M B) h b h' :
  (m ≫= f) h = Ok (b, h') <->
  exists a h1, m h = Ok (a, h1) /\ f a h1 = Ok (b, h').
Proof.
  unfold mbind, M_bind. destruct (m h) as [[a h1]|e]; split.
  - eauto.
  - by intros (? & ? & [= -> ->] & ?).
  - done.
  - by intros (? & ? & ? & ?).
Qed.

Lemma lift_Ok {A} (r : result A) h a h' :
  lift r h = Ok (a, h') <-> r = Ok a /\ h' = h.
Proof. unfold lift. destruct r; split; [by intros [= -> ->]|by intros [[= ->] ->]|done|by intros []]. Qed.

Lemma mret_Ok {A} (a : A) h b h' :
  (mret a : M A) h = Ok (b, h') <-> b = a /\ h' = h.
Proof. unfold mret, M_ret. split; [by intros [= -> ->]|by intros [-> ->]]. Qed.

Lemma mapM_Forall2 {A B} (f : A -> M B) l : forall h l' h',
  mapM f l h = Ok (l', h') ->
  Forall2 (fun a b => exists h1 h2, f a h1 = Ok (b, h2)) l l'.
Proof.
  induction l as [|a l IH]; intros h l' h' H; simpl in H.
  - apply mret_Ok in H as [-> _]. constructor.
  - apply bind_Ok in H as (b & h1 & Hb & H).
    apply bind_Ok in H as (bs & h2 & Hbs & H).
    apply mret_Ok in H as [-> ->]. constructor; eauto.
Qed.

(** *** Trailing slashes in the store *)

Lemma keeps_slashes_refl h : keeps_slashes h h.
Proof. by intros l. Qed.


Lemma substring_last_append (s : string) :
  substring (String.length (s +:+ "/") - 1) 1 (s +:+ "/") = "/".
Proof.
  induction s as [|c s IH]; [reflexivity|].
  change (String c s +:+ "/") with (String c (s +:+ "/")).
  cbn [String.length]. replace (S (String.length (s +:+ "/")) - 1)%nat
    with (String.length (s +:+ "/")) by lia.
  destruct (String.length (s +:+ "/")) as [|n] eqn:Hn.
  - destruct s; discriminate.
  - cbn [substring]. simpl in IH. by rewrite Nat.sub_0_r in IH.
Qed.

Lemma HasSuffix_append_slash (s : string) : HasSuffix (s +:+ "/") "/" = true.
Proof.
  unfold HasSuffix. change (String.length "/") with 1%nat.
  rewrite substring_last_append. rewrite andb_true_iff. split; [|reflexivity].
  apply Nat.leb_le. destruct s; simpl; lia.
Qed.

Lemma ensure_slash_Ok (l : loc) (h : heap) :
  exists h', ensure_slash l h = Ok (tt, h') /\ slash h' l /\ keeps_slashes h h' /\
             next h' = next h.
Proof.
  unfold ensure_slash, mbind, M_bind, load. simpl.
  destruct (HasSuffix (Path (cells h l)) "/") eqn:Hs.
  - exists h. repeat split; [done|apply keeps_slashes_refl].
  - eexists. split; [reflexivity|]. repeat split.
    + unfold slash. simpl. rewrite fn_lookup_insert. simpl. apply HasSuffix_append_slash.
    + intros l' Hl'. unfold slash in *. simpl.
      destruct (decide (l = l')) as [<-|Hne]; [congruence|].
      by rewrite fn_lookup_insert_ne.
Qed.

Ltac inv_lift :=
  repeat match goal with
  | Hl : lift _ _ = Ok _ |- _ => apply lift_Ok in Hl as [? ->]
  | Hr : mret _ _ = Ok _ |- _ => apply mret_Ok in Hr as [? ?]; simplify_eq
  end.


Ltac inv_M H :=
  repeat match type of H with
  | (_ ≫= _) _ = Ok _ =>
    let a := fresh "a" in let h := fresh "h" in let Ha := fresh "Hstep" in
    apply bind_Ok in H as (a & h & Ha & H)
  end.


Lemma mapM_quiet {A B} (f : A -> M B) :
  (forall a h b h', f a h = Ok (b, h') -> h' = h) ->
  forall l h l' h', mapM f l h = Ok (l', h') -> h' = h.
Proof.
  intros Hf. induction l as [|a l IH]; intros h l' h' H; simpl in H.
  - by apply mret_Ok in H as [_ ->].
  - inv_M H. apply mret_Ok in H as [_ ->].
    apply Hf in Hstep as ->. by apply IH in Hstep0 as ->.
Qed.




Lemma default_webhook_quiet g a h b h' : default_webhook g a h = Ok (b, h') -> h' = h.
Proof. unfold default_webhook. by intros [_ ->]%mret_Ok. Qed.

Lemma default_pushover_quiet g a h b h' : default_pushover g a h = Ok (b, h') -> h' = h.
Proof. unfold default_pushover. by intros [_ ->]%mret_Ok. Qed.

Lemma default_email_quiet g a h b h' : default_email g a h = Ok (b, h') -> h' = h.
Proof.
  unfold default_email. intros H. inv_M H. by inv_lift.
Qed.

Lemma default_slack_quiet g a h b h' : default_slack g a h = Ok (b, h') -> h' = h.
Proof.
  unfold default_slack. intros H. inv_M H. by inv_lift.
Qed.

Lemma default_pagerduty_quiet g a h b h' : default_pagerduty g a h = Ok (b, h') -> h' = h.
Proof.
  unfold default_pagerduty. intros H. inv_M H. by inv_lift.
Qed.

Lemma slash_stable l h h' : slash h l -> keeps_slashes h h' -> slash h' l.
Proof. intros Hl Hk. by apply Hk. Qed.




Lemma default_receivers_names g rcvs : forall names h out h',
  default_receivers g rcvs names h = Ok (out, h') ->
  out.2 = list_to_set (Receiver.Name <$> rcvs) ∪ names.
Proof.
  induction rcvs as [|rcv rcvs IH]; intros names h out h' H; simpl in H.
  - inv_lift. simpl. set_solver.
  - destruct (decide (Receiver.Name rcv ∈ names)); [done|].
    inv_M H. inv_lift. simpl. rewrite (IH _ _ _ _ Hstep0). set_solver.
Qed.

Lemma default_receivers_Forall2 g rcvs : forall names h out h',
  default_receivers g rcvs names h = Ok (out, h') ->
  Forall2 (fun rin rout => exists h1 h2, default_receiver g rin h1 = Ok (rout, h2))
          rcvs out.1.
Proof.
  induction rcvs as [|rcv rcvs IH]; intros names h out h' H; simpl in H.
  - inv_lift. constructor.
  - destruct (decide (Receiver.Name rcv ∈ names)); [done|].
    inv_M H. inv_lift. simpl. constructor; eauto.
Qed.

Lemma mapR_Receiver_UnmarshalYAML rcvs rcvs' :
  mapR Receiver_UnmarshalYAML rcvs = Ok rcvs' -> rcvs' = rcvs.
Proof.
  intros H%mapR_Ok_Forall2. induction H as [|x y l l' Hxy _ IH]; [done|].
  unfold Receiver_UnmarshalYAML in Hxy.
  destruct (String.eqb (Receiver.Name x) ""); [done|]. injection Hxy as <-. by f_equal.
Qed.

Lemma unmarshal_plain_Ok (y : ConfigYAML.t) (c : Config.t) :
  unmarshal_plain y = Ok c ->
  Config.Global c = ConfigYAML.Global y /\
  Config.Receivers c = ConfigYAML.Receivers y /\
  Config.Templates c = ConfigYAML.Templates y /\
  match ConfigYAML.Route y with
  | None => Config.Route c = None
  | Some ry => exists r, Config.Route c = Some r /\ Route_UnmarshalYAML ry = Ok r
  end.
Proof.
  unfold unmarshal_plain. intros H.
  destruct (ConfigYAML.Route y) as [ry|].
  - destruct (Route_UnmarshalYAML ry) as [r|] eqn:Hr; [|done]. simpl in H.
    destruct (mapR InhibitRule_UnmarshalYAML _) as [rules|]; [|done]. simpl in H.
    destruct (mapR Receiver_UnmarshalYAML _) as [rcvs|] eqn:Hrc; [|done]. simpl in H.
    apply mapR_Receiver_UnmarshalYAML in Hrc as ->.
    injection H as <-. simpl. eauto 10.
  - simpl in H.
    destruct (mapR InhibitRule_UnmarshalYAML _) as [rules|]; [|done]. simpl in H.
    destruct (mapR Receiver_UnmarshalYAML _) as [rcvs|] eqn:Hrc; [|done]. simpl in H.
    apply mapR_Receiver_UnmarshalYAML in Hrc as ->.
    injection H as <-. simpl. eauto 10.
Qed.

Lemma Config_UnmarshalYAML_split (y : ConfigYAML.t) (h : heap) :
  Config_UnmarshalYAML y h =
  match before_checkReceiver y h with
  | Err e => Err e
  | Ok (c, g, out, r, h1) =>
    match checkReceiver r out.2 with
    | Err e => Err e
    | Ok _ => Ok (loaded (Config.original c) c g out.1, h1)
    end
  end.
Proof.
  unfold Config_UnmarshalYAML, before_checkReceiver, mbind, M_bind, lift.
  destruct (unmarshal_plain y) as [c|]; [|done].
  set (global := match Config.Global c with Some g => mret g | None => DefaultGlobalConfig end).
  destruct (global h) as [[g h1]|]; [|done].
  destruct (default_receivers g (Config.Receivers c) ∅ h1) as [[out h2]|]; [|done].
  destruct (check_root (Config.Route c)) as [r|]; [|done]. simpl.
  destruct (checkReceiver r out.2); reflexivity.
Qed.

Lemma check_root_Ok (route : option Route.t) (r : Route.t) :
  check_root route = Ok r <->
  route = Some r /\ Route.Receiver r <> "" /\
  Route.Match r = ∅ /\ Route.MatchRE r = ∅.
Proof.
  unfold check_root. destruct route as [r'|]; [|split; [done|by intros []]].
  destruct r' as [rcv ? ? ? m mre ? ? ? ? ?]; simpl.
  destruct rcv as [|c rcv]; simpl.
  { split; [done|]. intros ([= <-] & Hne & _). done. }
  destruct (decide (m = ∅)) as [->|Hm].
  - destruct (decide (mre = ∅)) as [->|Hmre].
    + rewrite !map_size_empty. simpl. split; [intros [= <-]; done|by intros ([= <-] & _)].
    + rewrite map_size_empty. simpl.
      apply map_size_non_empty_iff in Hmre as Hs.
      destruct (size mre) eqn:Hsz; [done|]. simpl.
      split; [done|]. intros ([= <-] & _ & _ & Hc). simpl in Hc. done.
  - apply map_size_non_empty_iff in Hm as Hs.
    destruct (size m) eqn:Hsz; [done|]. simpl.
    split; [done|]. intros ([= <-] & _ & Hc & _). simpl in Hc. done.
Qed.

(** *** Values and pointers *)

Lemma omap_id_Some {A} (l : list A) : omap id (map Some l) = l.
Proof.
  induction l as [|a l IH]; [done|].
  change (omap id (map Some (a :: l))) with (a :: omap id (map Some l)). by rewrite IH.
Qed.

Lemma deref_ref_receiver rcv : deref_receiver (ref_receiver rcv) = rcv.
Proof.
  destruct rcv. unfold deref_receiver, ref_receiver.
  cbn [ptr.Receiver.Name ptr.Receiver.EmailConfigs ptr.Receiver.PagerdutyConfigs
       ptr.Receiver.SlackConfigs ptr.Receiver.WebhookConfigs ptr.Receiver.OpsGenieConfigs
       ptr.Receiver.WechatConfigs ptr.Receiver.PushoverConfigs
       ptr.Receiver.VictorOpsConfigs].
  by rewrite !omap_id_Some.
Qed.

Lemma deref_ref_routeY (y : RouteYAML.t) : deref_routeY (ref_routeY y) = y.
Proof.
  induction y as [y IH] using RouteYAML_ind'.
  destruct y as [? ? ? ? ? routes ? ? ?]. simpl in *. f_equal.
  induction routes as [|c routes IHl]; simpl; [done|].
  apply Forall_cons in IH as [-> IH]. f_equal. by apply IHl.
Qed.

Lemma values_ref (r : Route.t) : ptr.values (ref_route r) = r.
Proof.
  induction r as [r IH] using Route_ind'.
  destruct r as [? ? ? ? ? ? ? routes ? ? ?]. simpl in *. f_equal.
  induction routes as [|c routes IHl]; simpl; [done|].
  apply Forall_cons in IH as [-> IH]. f_equal. by apply IHl.
Qed.

Lemma deref_ref_document y : deref_document (ref_document y) = y.
Proof.
  destruct y as [g route rules rcvs ts]. unfold deref_document, ref_document. simpl.
  f_equal.
  - destruct route; simpl; [|done]. by rewrite deref_ref_routeY.
  - induction rcvs as [|rcv rcvs IH]; simpl; [done|].
    rewrite deref_ref_receiver. f_equal. exact IH.
Qed.


Lemma Document_inj y h y' h' : Document y h = Document y' h' -> y = y' /\ h = h'.
Proof.
  unfold Document. intros H.
  assert (ref_document y = ref_document y' /\ h = h') as [Hy ->] by (split; congruence).
  split; [|done].
  apply (f_equal deref_document) in Hy. by rewrite !deref_ref_document in Hy.
Qed.

(** On structs without nil entries the functions of [ptr] do what the
    functions by value do. *)

Lemma range_ref {A B} (f : A -> M B) (l : list A) (h : heap) :
  ptr.range f (map Some l) h = Done (mapM f l h).
Proof.
  revert h. induction l as [|a l IH]; intros h; [done|].
  simpl. unfold mbind, ptr.MP_bind, M_bind, ptr.call. simpl.
  destruct (f a h) as [[b h1]|e]; [|done].
  rewrite IH. by destruct (mapM f l h1) as [[bs h2]|e].
Qed.

Lemma default_receiver_ref g rcv h :
  ptr.default_receiver g (ref_receiver rcv) h = Done (default_receiver g rcv h).
Proof.
  unfold ptr.default_receiver, default_receiver, mbind, ptr.MP_bind, M_bind. simpl.
  repeat (rewrite range_ref;
          match goal with |- context [mapM ?f ?l ?h] =>
            destruct (mapM f l h) as [[? ?]|?]; [|done] end).
  done.
Qed.

Lemma default_receivers_ref g rcvs : forall names h,
  ptr.default_receivers g (map (fun rcv => Some (ref_receiver rcv)) rcvs) names h =
  Done (default_receivers g rcvs names h).
Proof.
  induction rcvs as [|rcv rcvs IH]; intros names h; [done|].
  simpl. unfold mbind at 1. unfold ptr.MP_bind at 1. simpl.
  destruct (decide (Receiver.Name rcv ∈ names)); [done|].
  unfold mbind, ptr.MP_bind, M_bind. rewrite default_receiver_ref.
  destruct (default_receiver g rcv h) as [[rcv' h1]|e]; [|done].
  rewrite IH. by destruct (default_receivers g rcvs _ h1) as [[out h2]|e].
Qed.

Lemma ptr_Route_UnmarshalYAML_unfold (y : ptr.RouteYAML.t) :
  ptr.Route_UnmarshalYAML y =
  (routes ← mapR (ptr.hook ptr.Route_UnmarshalYAML) (ptr.RouteYAML.Routes y);
   _ ← MatchRegexps_UnmarshalYAML (ptr.RouteYAML.MatchRE y);
   _ ← check_label_names (ptr.RouteYAML.Match y);
   gb ← group_by_loop (ptr.RouteYAML.GroupByStr y) [] false;
   if (0 <? length gb.1)%nat && gb.2 then Err WildcardWithLabels
   else
     _ ← check_duplicates gb.1 ∅;
     if is_zero (ptr.RouteYAML.GroupInterval y) then Err GroupIntervalZero
     else if is_zero (ptr.RouteYAML.RepeatInterval y) then Err RepeatIntervalZero
     else Ok {|
       ptr.Route.Receiver := ptr.RouteYAML.Receiver y;
       ptr.Route.GroupByStr := ptr.RouteYAML.GroupByStr y;
       ptr.Route.GroupBy := gb.1;
       ptr.Route.GroupByAll := gb.2;
       ptr.Route.Match := ptr.RouteYAML.Match y;
       ptr.Route.MatchRE := ptr.RouteYAML.MatchRE y;
       ptr.Route.Continue := ptr.RouteYAML.Continue y;
       ptr.Route.Routes := routes;
       ptr.Route.GroupWait := ptr.RouteYAML.GroupWait y;
       ptr.Route.GroupInterval := ptr.RouteYAML.GroupInterval y;
       ptr.Route.RepeatInterval := ptr.RouteYAML.RepeatInterval y
     |}).
Proof. destruct y. reflexivity. Qed.

Lemma Route_UnmarshalYAML_ref (y : RouteYAML.t) :
  ptr.Route_UnmarshalYAML (ref_routeY y) =
  (r ← Route_UnmarshalYAML y; Ok (ref_route r)).
Proof.
  induction y as [y IH] using RouteYAML_ind'.
  rewrite ptr_Route_UnmarshalYAML_unfold, Route_UnmarshalYAML_unfold.
  assert (Hc : mapR (ptr.hook ptr.Route_UnmarshalYAML)
                 (ptr.RouteYAML.Routes (ref_routeY y)) =
               (rs ← mapR Route_UnmarshalYAML (RouteYAML.Routes y);
                Ok (map (fun c => Some (ref_route c)) rs))).
  { destruct y as [? ? ? ? ? routes ? ? ?]. simpl in *.
    induction routes as [|c routes IHl]; simpl; [done|].
    apply Forall_cons in IH as [Hc IH]. rewrite Hc.
    destruct (Route_UnmarshalYAML c) as [r|e]; simpl; [|done].
    rewrite (IHl IH). by destruct (mapR Route_UnmarshalYAML routes). }
  rewrite Hc. clear Hc IH. destruct y as [? ? ? ? ? routes ? ? ?]. simpl.
  destruct (mapR Route_UnmarshalYAML routes) as [rs|]; simpl; [|done].
  destruct (MatchRegexps_UnmarshalYAML _) as [[]|]; simpl; [|done].
  destruct (check_label_names _) as [[]|]; simpl; [|done].
  destruct (group_by_loop _ _ _) as [[gb all]|]; simpl; [|done].
  destruct ((0 <? length gb)%nat && all); [done|].
  destruct (check_duplicates gb ∅) as [[]|]; simpl; [|done].
  destruct (is_zero _); [done|]. destruct (is_zero _); [done|]. done.
Qed.

Lemma ptr_checkReceiver_unfold (r : ptr.Route.t) names :
  ptr.checkReceiver r names =
  match ptr.each (fun sr => ptr.checkReceiver sr names) (ptr.Route.Routes r) with
  | Done (Ok _) =>
    if String.eqb (ptr.Route.Receiver r) "" then Done (Ok tt)
    else if decide (ptr.Route.Receiver r ∈ names) then Done (Ok tt)
    else Done (Err (UndefinedReceiver (ptr.Route.Receiver r)))
  | stop => stop
  end.
Proof. by destruct r. Qed.

Lemma checkReceiver_ref (r : Route.t) names :
  ptr.checkReceiver (ref_route r) names = Done (checkReceiver r names).
Proof.
  induction r as [r IH] using Route_ind'.
  rewrite ptr_checkReceiver_unfold, checkReceiver_unfold.
  assert (Hc : ptr.each (fun sr => ptr.checkReceiver sr names)
                 (ptr.Route.Routes (ref_route r)) =
               Done (_ ← mapR (fun sr => checkReceiver sr names) (Route.Routes r); Ok tt)).
  { destruct r as [? ? ? ? ? ? ? routes ? ? ?]. simpl in *.
    induction routes as [|c routes IHl]; simpl; [done|].
    apply Forall_cons in IH as [Hc IH]. rewrite Hc.
    destruct (checkReceiver c names) as [[]|e]; simpl; [|done].
    rewrite (IHl IH). by destruct (mapR _ routes). }
  rewrite Hc. destruct r as [? ? ? ? ? ? ? routes ? ? ?]. simpl.
  destruct (mapR _ routes); simpl; [|done].
  destruct (String.eqb _ _); [done|]. by destruct (decide _).
Qed.

Lemma hook_route_ref (route : option RouteYAML.t) :
  ptr.hook ptr.Route_UnmarshalYAML (option_map ref_routeY route) =
  (r ← match route with
       | None => Ok None
       | Some ry => r ← Route_UnmarshalYAML ry; Ok (Some r)
       end; Ok (option_map ref_route r)).
Proof.
  destruct route as [ry|]; simpl; [|done]. rewrite Route_UnmarshalYAML_ref.
  by destruct (Route_UnmarshalYAML ry).
Qed.

Lemma hook_receivers_ref (rcvs : list Receiver.t) :
  mapR (ptr.hook ptr.Receiver_UnmarshalYAML)
    (map (fun rcv => Some (ref_receiver rcv)) rcvs) =
  (rs ← mapR Receiver_UnmarshalYAML rcvs;
   Ok (map (fun rcv => Some (ref_receiver rcv)) rs)).
Proof.
  induction rcvs as [|rcv rcvs IH]; [done|].
  cbn [map mapR]. rewrite IH.
  unfold ptr.hook, ptr.Receiver_UnmarshalYAML, Receiver_UnmarshalYAML. simpl.
  destruct (String.eqb (Receiver.Name rcv) ""); simpl; [done|].
  by destruct (mapR _ rcvs).
Qed.

Lemma unmarshal_plain_ref (y : ConfigYAML.t) :
  ptr.unmarshal_plain (ref_document y) = (c ← unmarshal_plain y; Ok (ref_config c)).
Proof.
  unfold ptr.unmarshal_plain, unmarshal_plain, ref_document.
  cbn [ptr.ConfigYAML.Global ptr.ConfigYAML.Route ptr.ConfigYAML.InhibitRules
       ptr.ConfigYAML.Receivers ptr.ConfigYAML.Templates].
  rewrite hook_route_ref, hook_receivers_ref.
  destruct (match ConfigYAML.Route y with None => _ | Some ry => _ end) as [r|]; simpl; [|done].
  destruct (mapR InhibitRule_UnmarshalYAML _) as [rules'|]; simpl; [|done].
  by destruct (mapR Receiver_UnmarshalYAML _).
Qed.

Lemma check_root_ref (route : option Route.t) :
  ptr.check_root (option_map ref_route route) = (r ← check_root route; Ok (ref_route r)).
Proof.
  destruct route as [r|]; simpl; [|done]. destruct r as [rcv ? ? ? m mre ? ? ? ? ?]. simpl.
  destruct (String.length rcv =? 0)%nat; [reflexivity|].
  destruct ((0 <? size m)%nat || (0 <? size mre)%nat); reflexivity.
Qed.

Lemma Config_UnmarshalYAML_ref (y : ConfigYAML.t) (h : heap) :
  ptr.Config_UnmarshalYAML (ref_document y) h = Done (Config_UnmarshalYAML y h).
Proof.
  unfold ptr.Config_UnmarshalYAML, Config_UnmarshalYAML.
  unfold mbind, ptr.MP_bind, M_bind, ptr.call, lift, ptr.pure.
  rewrite unmarshal_plain_ref.
  destruct (unmarshal_plain y) as [c|]; [|done].
  cbn [mbind result_bind ref_config ptr.Config.Global ptr.Config.Receivers ptr.Config.Route
       ptr.Config.InhibitRules ptr.Config.Templates ptr.Config.original].
  destruct (match Config.Global c with Some g => mret g | None => DefaultGlobalConfig end h)
    as [[g h1]|]; [|done].
  rewrite default_receivers_ref.
  destruct (default_receivers g (Config.Receivers c) ∅ h1) as [[out h2]|]; [|done].
  rewrite check_root_ref.
  destruct (check_root (Config.Route c)) as [r|] eqn:Hroot; [|done].
  cbn [mbind result_bind]. rewrite checkReceiver_ref.
  destruct (checkReceiver r out.2) as [[]|]; [|done].
  unfold mret, ptr.MP_ret, M_ret. rewrite values_ref.
  apply check_root_Ok in Hroot as [-> _]. done.
Qed.

(** A run that returns nil has met no nil entry. *)

Lemma range_Ok {A B} (f : A -> M B) (l : list (option A)) : forall h l' h',
  ptr.range f l h = Done (Ok (l', h')) -> exists l0, l = map Some l0.
Proof.
  induction l as [|p l IH]; intros h l' h' H; [by exists []|].
  simpl in H. unfold mbind, ptr.MP_bind, ptr.deref, ptr.call in H.
  destruct p as [a|]; [|done].
  destruct (f a h) as [[b h1]|]; [|done].
  destruct (ptr.range f l h1) as [[[bs h2]|]|] eqn:Hl; try done.
  destruct (IH _ _ _ Hl) as [l0 ->]. by exists (a :: l0).
Qed.

Lemma default_receiver_Ok g rcv h rcv' h' :
  ptr.default_receiver g rcv h = Done (Ok (rcv', h')) ->
  exists rcv0, rcv = ref_receiver rcv0.
Proof.
  unfold ptr.default_receiver, mbind, ptr.MP_bind. intros H.
  repeat match type of H with
  | context [ptr.range ?f ?l ?h] =>
    let Hr := fresh "Hr" in
    destruct (ptr.range f l h) as [[[? ?]|]|] eqn:Hr; try done;
    apply range_Ok in Hr as [? Hr]
  end.
  destruct rcv; simpl in *; subst.
  by eexists {| Receiver.Name := _ |}.
Qed.

Lemma default_receivers_Ok g rcvs : forall names h out h',
  ptr.default_receivers g rcvs names h = Done (Ok (out, h')) ->
  exists rcvs0, rcvs = map (fun rcv => Some (ref_receiver rcv)) rcvs0.
Proof.
  induction rcvs as [|p rcvs IH]; intros names h out h' H; [by exists []|].
  simpl in H. unfold mbind at 1 in H. unfold ptr.MP_bind at 1, ptr.deref in H.
  destruct p as [rcv|]; [|done].
  destruct (decide (ptr.Receiver.Name rcv ∈ names)); [done|].
  unfold mbind, ptr.MP_bind in H.
  destruct (ptr.default_receiver g rcv h) as [[[rcv' h1]|]|] eqn:Hr; try done.
  destruct (ptr.default_receivers g rcvs _ h1) as [[[out' h2]|]|] eqn:Hrs; try done.
  apply default_receiver_Ok in Hr as [rcv0 ->].
  apply IH in Hrs as [rcvs0 ->]. by exists (rcv0 :: rcvs0).
Qed.

Lemma ptr_RouteYAML_ind' (P : ptr.RouteYAML.t -> Prop) :
  (forall y, Forall (fun p => forall c, p = Some c -> P c) (ptr.RouteYAML.Routes y) -> P y) ->
  forall y, P y.
Proof.
  intros H. fix IH 1. intros y. apply H. destruct y as [? ? ? ? ? routes ? ? ?]. simpl.
  induction routes as [|p routes IHl]; constructor; [|exact IHl].
  destruct p as [c|]; intros c' Heq; [|discriminate].
  replace c' with c by congruence. apply IH.
Qed.

Lemma each_Ok {A} (f : A -> run unit) (ps : list (option A)) :
  ptr.each f ps = Done (Ok tt) ->
  Forall (fun p => exists a, p = Some a /\ f a = Done (Ok tt)) ps.
Proof.
  induction ps as [|p ps IH]; simpl; [constructor|].
  destruct p as [a|]; [|done].
  destruct (f a) as [[[]|]|] eqn:Ha; try done. intros H. constructor; eauto.
Qed.

(** Where the hook of the root and [checkReceiver] on its result have both
    succeeded, the tree of the document has no nil child. *)
Lemma checked_routes_ref (y : ptr.RouteYAML.t) : forall r names,
  ptr.Route_UnmarshalYAML y = Ok r ->
  ptr.checkReceiver r names = Done (Ok tt) ->
  exists y0, y = ref_routeY y0.
Proof.
  induction y as [y IH] using ptr_RouteYAML_ind'. intros r names Hh Hc.
  rewrite ptr_Route_UnmarshalYAML_unfold in Hh.
  destruct (mapR _ (ptr.RouteYAML.Routes y)) as [routes|] eqn:Hrs; [|done]. simpl in Hh.
  assert (Hroutes : ptr.Route.Routes r = routes).
  { destruct (MatchRegexps_UnmarshalYAML _) as [[]|]; [|done]. simpl in Hh.
    destruct (check_label_names _) as [[]|]; [|done]. simpl in Hh.
    destruct (group_by_loop _ _ _) as [[gb all]|]; [|done]. simpl in Hh.
    destruct (_ && _); [done|].
    destruct (check_duplicates gb ∅) as [[]|]; [|done]. simpl in Hh.
    destruct (is_zero _); [done|]. destruct (is_zero _); [done|].
    by injection Hh as <-. }
  rewrite ptr_checkReceiver_unfold in Hc.
  destruct (ptr.each _ (ptr.Route.Routes r)) as [[[]|]|] eqn:He; try done.
  apply each_Ok in He. rewrite Hroutes in He. clear Hh Hc Hroutes.
  apply mapR_Ok_Forall2 in Hrs.
  assert (Hl : exists l0, ptr.RouteYAML.Routes y = map (fun c => Some (ref_routeY c)) l0).
  { revert IH He. induction Hrs as [|p q l l' Hpq _ IHl]; intros IH He; [by exists []|].
    apply Forall_cons in IH as [IHp IH]. apply Forall_cons in He as [(r' & -> & Hr') He].
    destruct (IHl IH He) as [l0 ->].
    destruct p as [c|]; [|done]. simpl in Hpq.
    destruct (ptr.Route_UnmarshalYAML c) as [rc|] eqn:Hc; [|done].
    injection Hpq as ->.
    destruct (IHp c eq_refl _ _ Hc Hr') as [c0 ->]. by exists (c0 :: l0). }
  destruct Hl as [l0 Hl]. destruct y as [rcv gb m mre cont routes' gw gi ri].
  simpl in Hl. subst.
  by exists {| RouteYAML.Receiver := rcv; RouteYAML.GroupByStr := gb; RouteYAML.Match := m;
               RouteYAML.MatchRE := mre; RouteYAML.Continue := cont; RouteYAML.Routes := l0;
               RouteYAML.GroupWait := gw; RouteYAML.GroupInterval := gi;
               RouteYAML.RepeatInterval := ri |}.
Qed.

Lemma mapR_hook_Receiver (l l' : list (option ptr.Receiver.t)) :
  mapR (ptr.hook ptr.Receiver_UnmarshalYAML) l = Ok l' -> l' = l.
Proof.
  intros H%mapR_Ok_Forall2. induction H as [|p q l l' Hpq _ IH]; [done|].
  subst. f_equal. destruct p as [c|]; simpl in Hpq; [|by injection Hpq].
  unfold ptr.Receiver_UnmarshalYAML in Hpq.
  destruct (String.eqb _ _); [done|]. by injection Hpq.
Qed.

Lemma Config_UnmarshalYAML_met_no_nil (d : ptr.ConfigYAML.t) (h : heap) cfg h' :
  ptr.Config_UnmarshalYAML d h = Done (Ok (cfg, h')) -> exists y, d = ref_document y.
Proof.
  unfold ptr.Config_UnmarshalYAML.
  unfold mbind at 1. unfold ptr.MP_bind at 1. unfold ptr.call at 1, lift at 1.
  destruct (ptr.unmarshal_plain d) as [c|] eqn:Hp; [|done].
  unfold mbind at 1. unfold ptr.MP_bind at 1. unfold ptr.call at 1.
  destruct (match ptr.Config.Global c with Some g => mret g | None => DefaultGlobalConfig end h)
    as [[g h1]|]; [|done].
  unfold mbind at 1. unfold ptr.MP_bind at 1.
  destruct (ptr.default_receivers g _ ∅ h1) as [[[out h2]|]|] eqn:Hrcv; try done.
  unfold mbind at 1. unfold ptr.MP_bind at 1. unfold ptr.call at 1, lift at 1.
  destruct (ptr.check_root _) as [r|] eqn:Hroot; [|done].
  unfold mbind. unfold ptr.MP_bind, ptr.pure.
  destruct (ptr.checkReceiver r out.2) as [[[]|]|] eqn:Hc; try done. intros _.
  unfold ptr.unmarshal_plain in Hp.
  destruct (ptr.hook _ (ptr.ConfigYAML.Route d)) as [route|] eqn:Hh; [|done]. simpl in Hp.
  destruct (mapR InhibitRule_UnmarshalYAML _) as [rules|]; [|done]. simpl in Hp.
  destruct (mapR (ptr.hook _) _) as [rcvs|] eqn:Hrs; [|done]. simpl in Hp.
  injection Hp as <-. simpl in *.
  apply mapR_hook_Receiver in Hrs as ->.
  apply default_receivers_Ok in Hrcv as [rcvs0 Hrcvs0].
  assert (Hroute : route = Some r).
  { unfold ptr.check_root in Hroot. destruct route as [r'|]; [|done].
    destruct (_ =? _)%nat; [done|]. destruct (_ || _); [done|]. by injection Hroot as ->. }
  subst route. destruct d as [gl [ry|] rl rcvs ts]; simpl in *; [|done].
  destruct (ptr.Route_UnmarshalYAML ry) as [r'|] eqn:Hry; [|done].
  injection Hh as ->.
  destruct (checked_routes_ref _ _ _ Hry Hc) as [y0 ->]. subst rcvs.
  by exists {| ConfigYAML.Global := gl; ConfigYAML.Route := Some y0;
               ConfigYAML.InhibitRules := rl; ConfigYAML.Receivers := rcvs0;
               ConfigYAML.Templates := ts |}.
Qed.

Lemma Load_met_no_nil (s : string) (input : decoded) cfg h' :
  Load s input = Ok (cfg, h') -> exists y h, input = Document y h.
Proof.
  destruct input as [e| |d h]; simpl; [done|done|].
  destruct (ptr.Config_UnmarshalYAML d h) as [[[cfg' h1]|]|] eqn:Hu; try done.
  intros _. apply Config_UnmarshalYAML_met_no_nil in Hu as [y ->]. by exists y, h.
Qed.

Lemma Load_by_value (s : string) (y : ConfigYAML.t) (h : heap) :
  Load s (Document y h) =
  Done match Config_UnmarshalYAML y h with
       | Err e => Err e
       | Ok (cfg, h') =>
         match Config.Route cfg with
         | None => Err NoRouteInConfig
         | Some r =>
           if Route.Continue r then Err ContinueInRootRoute
           else Ok ({|
             Config.Global := Config.Global cfg;
             Config.Route := Config.Route cfg;
             Config.InhibitRules := Config.InhibitRules cfg;
             Config.Receivers := Config.Receivers cfg;
             Config.Templates := Config.Templates cfg;
             Config.original := s
           |}, h')
         end
       end.
Proof.
  unfold Load, Document. rewrite Config_UnmarshalYAML_ref.
  destruct (Config_UnmarshalYAML y h) as [[cfg h1]|]; [|done].
  destruct (Config.Route cfg) as [r|]; [|done]. by destruct (Route.Continue r).
Qed.


(** Where no nil entry is met, the functions of [ptr] do what the functions
    by value do on the structs without their nil entries. *)

Lemma omap_id_cons_Some {A} (a : A) (l : list (option A)) :
  omap id (Some a :: l) = a :: omap id l.
Proof. reflexivity. Qed.

Lemma omap_id_cons_None {A} (l : list (option A)) :
  omap id (None :: l) = omap id l.
Proof. reflexivity. Qed.

Lemma range_Done {A B} (f : A -> M B) (l : list (option A)) : forall h r,
  ptr.range f l h = Done r -> mapM f (omap id l) h = r.
Proof.
  induction l as [|p l IH]; intros h r H.
  - by injection H as <-.
  - cbn [ptr.range] in H. unfold mbind, ptr.MP_bind, ptr.deref, ptr.call in H.
    destruct p as [a|]; [|done]. rewrite omap_id_cons_Some. cbn [mapM].
    unfold mbind, M_bind.
    destruct (f a h) as [[b h1]|e]; [|by injection H as <-].
    destruct (ptr.range f l h1) as [r1|] eqn:Hl; [|done].
    rewrite (IH _ _ Hl). destruct r1 as [[bs h2]|e]; by injection H as <-.
Qed.

Lemma default_receiver_Done g rcv h r :
  ptr.default_receiver g rcv h = Done r ->
  default_receiver g (deref_receiver rcv) h = r.
Proof.
  unfold ptr.default_receiver, default_receiver, deref_receiver, mbind, ptr.MP_bind, M_bind.
  cbn [Receiver.Name Receiver.EmailConfigs Receiver.PagerdutyConfigs Receiver.SlackConfigs
       Receiver.WebhookConfigs Receiver.OpsGenieConfigs Receiver.WechatConfigs
       Receiver.PushoverConfigs Receiver.VictorOpsConfigs].
  intros H.
  repeat match type of H with
  | context [ptr.range ?f ?l ?h] =>
    let Hr := fresh "Hr" in let r1 := fresh "r" in
    destruct (ptr.range f l h) as [r1|] eqn:Hr; [|done];
    rewrite (range_Done _ _ _ _ Hr);
    destruct r1 as [[? ?]|?]; [|by injection H as <-]
  end.
  by injection H as <-.
Qed.

Lemma default_receivers_Done g rcvs : forall names h r,
  ptr.default_receivers g rcvs names h = Done r ->
  default_receivers g (deref_receiver <$> omap id rcvs) names h = r.
Proof.
  induction rcvs as [|p rcvs IH]; intros names h r H.
  - by injection H as <-.
  - cbn [ptr.default_receivers] in H. unfold mbind at 1 in H.
    unfold ptr.MP_bind at 1, ptr.deref in H.
    destruct p as [rcv|]; [|done]. rewrite omap_id_cons_Some, fmap_cons.
    cbn [default_receivers].
    change (Receiver.Name (deref_receiver rcv)) with (ptr.Receiver.Name rcv).
    destruct (decide (ptr.Receiver.Name rcv ∈ names)); [by injection H as <-|].
    unfold mbind, ptr.MP_bind, M_bind in H |- *.
    destruct (ptr.default_receiver g rcv h) as [r1|] eqn:Hr; [|done].
    rewrite (default_receiver_Done _ _ _ _ Hr).
    destruct r1 as [[rcv' h1]|e]; [|by injection H as <-].
    destruct (ptr.default_receivers g rcvs _ h1) as [r2|] eqn:Hrs; [|done].
    rewrite (IH _ _ _ Hrs). destruct r2 as [[out h2]|e]; by injection H as <-.
Qed.

Lemma ptr_Route_ind' (P : ptr.Route.t -> Prop) :
  (forall r, Forall (fun p => forall c, p = Some c -> P c) (ptr.Route.Routes r) -> P r) ->
  forall r, P r.
Proof.
  intros H. fix IH 1. intros r. apply H. destruct r as [? ? ? ? ? ? ? routes ? ? ?]. simpl.
  induction routes as [|p routes IHl]; constructor; [|exact IHl].
  destruct p as [c|]; intros c' Heq; [|discriminate].
  replace c' with c by congruence. apply IH.
Qed.

Lemma values_unfold (r : ptr.Route.t) :
  ptr.values r = {|
    Route.Receiver := ptr.Route.Receiver r;
    Route.GroupByStr := ptr.Route.GroupByStr r;
    Route.GroupBy := ptr.Route.GroupBy r;
    Route.GroupByAll := ptr.Route.GroupByAll r;
    Route.Match := ptr.Route.Match r;
    Route.MatchRE := ptr.Route.MatchRE r;
    Route.Continue := ptr.Route.Continue r;
    Route.Routes := ptr.values <$> omap id (ptr.Route.Routes r);
    Route.GroupWait := ptr.Route.GroupWait r;
    Route.GroupInterval := ptr.Route.GroupInterval r;
    Route.RepeatInterval := ptr.Route.RepeatInterval r
  |}.
Proof.
  destruct r as [? ? ? ? ? ? ? routes ? ? ?]. simpl. f_equal.
  induction routes as [|[c|] routes IH]; [done| |done].
  rewrite omap_id_cons_Some, fmap_cons. by f_equal.
Qed.

Lemma deref_routeY_unfold (y : ptr.RouteYAML.t) :
  deref_routeY y = {|
    RouteYAML.Receiver := ptr.RouteYAML.Receiver y;
    RouteYAML.GroupByStr := ptr.RouteYAML.GroupByStr y;
    RouteYAML.Match := ptr.RouteYAML.Match y;
    RouteYAML.MatchRE := ptr.RouteYAML.MatchRE y;
    RouteYAML.Continue := ptr.RouteYAML.Continue y;
    RouteYAML.Routes := deref_routeY <$> omap id (ptr.RouteYAML.Routes y);
    RouteYAML.GroupWait := ptr.RouteYAML.GroupWait y;
    RouteYAML.GroupInterval := ptr.RouteYAML.GroupInterval y;
    RouteYAML.RepeatInterval := ptr.RouteYAML.RepeatInterval y
  |}.
Proof.
  destruct y as [? ? ? ? ? routes ? ? ?]. simpl. f_equal.
  induction routes as [|[c|] routes IH]; [done| |done].
  rewrite omap_id_cons_Some, fmap_cons. by f_equal.
Qed.

(** The hook of a route does on a tree with nil children what it does on the
    tree without them. *)
Lemma Route_UnmarshalYAML_deref (y : ptr.RouteYAML.t) :
  Route_UnmarshalYAML (deref_routeY y) =
  (r ← ptr.Route_UnmarshalYAML y; Ok (ptr.values r)).
Proof.
  induction y as [y IH] using ptr_RouteYAML_ind'.
  rewrite ptr_Route_UnmarshalYAML_unfold, Route_UnmarshalYAML_unfold, deref_routeY_unfold.
  cbn [RouteYAML.Receiver RouteYAML.GroupByStr RouteYAML.Match RouteYAML.MatchRE
       RouteYAML.Continue RouteYAML.Routes RouteYAML.GroupWait RouteYAML.GroupInterval
       RouteYAML.RepeatInterval].
  assert (Hc : mapR Route_UnmarshalYAML (deref_routeY <$> omap id (ptr.RouteYAML.Routes y)) =
               (mapR (ptr.hook ptr.Route_UnmarshalYAML) (ptr.RouteYAML.Routes y) ≫=
                fun rs : list (option ptr.Route.t) => Ok (ptr.values <$> omap id rs))).
  { induction (ptr.RouteYAML.Routes y) as [|p routes IHl]; [done|].
    apply Forall_cons in IH as [Hp IH]. specialize (IHl IH).
    destruct p as [c|].
    - rewrite omap_id_cons_Some, fmap_cons. cbn [mapR ptr.hook].
      rewrite (Hp c eq_refl), IHl.
      destruct (ptr.Route_UnmarshalYAML c) as [r|]; [|done]. cbn [mbind result_bind].
      by destruct (mapR _ routes).
    - rewrite omap_id_cons_None. cbn [mapR ptr.hook]. rewrite IHl.
      by destruct (mapR _ routes). }
  rewrite Hc. clear Hc IH.
  destruct (mapR _ (ptr.RouteYAML.Routes y)) as [rs|]; [|done]. cbn [mbind result_bind].
  destruct (MatchRegexps_UnmarshalYAML _) as [[]|]; [|done]. cbn [mbind result_bind].
  destruct (check_label_names _) as [[]|]; [|done]. cbn [mbind result_bind].
  destruct (group_by_loop _ _ _) as [[gb all]|]; [|done]. cbn [mbind result_bind fst snd].
  destruct ((0 <? length gb)%nat && all); [done|].
  destruct (check_duplicates gb ∅) as [[]|]; [|done]. cbn [mbind result_bind].
  destruct (is_zero _); [done|]. destruct (is_zero _); [done|].
  cbn [mbind result_bind]. by rewrite values_unfold.
Qed.

Lemma each_Done {A B} (f : A -> run unit) (g : B -> result unit) (v : A -> B)
    (ps : list (option A)) x :
  Forall (fun p => forall a, p = Some a -> forall x, f a = Done x -> g (v a) = x) ps ->
  ptr.each f ps = Done x ->
  (_ ← mapR g (v <$> omap id ps); Ok tt) = x.
Proof.
  induction ps as [|p ps IH]; intros Hall H.
  - by injection H as <-.
  - apply Forall_cons in Hall as [Hp Hall]. cbn [ptr.each] in H.
    destruct p as [a|]; [|done]. rewrite omap_id_cons_Some, fmap_cons. cbn [mapR].
    destruct (f a) as [r1|] eqn:Ha; [|done]. rewrite (Hp a eq_refl _ Ha).
    destruct r1 as [[]|e]; [|by injection H as <-].
    specialize (IH Hall H). destruct (mapR g _); [|done]. done.
Qed.

(** [checkReceiver] that does not panic does what it does on the tree by
    value. *)
Lemma checkReceiver_Done (r : ptr.Route.t) names : forall x,
  ptr.checkReceiver r names = Done x -> checkReceiver (ptr.values r) names = x.
Proof.
  induction r as [r IH] using ptr_Route_ind'. intros x H.
  rewrite ptr_checkReceiver_unfold in H.
  rewrite checkReceiver_unfold, values_unfold.
  cbn [Route.Receiver Route.Routes].
  destruct (ptr.each _ (ptr.Route.Routes r)) as [r1|] eqn:He; [|done].
  pose proof (each_Done _ (fun sr => checkReceiver sr names) ptr.values _ _ IH He) as Hm.
  destruct (mapR _ _) as [us|e]; cbn [mbind result_bind] in Hm |- *; subst r1.
  - destruct (String.eqb _ _); [by injection H as <-|].
    destruct (decide _); by injection H as <-.
  - by injection H as <-.
Qed.

Lemma hook_receivers_deref (rcvs : list (option ptr.Receiver.t)) :
  mapR Receiver_UnmarshalYAML (deref_receiver <$> omap id rcvs) =
  (_ ← mapR (ptr.hook ptr.Receiver_UnmarshalYAML) rcvs;
   Ok (deref_receiver <$> omap id rcvs)).
Proof.
  induction rcvs as [|[rcv|] rcvs IH]; [done| |].
  - rewrite omap_id_cons_Some, fmap_cons. cbn [mapR ptr.hook]. rewrite IH.
    unfold ptr.Receiver_UnmarshalYAML, Receiver_UnmarshalYAML.
    change (Receiver.Name (deref_receiver rcv)) with (ptr.Receiver.Name rcv).
    destruct (String.eqb (ptr.Receiver.Name rcv) ""); [done|]. cbn [mbind result_bind].
    by destruct (mapR _ rcvs).
  - rewrite omap_id_cons_None. cbn [mapR ptr.hook]. rewrite IH.
    by destruct (mapR _ rcvs).
Qed.

Lemma unmarshal_plain_deref (d : ptr.ConfigYAML.t) :
  unmarshal_plain (deref_document d) = (c ← ptr.unmarshal_plain d; Ok (deref_config c)).
Proof.
  unfold ptr.unmarshal_plain, unmarshal_plain, deref_document.
  cbn [ConfigYAML.Global ConfigYAML.Route ConfigYAML.InhibitRules ConfigYAML.Receivers
       ConfigYAML.Templates].
  rewrite hook_receivers_deref.
  destruct (ptr.ConfigYAML.Route d) as [ry|]; cbn [option_map ptr.hook].
  - rewrite Route_UnmarshalYAML_deref.
    destruct (ptr.Route_UnmarshalYAML ry) as [r|]; [|done]. cbn [mbind result_bind].
    destruct (mapR InhibitRule_UnmarshalYAML _) as [rules|]; [|done]. cbn [mbind result_bind].
    destruct (mapR (ptr.hook _) _) as [rcvs|] eqn:Hr; [|done]. cbn [mbind result_bind].
    by apply mapR_hook_Receiver in Hr as ->.
  - cbn [mbind result_bind].
    destruct (mapR InhibitRule_UnmarshalYAML _) as [rules|]; [|done]. cbn [mbind result_bind].
    destruct (mapR (ptr.hook _) _) as [rcvs|] eqn:Hr; [|done]. cbn [mbind result_bind].
    by apply mapR_hook_Receiver in Hr as ->.
Qed.

Lemma check_root_deref (route : option ptr.Route.t) :
  check_root (option_map ptr.values route) = (r ← ptr.check_root route; Ok (ptr.values r)).
Proof.
  destruct route as [r|]; [|done]. cbn [option_map]. unfold check_root, ptr.check_root.
  rewrite values_unfold. cbn [Route.Receiver Route.Match Route.MatchRE].
  destruct (String.length (ptr.Route.Receiver r) =? 0)%nat; [done|].
  destruct ((0 <? size (ptr.Route.Match r))%nat || (0 <? size (ptr.Route.MatchRE r))%nat);
    [done|].
  cbn [mbind result_bind]. by rewrite values_unfold.
Qed.

(** [Config.UnmarshalYAML] that does not panic does what it does on the
    document without its nil entries. *)
Lemma Config_UnmarshalYAML_Done (d : ptr.ConfigYAML.t) (h : heap) x :
  ptr.Config_UnmarshalYAML d h = Done x ->
  Config_UnmarshalYAML (deref_document d) h = x.
Proof.
  unfold ptr.Config_UnmarshalYAML, Config_UnmarshalYAML.
  unfold mbind, ptr.MP_bind, M_bind, ptr.call, lift, ptr.pure.
  rewrite unmarshal_plain_deref.
  destruct (ptr.unmarshal_plain d) as [c|]; [|by intros [= <-]].
  cbn [mbind result_bind deref_config Config.Global Config.Receivers Config.Route
       Config.InhibitRules Config.Templates Config.original].
  destruct (match ptr.Config.Global c with Some g => mret g | None => DefaultGlobalConfig end h)
    as [[g h1]|]; [|by intros [= <-]].
  destruct (ptr.default_receivers g _ ∅ h1) as [r1|] eqn:Hrcv; [|done].
  rewrite (default_receivers_Done _ _ _ _ _ Hrcv).
  destruct r1 as [[out h2]|]; [|by intros [= <-]].
  rewrite check_root_deref.
  destruct (ptr.check_root (ptr.Config.Route c)) as [r|] eqn:Hroot; [|by intros [= <-]].
  cbn [mbind result_bind].
  destruct (ptr.checkReceiver r out.2) as [r2|] eqn:Hc; [|done].
  rewrite (checkReceiver_Done _ _ _ Hc).
  destruct r2 as [[]|]; [|by intros [= <-]].
  unfold mret, ptr.MP_ret, M_ret. intros [= <-].
  assert (ptr.Config.Route c = Some r) as ->; [|done].
  unfold ptr.check_root in Hroot. destruct (ptr.Config.Route c) as [r'|]; [|done].
  destruct (_ =? _)%nat; [done|]. destruct (_ || _); [done|]. by injection Hroot as ->.
Qed.

(** [Load] that does not panic returns what it returns on the document
    without its nil entries. *)
Lemma Load_Done (s : string) (d : ptr.ConfigYAML.t) (h : heap) x :
  Load s (Parsed d h) = Done x -> Load s (Document (deref_document d) h) = Done x.
Proof.
  rewrite Load_by_value. unfold Load.
  destruct (ptr.Config_UnmarshalYAML d h) as [r|] eqn:Hu; [|done].
  rewrite (Config_UnmarshalYAML_Done _ _ _ Hu). destruct r as [[cfg h1]|e]; [|done].
  destruct (Config.Route cfg) as [r|]; [|done]. by destruct (Route.Continue r).
Qed.

(** A tree that [checkReceiver] accepts has no nil child. *)
Lemma checked_values (r : ptr.Route.t) names :
  ptr.checkReceiver r names = Ok tt -> ref_route (ptr.values r) = r.
Proof.
  induction r as [r IH] using ptr_Route_ind'. intros H.
  rewrite ptr_checkReceiver_unfold in H.
  destruct (ptr.each _ (ptr.Route.Routes r)) as [[[]|]|] eqn:He; try done.
  apply each_Ok in He. clear H.
  destruct r as [? ? ? ? ? ? ? routes ? ? ?]. simpl in *. f_equal.
  induction routes as [|p routes IHl]; [done|].
  apply Forall_cons in IH as [Hp IH]. apply Forall_cons in He as [(c & -> & Hc) He].
  simpl. rewrite (Hp c eq_refl Hc). f_equal. by apply IHl.
Qed.

Lemma Load_Ok_Document (s : string) (y : ConfigYAML.t) (h : heap) cfg h' :
  Load s (Document y h) = Ok (cfg, h') <->
  exists c g out r,
    before_checkReceiver y h = Ok (c, g, out, r, h') /\
    checkReceiver r out.2 = Ok tt /\
    Route.Continue r = false /\
    cfg = loaded s c g out.1.
Proof.
  rewrite Load_by_value, Config_UnmarshalYAML_split.
  destruct (before_checkReceiver y h) as [[[[[c g] out] r] h1]|e] eqn:Hb.
  2: { split; [done|]. by intros (? & ? & ? & ? & ? & _). }
  assert (Hroute : Config.Route c = Some r).
  { unfold before_checkReceiver in Hb. inv_M Hb. inv_lift.
    match goal with Hc : check_root _ = Ok _ |- _ => by apply check_root_Ok in Hc as [? _] end. }
  destruct (checkReceiver r out.2) as [[]|e] eqn:Hc; simpl.
  2: { split; [done|]. intros (? & ? & ? & ? & [= <- <- <- <- <-] & Hc' & _). congruence. }
  rewrite Hroute. destruct (Route.Continue r) eqn:Hcont.
  - split; [done|]. intros (? & ? & ? & ? & [= <- <- <- <- <-] & _ & Hc' & _). congruence.
  - split.
    + intros [= <- <-]. exists c, g, out, r. repeat split; try done.
      unfold loaded. by rewrite Hroute.
    + intros (? & ? & ? & ? & [= <- <- <- <- <-] & _ & _ & ->).
      unfold loaded. by rewrite Hroute.
Qed.

Lemma Load_Ok (s : string) (input : decoded) (cfg : Config.t) (h' : heap) :
  Load s input = Ok (cfg, h') <->
  exists y h c g out r,
    input = Document y h /\
    before_checkReceiver y h = Ok (c, g, out, r, h') /\
    checkReceiver r out.2 = Ok tt /\
    Route.Continue r = false /\
    cfg = loaded s c g out.1.
Proof.
  split.
  - intros HL. destruct (Load_met_no_nil _ _ _ _ HL) as (y & h & ->).
    apply Load_Ok_Document in HL as (c & g & out & r & ?). by exists y, h, c, g, out, r.
  - intros (y & h & c & g & out & r & -> & H). apply Load_Ok_Document. eauto.
Qed.

Lemma Load_Document (s : string) (y : ConfigYAML.t) (h : heap) :
  Load s (Document y h) =
  match before_checkReceiver y h with
  | Err e => Err e
  | Ok (c, g, out, r, h1) =>
    match checkReceiver r out.2 with
    | Err e => Err e
    | Ok _ =>
      if Route.Continue r then Err ContinueInRootRoute
      else Ok (loaded s c g out.1, h1)
    end
  end.
Proof.
  rewrite Load_by_value, Config_UnmarshalYAML_split.
  destruct (before_checkReceiver y h) as [[[[[c g] out] r] h1]|e] eqn:Hb; [|done].
  assert (Hroute : Config.Route c = Some r).
  { unfold before_checkReceiver in Hb. inv_M Hb. inv_lift.
    match goal with Hc : check_root _ = Ok _ |- _ => by apply check_root_Ok in Hc as [? _] end. }
  destruct (checkReceiver r out.2); [|done]. simpl. rewrite Hroute.
  destruct (Route.Continue r); [done|]. unfold loaded. by rewrite Hroute.
Qed.

Lemma before_checkReceiver_Ok (y : ConfigYAML.t) h c g out r h1 :
  before_checkReceiver y h = Ok (c, g, out, r, h1) ->
  unmarshal_plain y = Ok c /\
  (forall g0, ConfigYAML.Global y = Some g0 -> g = g0) /\
  (exists h0, default_receivers g (ConfigYAML.Receivers y) ∅ h0 = Ok (out, h1)) /\
  check_root (Config.Route c) = Ok r /\
  exists ry, ConfigYAML.Route y = Some ry /\ Route_UnmarshalYAML ry = Ok r.
Proof.
  unfold before_checkReceiver. intros Hb. inv_M Hb. inv_lift.
  match goal with Hu : unmarshal_plain _ = Ok _ |- _ =>
    pose proof (unmarshal_plain_Ok _ _ Hu) as (Hg & Hr & _ & Hroute) end.
  match goal with Hc : check_root _ = Ok _ |- _ =>
    pose proof (proj1 (check_root_Ok _ _) Hc) as (Hsome & _) end.
  rewrite Hr in *. repeat split; try done.
  - intros g0 Hg0. rewrite Hg, Hg0 in Hstep0. by inv_lift.
  - eauto.
  - destruct (ConfigYAML.Route y) as [ry|]; [|congruence].
    destruct Hroute as (r' & Hr' & Hh). exists ry. split; [done|]. congruence.
Qed.

Lemma Load_total (s : string) (y : ConfigYAML.t) (h : heap) :
  (exists cfg h', Load s (Document y h) = Ok (cfg, h')) \/
  (exists e, Load s (Document y h) = Err e).
Proof.
  rewrite Load_by_value. destruct (Config_UnmarshalYAML y h) as [[cfg h1]|e]; [|eauto].
  destruct (Config.Route cfg) as [r|]; [|eauto]. destruct (Route.Continue r); eauto.
Qed.


Lemma hooked_nodes_lookup (ry : RouteYAML.t) (r : Route.t) :
  Route_UnmarshalYAML ry = Ok r ->
  (forall node, node ∈ nodesY ry -> exists n, n ∈ nodes r /\ hooked node n) /\
  (forall n, n ∈ nodes r -> exists node, node ∈ nodesY ry /\ hooked node n).
Proof.
  intros H%hooked_nodes. split.
  - intros node [i Hi]%list_elem_of_lookup_1.
    destruct (Forall2_lookup_l _ _ _ _ _ H Hi) as (n & Hn & Hh).
    exists n. split; [by eapply list_elem_of_lookup_2|done].
  - intros n [i Hi]%list_elem_of_lookup_1.
    destruct (Forall2_lookup_r _ _ _ _ _ H Hi) as (node & Hn & Hh).
    exists node. split; [by eapply list_elem_of_lookup_2|done].
Qed.





Lemma ensure_slash_path (l : loc) (h : heap) u h' :
  ensure_slash l h = Ok (u, h') ->
  Path (cells h' l) = with_slash (Path (cells h l)).
Proof.
  unfold ensure_slash, with_slash, mbind, M_bind, load. simpl.
  destruct (HasSuffix (Path (cells h l)) "/").
  - by intros [= _ <-].
  - intros [= _ <-]. simpl. by rewrite fn_lookup_insert.
Qed.





Lemma Route_UnmarshalYAML_total (y : RouteYAML.t) :
  (exists r, Route_UnmarshalYAML y = Ok r) \/ (exists e, Route_UnmarshalYAML y = Err e).
Proof. destruct (Route_UnmarshalYAML y); eauto. Qed.

(** A successful load has run the hook of every route node. *)
Lemma Load_Ok_hooked (s : string) (y : ConfigYAML.t) (h : heap) cfg h' ry :
  Load s (Document y h) = Ok (cfg, h') -> ConfigYAML.Route y = Some ry ->
  exists r, Config.Route cfg = Some r /\ Route_UnmarshalYAML ry = Ok r /\
            Forall2 hooked (nodesY ry) (nodes r).
Proof.
  intros (y' & h0 & c & g & out & r & [<- <-]%Document_inj & Hb & _ & _ & ->)%Load_Ok Hry.
  apply before_checkReceiver_Ok in Hb as (_ & _ & _ & Hroot & ry' & Hry' & Hhook).
  assert (ry' = ry) as -> by congruence.
  apply check_root_Ok in Hroot as [Hsome _].
  exists r. split; [done|]. split; [done|]. by apply hooked_nodes.
Qed.

Lemma Load_fails_with_node (s : string) (y : ConfigYAML.t) (h : heap) ry node :
  ConfigYAML.Route y = Some ry -> node ∈ nodesY ry ->
  (forall r, Route_UnmarshalYAML node <> Ok r) ->
  exists e, Load s (Document y h) = Err e.
Proof.
  intros Hry Hnode Hfail.
  destruct (Load_total s y h) as [(cfg & h' & HL)|He]; [|done].
  exfalso. destruct (Load_Ok_hooked _ _ _ _ _ _ HL Hry) as (r & _ & _ & Hall).
  apply list_elem_of_lookup_1 in Hnode as [i Hi].
  destruct (Forall2_lookup_l _ _ _ _ _ Hall Hi) as (n & _ & Hh).
  apply Route_UnmarshalYAML_Ok in Hh. by apply (Hfail n).
Qed.

Lemma zero_group_interval_rejected (y : RouteYAML.t) :
  RouteYAML.GroupInterval y = Some 0%Z -> forall r, Route_UnmarshalYAML y <> Ok r.
Proof.
  intros H0 r Hh%Route_UnmarshalYAML_Ok.
  pose proof (hooked_group_interval _ _ Hh) as Hz. by rewrite H0 in Hz.
Qed.

Lemma zero_repeat_interval_rejected (y : RouteYAML.t) :
  RouteYAML.RepeatInterval y = Some 0%Z -> forall r, Route_UnmarshalYAML y <> Ok r.
Proof.
  intros H0 r Hh%Route_UnmarshalYAML_Ok.
  pose proof (hooked_repeat_interval _ _ Hh) as Hz. by rewrite H0 in Hz.
Qed.

Lemma is_zero_false (d : option Duration) : is_zero d = false <-> d <> Some 0%Z.
Proof.
  destruct d as [n|]; simpl; [|split; done].
  rewrite Z.eqb_neq. split; [congruence|]. intros H ->. done.
Qed.

(** C6 (amended): a [group_interval] or a [repeat_interval] that is present
    and zero fails the hook of its node and with it the load, at any depth;
    after a successful load the three durations of every node are the ones
    of the document, so an absent duration stays nil, and neither
    [group_interval] nor [repeat_interval] is zero.  [group_wait] is not
    looked at. *)
Theorem C6_zero_intervals_rejected :
  (forall y : RouteYAML.t,
     RouteYAML.GroupInterval y = Some 0%Z \/ RouteYAML.RepeatInterval y = Some 0%Z ->
     exists e, Route_UnmarshalYAML y = Err e) /\
  (forall (s : string) (y : ConfigYAML.t) (h : heap) (ry node : RouteYAML.t),
     ConfigYAML.Route y = Some ry -> node ∈ nodesY ry ->
     RouteYAML.GroupInterval node = Some 0%Z \/
       RouteYAML.RepeatInterval node = Some 0%Z ->
     exists e, Load s (Document y h) = Err e) /\
  (forall (s : string) (y : ConfigYAML.t) (h : heap) cfg h' (ry : RouteYAML.t),
     Load s (Document y h) = Ok (cfg, h') -> ConfigYAML.Route y = Some ry ->
     exists r, Config.Route cfg = Some r /\
       Forall2 (fun node n =>
           Route.GroupWait n = RouteYAML.GroupWait node /\
           Route.GroupInterval n = RouteYAML.GroupInterval node /\
           Route.RepeatInterval n = RouteYAML.RepeatInterval node /\
           Route.GroupInterval n <> Some 0%Z /\
           Route.RepeatInterval n <> Some 0%Z)
         (nodesY ry) (nodes r)).
Proof.
  assert (Hnode : forall y : RouteYAML.t,
     RouteYAML.GroupInterval y = Some 0%Z \/ RouteYAML.RepeatInterval y = Some 0%Z ->
     forall r, Route_UnmarshalYAML y <> Ok r).
  { intros y [H|H]; [by apply zero_group_interval_rejected
                    |by apply zero_repeat_interval_rejected]. }
  refine (conj _ (conj _ _)).
  - intros y H. destruct (Route_UnmarshalYAML_total y) as [[r Hr]|He]; [|done].
    by destruct (Hnode y H r).
  - intros s y h ry node Hry Hin H. eapply Load_fails_with_node; eauto.
  - intros s y h cfg h' ry HL Hry.
    destruct (Load_Ok_hooked _ _ _ _ _ _ HL Hry) as (r & Hr & _ & Hall).
    exists r. split; [done|]. eapply Forall2_impl; [exact Hall|].
    intros node n Hh. simpl.
    rewrite (hooked_GroupWait _ _ Hh), (hooked_GroupInterval _ _ Hh),
            (hooked_RepeatInterval _ _ Hh).
    repeat split; apply is_zero_false;
      [apply (hooked_group_interval _ _ Hh)|apply (hooked_repeat_interval _ _ Hh)].
Qed.

Lemma group_by_loop_Ok (ls : list string) : forall gb all gb' all',
  group_by_loop ls gb all = Ok (gb', all') ->
  gb' = gb ++ explicit_labels ls /\
  all' = all || bool_decide ("..." ∈ ls).
Proof.
  induction ls as [|l ls IH]; intros gb all gb' all' H; simpl in H.
  - injection H as <- <-. unfold explicit_labels. simpl.
    rewrite app_nil_r. split; [done|]. by destruct all.
  - destruct (String.eqb_spec l "...") as [->|Hne].
    + apply IH in H as [-> ->]. unfold explicit_labels. rewrite filter_cons_False by naive_solver.
      split; [done|]. rewrite (bool_decide_eq_true_2 ("..." ∈ "..." :: ls)) by left.
      by destruct all.
    + destruct (LabelName_IsValid l); [|done]. simpl in H.
      apply IH in H as [-> ->]. unfold explicit_labels.
      rewrite filter_cons_True by done. rewrite <- app_assoc. split; [done|].
      f_equal. apply bool_decide_ext. rewrite elem_of_cons. naive_solver.
Qed.

Lemma check_duplicates_Ok_strong (lns : list string) : forall seen,
  check_duplicates lns seen = Ok tt ->
  NoDup lns /\ forall x, x ∈ lns -> x ∉ seen.
Proof.
  induction lns as [|ln lns IH]; intros seen H; simpl in H.
  - split; [constructor|]. intros x Hx. by apply not_elem_of_nil in Hx.
  - destruct (decide (ln ∈ seen)) as [|Hln]; [done|].
    apply IH in H as [Hnd Hseen]. split.
    + constructor; [|done]. intros Hin. apply (Hseen ln Hin). set_solver.
    + intros x [->|Hx]%elem_of_cons; [done|]. specialize (Hseen x Hx). set_solver.
Qed.

Lemma check_duplicates_Ok (lns : list string) (seen : gset string) :
  check_duplicates lns seen = Ok tt -> NoDup lns.
Proof. by intros [? _]%check_duplicates_Ok_strong. Qed.

Lemma wildcard_with_label_rejected (y : RouteYAML.t) :
  wildcard_with_label (RouteYAML.GroupByStr y) ->
  forall r, Route_UnmarshalYAML y <> Ok r.
Proof.
  intros [Hw (l & Hl & Hne)] r Hh%Route_UnmarshalYAML_Ok.
  destruct (group_by_loop_Ok _ _ _ _ _ (hooked_group_by _ _ Hh)) as [Hgb Hall].
  pose proof (hooked_wildcard _ _ Hh) as Hc.
  rewrite Hall, Hgb in Hc. simpl in Hc.
  rewrite (bool_decide_eq_true_2 _ Hw), andb_true_r in Hc.
  apply Nat.ltb_ge in Hc.
  assert (Hin : l ∈ explicit_labels (RouteYAML.GroupByStr y)).
  { unfold explicit_labels. by apply list_elem_of_filter. }
  destruct (explicit_labels (RouteYAML.GroupByStr y)); [by apply not_elem_of_nil in Hin|].
  simpl in Hc. lia.
Qed.

Lemma label_twice_rejected (y : RouteYAML.t) :
  label_twice (RouteYAML.GroupByStr y) ->
  forall r, Route_UnmarshalYAML y <> Ok r.
Proof.
  intros (l & l1 & l2 & l3 & Hne & Hls) r Hh%Route_UnmarshalYAML_Ok.
  destruct (group_by_loop_Ok _ _ _ _ _ (hooked_group_by _ _ Hh)) as [Hgb _].
  pose proof (check_duplicates_Ok _ _ (hooked_duplicates _ _ Hh)) as Hnd.
  rewrite Hgb, Hls in Hnd. simpl in Hnd. unfold explicit_labels in Hnd.
  rewrite filter_app, filter_cons_True, filter_app, filter_cons_True in Hnd by done.
  apply NoDup_app in Hnd as (_ & _ & Hnd).
  apply NoDup_cons in Hnd as [Hnin _]. apply Hnin. set_solver.
Qed.




(** *** The SMTP smarthost *)





Lemma before_checkReceiver_global (y : ConfigYAML.t) h c g out r h1 :
  before_checkReceiver y h = Ok (c, g, out, r, h1) ->
  match ConfigYAML.Global y with
  | Some g0 => g = g0
  | None => exists h0, DefaultGlobalConfig h = Ok (g, h0)
  end.
Proof.
  unfold before_checkReceiver. intros Hb. inv_M Hb. inv_lift.
  match goal with Hu : unmarshal_plain _ = Ok _ |- _ =>
    pose proof (unmarshal_plain_Ok _ _ Hu) as (Hg & _) end.
  rewrite Hg in Hstep0. destruct (ConfigYAML.Global y); [by inv_lift|eauto].
Qed.


Section Smarthost.
Variables (g : GlobalConfig.t) (hp : HostPort).
Hypothesis g_unset : HostPort_String (GlobalConfig.SMTPSmarthost g) = "".





End Smarthost.



End LoadFacts.

(** ** Runs on the sample documents *)

Example good_document_loads :
  exists cfg h,
    config.Load "text" (config.Document good_document sample_heap) = config.Ok (cfg, h) /\
    (config.Receiver.EmailConfigs <$> config.Config.Receivers cfg) !! 0 =
      Some [ {| config.EmailConfig.Smarthost := example_smarthost;
                config.EmailConfig.From := "alertmanager@example.com";
                config.EmailConfig.Hello := "localhost";
                config.EmailConfig.AuthUsername := "";
                config.EmailConfig.AuthPassword := "";
                config.EmailConfig.AuthSecret := "";
                config.EmailConfig.AuthIdentity := "";
                config.EmailConfig.RequireTLS := Some true |} ] /\
    config.Path (config.cells h 0) = "/v2/" /\
    config.Path (config.cells h 1) = "/" /\
    config.Path (config.cells h 2) = "/cgi-bin/" /\
    config.Config.original cfg = "text".
Proof. do 2 eexists. vm_compute. repeat split. Qed.

Ltac by_decision :=
  match goal with
  | |- ?P => apply (bool_decide_unpack P); vm_compute; exact I
  end.

Ltac loaded_or_absurd HL :=
  match goal with
  | |- context [config.Load ?s ?input] =>
    destruct (config.Load s input) as [[[? ?]|?]|] eqn:HL;
    [|vm_compute in HL; discriminate HL..]
  end.



Example rootless_documents_rejected :
  config.Load (RL := toyRegexp) "" config.EmptyInput = config.Err config.NoRouteInConfig /\
  config.Load "text"
    (config.Document
       (sample_document example_smarthost
          (route_node "" ["..."] ∅ None None [])) sample_heap)
    = config.Err config.RootWithoutReceiver /\
  config.Load "text"
    (config.Document
       (sample_document example_smarthost
          (route_node "default" [] {[ "severity" := "critical" ]} None None []))
       sample_heap)
    = config.Err config.RootWithMatchers.
Proof. vm_compute. repeat split. Qed.



(** C6, the claim as stated, fails for [group_wait]: the document whose
    child route has [group_wait: 0s] loads, and the zero stays. *)
Lemma C6_zero_group_wait_loads :
  exists cfg h root child,
    config.Load "text" (config.Document good_document sample_heap) = config.Ok (cfg, h) /\
    config.Config.Route cfg = Some root /\
    config.Route.Routes root = [child] /\
    config.Route.GroupWait child = Some 0%Z.
Proof. do 4 eexists. vm_compute. repeat split. Qed.

(** The load stops at the first error: a root route with matchers hides the
    undeclared receiver of its child. *)
Example first_error_ends_the_load :
  config.Load "text"
    (config.Document
       (sample_document example_smarthost
          (route_node "default" [] {[ "team" := "x" ]} None None
             [ route_node "ghost" [] ∅ None None [] ]))
       sample_heap)
    = config.Err config.RootWithMatchers.
Proof. vm_compute. reflexivity. Qed.

Lemma C6_zero_intervals_rejected_witness :
  exists e,
    config.Load "text" (config.Document zero_interval_document sample_heap)
    = config.Err e /\ e = config.GroupIntervalZero.
Proof.
  destruct (proj1 (proj2 (C6_zero_intervals_rejected (RL := toyRegexp)))
              "text" zero_interval_document sample_heap
              (sample_route "pager" ["alertname"] None (Some 0%Z))
              (route_node "pager" ["alertname"] {[ "severity" := "critical" ]}
                 None (Some 0%Z) []))
    as (e & HL).
  - reflexivity.
  - apply list_elem_of_In. simpl. auto.
  - left. reflexivity.
  - exists e. split; [exact HL|]. vm_compute in HL. congruence.
Defined.



Example group_by_errors :
  config.Load "text" (config.Document mixed_group_by_document sample_heap)
    = config.Err config.WildcardWithLabels /\
  config.Load "text" (config.Document twice_group_by_document sample_heap)
    = config.Err (config.DuplicatedGroupByLabel "service") /\
  exists cfg h root,
    config.Load "text" (config.Document good_document sample_heap) = config.Ok (cfg, h) /\
    config.Config.Route cfg = Some root /\
    config.Route.GroupByStr root = ["..."] /\
    config.Route.GroupByAll root = true /\
    config.Route.GroupBy root = [].
Proof. split; [|split]; [vm_compute; reflexivity..|]. do 3 eexists. vm_compute. repeat split. Qed.


(** ** Secrets *)

(** C9: a secret that is set marshals to the placeholder [<secret>], to YAML
    and (in its JSON encoding) to JSON, whatever its value; so does a secret
    URL that is set; unmarshaling the placeholder into a secret URL gives
    the empty URL without calling the URL parser (the result is the same for
    every parser); hence marshaling a set secret URL and unmarshaling the
    result succeeds and gives the empty URL. *)
Theorem C9_secrets_are_redacted {U : config.URLLib} {J : config.JSONLib} :
  (forall s : config.Secret,
     s <> "" ->
     config.Secret_MarshalYAML s = Some config.secretToken /\
     config.Secret_MarshalJSON s = config.secretTokenJSON) /\
  (forall u : config.url_URL,
     config.SecretURL_MarshalYAML (Some u) = Some config.secretToken /\
     config.SecretURL_MarshalJSON (Some u) = config.secretTokenJSON) /\
  config.SecretURL_UnmarshalYAML (Some config.secretToken)
    = config.Ok (Some config.empty_URL) /\
  config.SecretURL_UnmarshalJSON config.secretTokenJSON
    = config.Ok (Some config.empty_URL) /\
  config.SecretURL_UnmarshalJSON config.secretToken
    = config.Ok (Some config.empty_URL) /\
  (forall (u : config.url_URL) (text : string),
     config.SecretURL_MarshalYAML (Some u) = Some text ->
     config.SecretURL_UnmarshalYAML (Some text) = config.Ok (Some config.empty_URL)) /\
  (forall u : config.url_URL,
     config.SecretURL_UnmarshalJSON (config.SecretURL_MarshalJSON (Some u))
     = config.Ok (Some config.empty_URL)).
Proof.
  assert (Hjson : config.SecretURL_UnmarshalJSON config.secretTokenJSON
                  = config.Ok (Some config.empty_URL)).
  { unfold config.SecretURL_UnmarshalJSON.
    by rewrite (String.eqb_refl config.secretTokenJSON), orb_true_r. }
  refine (conj _ (conj _ (conj _ (conj Hjson (conj _ (conj _ _)))))).
  - intros s Hs. split; [|reflexivity]. unfold config.Secret_MarshalYAML.
    by destruct (String.eqb_spec s "").
  - intros u. split; reflexivity.
  - reflexivity.
  - reflexivity.
  - intros u text [= <-]. reflexivity.
  - intros u. exact Hjson.
Qed.

Lemma C9_secrets_are_redacted_witness :
  config.Secret_MarshalYAML "hunter2" = Some "<secret>" /\
  @config.Secret_MarshalJSON config.toyJSON "hunter2"
    = @config.secretTokenJSON config.toyJSON.
Proof.
  apply (proj1 (@C9_secrets_are_redacted config.toyURL config.toyJSON) "hunter2").
  discriminate.
Defined.

(** The placeholder is not something the URL hook would accept: parsed as a
    URL it has no scheme. *)
Example placeholder_is_not_a_URL :
  @config.URL_UnmarshalYAML config.toyURL (Some config.secretToken)
    = config.Err (config.UnsupportedScheme "") /\
  @config.SecretURL_UnmarshalYAML config.toyURL (Some config.secretToken)
    = config.Ok (Some config.empty_URL) /\
  @config.SecretURL_UnmarshalYAML config.toyURL (Some "https://hooks.example.com/T0")
    = config.Ok (Some {| config.Scheme := "https"; config.Host := "hooks.example.com";
                         config.Path := "/T0" |}).
Proof. vm_compute. repeat split. Qed.

(** * More of package [types] *)

Section MoreMatchers.
Context {RL : RegexpLib}.
Import types.

(** A matcher on which [Match] can be called: a regular-expression matcher
    has its compiled expression. *)
Definition initialised (m : Matcher) : Prop :=
  IsRegex m = true -> is_Some (regex m).

(** The verdict of an initialised matcher. *)
Definition verdict (m : Matcher) (lset : gmap string string) : bool :=
  if IsRegex m then
    match regex m with
    | Some re => MatchString re (label lset (Name m))
    | None => false
    end
  else String.eqb (label lset (Name m)) (Value m).

Lemma Match_initialised (m : Matcher) lset :
  initialised m -> Match m lset = (Returns (verdict m lset), []).
Proof.
  unfold initialised, Match, verdict. destruct (IsRegex m); [|done].
  intros [re ->]; done.
Qed.

Lemma Matchers_Match_initialised (ms : list Matcher) lset :
  Forall initialised ms ->
  Matchers_Match ms lset = (Returns (forallb (fun m => verdict m lset) ms), []).
Proof.
  induction 1 as [|m ms Hm _ IH]; [done|]. cbn [Matchers_Match forallb].
  rewrite (Match_initialised m lset Hm). unfold mbind, Run_bind.
  destruct (verdict m lset); simpl; [|done]. by rewrite IH.
Qed.

Lemma forallb_Permutation {A} (f : A -> bool) (l1 l2 : list A) :
  l1 ≡ₚ l2 -> forallb f l1 = forallb f l2.
Proof.
  induction 1 as [|x l1 l2 _ IH|x y l|l1 l2 l3 _ IH1 _ IH2]; simpl.
  - done.
  - by rewrite IH.
  - by destruct (f x), (f y).
  - congruence.
Qed.

(** X1: [Matchers.Match] is the conjunction of its matchers: on a set whose
    regular-expression matchers are all initialised it returns without
    compiling anything, and returns true exactly when every matcher matches;
    the empty set matches every label set; the verdict does not depend on the
    order of the set, so sorting with [NewMatchers] does not change it; and a
    matcher that fails ends the loop, whatever follows it. *)
Theorem Matchers_Match_is_conjunction {S : MatchersSort} :
  (forall lset, Matchers_Match [] lset = (Returns true, [])) /\
  (forall ms lset,
     Forall initialised ms ->
     exists b, Matchers_Match ms lset = (Returns b, []) /\
       (b = true <-> Forall (fun m => result_of (Match m lset) = Returns true) ms)) /\
  (forall ms1 ms2 lset,
     Forall initialised ms1 -> ms1 ≡ₚ ms2 ->
     Matchers_Match ms1 lset = Matchers_Match ms2 lset) /\
  (forall ms lset,
     Forall initialised ms ->
     Matchers_Match (NewMatchers ms) lset = Matchers_Match ms lset) /\
  (forall m ms lset,
     result_of (Match m lset) = Returns false ->
     compiled_by (Match m lset) = [] ->
     Matchers_Match (m :: ms) lset = (Returns false, [])).
Proof.
  refine (conj _ (conj _ (conj _ (conj _ _)))).
  - done.
  - intros ms lset Hall. eexists. split; [by apply Matchers_Match_initialised|].
    rewrite forallb_forall, Forall_forall. split.
    + intros H m Hm. rewrite Match_initialised by (by eapply (proj1 (Forall_forall _ _) Hall)).
      unfold result_of. simpl. f_equal. apply H. by apply list_elem_of_In.
    + intros H m Hm%list_elem_of_In. specialize (H m Hm).
      rewrite Match_initialised in H by (by eapply (proj1 (Forall_forall _ _) Hall)).
      by injection H.
  - intros ms1 ms2 lset Hall Hp.
    rewrite (Matchers_Match_initialised ms1) by done.
    rewrite (Matchers_Match_initialised ms2) by (by rewrite <- Hp).
    by rewrite (forallb_Permutation _ _ _ Hp).
  - intros ms lset Hall.
    rewrite (Matchers_Match_initialised ms) by done.
    rewrite (Matchers_Match_initialised (NewMatchers ms))
      by (unfold NewMatchers; by rewrite sort_Sort_perm).
    apply f_equal2; [|done]. f_equal. apply forallb_Permutation, sort_Sort_perm.
  - intros m ms lset Hr Hc. cbn [Matchers_Match].
    destruct (Match m lset) as [o w]. unfold result_of, compiled_by in *. simpl in *.
    subst. reflexivity.
Qed.

(** X2: [Less] is a strict order that is total on the fields it reads: it is
    irreflexive, asymmetric and transitive, two matchers that it does not
    separate have the same name, value and regex-ness, and "not less" is
    transitive too, which is what [sort.Sort] needs. *)
Theorem Less_strict_total_order :
  (forall a : Matcher, Less a a = false) /\
  (forall a b : Matcher, Less a b = true -> Less b a = false) /\
  (forall a b c : Matcher, Less a b = true -> Less b c = true -> Less a c = true) /\
  (forall a b : Matcher, Less a b = false -> Less b a = false -> key a = key b) /\
  (forall a b c : Matcher, Less b a = false -> Less c b = false -> Less c a = false).
Proof.
  refine (conj _ (conj Less_asym (conj _ (conj _ _)))).
  - intros a. rewrite Less_key. apply key_lt_irrefl.
  - intros a b c. rewrite !Less_key. apply key_lt_trans.
  - intros a b. rewrite !Less_key. apply key_lt_total.
  - intros a b c. rewrite !Less_key. intros H1 H2.
    exact (key_le_trans (key a) (key b) (key c) H1 H2).
Qed.

(** X3: [NewMatchers] gives a canonical order: two slices holding the same
    matchers in any order come out with the same sequence of name, value and
    regex-ness, also when two different sorts that keep the promise of
    [sort.Sort] are used. *)
Theorem NewMatchers_canonical (S1 S2 : MatchersSort) (ms1 ms2 : list Matcher) :
  ms1 ≡ₚ ms2 ->
  key <$> NewMatchers (S := S1) ms1 = key <$> NewMatchers (S := S2) ms2.
Proof.
  intros Hp. apply sorted_keys_unique.
  - apply sort_Sort_sorted.
  - apply sort_Sort_sorted.
  - unfold NewMatchers. by rewrite !sort_Sort_perm.
Qed.

(** A second sort that keeps the promise of [sort.Sort]: the merge sort of
    stdpp, on "not greater". *)
Definition not_greater (a b : Matcher) : Prop := Less b a = false.

#[local] Instance not_greater_dec a b : Decision (not_greater a b).
Proof. unfold not_greater. apply _. Defined.

#[local] Instance not_greater_total : Total not_greater.
Proof.
  intros a b. unfold not_greater. destruct (Less b a) eqn:H; [|by left].
  right. by apply Less_asym.
Qed.

Lemma Sorted_not_greater_IsSorted (ms : list Matcher) :
  Sorted not_greater ms -> IsSorted ms = true.
Proof.
  induction 1 as [|a ms Hs IH Hhd]; [done|].
  destruct ms as [|b ms]; [done|].
  change (IsSorted (a :: b :: ms)) with (negb (Less b a) && IsSorted (b :: ms)).
  inversion Hhd as [|? ? Hab]; subst. unfold not_greater in Hab.
  by rewrite Hab, IH.
Qed.

Definition merging : MatchersSort := {|
  sort_Sort := merge_sort not_greater;
  sort_Sort_perm := merge_sort_Permutation not_greater;
  sort_Sort_sorted := fun ms =>
    Sorted_not_greater_IsSorted _ (Sorted_merge_sort not_greater ms)
|}.

End MoreMatchers.

(** Matchers on the label [job] and [instance], all initialised. *)
Definition ready_matchers : list (@types.Matcher toyRegexp) :=
  [ {| types.Name := "job"; types.Value := "api.*"; types.IsRegex := true;
       types.regex := @Compile toyRegexp "^(?:api.*)$" |};
    types.NewMatcher "job" "api-1";
    types.NewMatcher "instance" "web" ].

Lemma Matchers_Match_is_conjunction_witness :
  types.Matchers_Match (types.NewMatchers (S := insertion) ready_matchers)
    {[ "job" := "api-1"; "instance" := "web" ]}
  = (types.Returns true, []).
Proof.
  rewrite (proj1 (proj2 (proj2 (proj2 (Matchers_Match_is_conjunction (S := insertion)))))
             ready_matchers).
  - vm_compute. reflexivity.
  - repeat constructor; intros H; first [discriminate H | vm_compute; eauto].
Defined.

Lemma Less_strict_total_order_witness :
  types.Less (types.NewMatcher (RL := toyRegexp) "instance" "web")
             (types.NewMatcher "job" "a") = true.
Proof.
  apply (proj1 (proj2 (proj2 (Less_strict_total_order (RL := toyRegexp))))
           _ (types.NewMatcher "job" "") _); reflexivity.
Defined.

Lemma NewMatchers_canonical_witness :
  types.key <$> types.NewMatchers (S := insertion) ready_matchers =
  types.key <$> types.NewMatchers (S := merging) (reverse ready_matchers).
Proof.
  apply NewMatchers_canonical. symmetry. apply reverse_Permutation.
Defined.

(** * More of package [config]: what an error says *)

Section Errors.
Context {RL : RegexpLib}.
Import config.

(** [x] stands at two places of [l]. *)
Definition twice (x : string) (l : list string) : Prop :=
  exists l1 l2 l3, l = l1 ++ x :: l2 ++ x :: l3.

Lemma check_label_names_Err {V} (m : gmap string V) e :
  check_label_names m = Err e ->
  exists k, e = InvalidLabelName k /\ is_Some (m !! k) /\ LabelName_IsValid k = false.
Proof.
  unfold check_label_names.
  destruct (filter _ _) as [|k l] eqn:Hf; [done|].
  intros [= <-]. exists k. split; [done|].
  assert (Hk : k ∈ filter (fun k => LabelName_IsValid k = false)
                          (map fst (map_to_list m))) by (rewrite Hf; left).
  apply list_elem_of_filter in Hk as [Hinv Hk]. split; [|done].
  apply list_elem_of_In, in_map_iff in Hk as ([k' v] & <- & Hkv).
  apply list_elem_of_In, elem_of_map_to_list in Hkv. eauto.
Qed.

Lemma check_label_names_Ok {V} (m : gmap string V) k :
  check_label_names m = Ok tt -> is_Some (m !! k) -> LabelName_IsValid k = true.
Proof.
  unfold check_label_names.
  destruct (filter _ _) as [|k' l] eqn:Hf; [|done].
  intros _ [v Hv]. destruct (LabelName_IsValid k) eqn:Hk; [done|].
  assert (Hin : k ∈ filter (fun k => LabelName_IsValid k = false)
                           (map fst (map_to_list m))).
  { apply list_elem_of_filter. split; [done|].
    apply list_elem_of_In, in_map_iff. exists (k, v). split; [done|].
    by apply list_elem_of_In, elem_of_map_to_list. }
  rewrite Hf in Hin. by apply elem_of_nil in Hin.
Qed.

Lemma MatchRegexps_Err (m : gmap string Regexp_.t) e :
  MatchRegexps_UnmarshalYAML m = Err e ->
  exists k re, m !! k = Some re /\
    ((e = InvalidLabelName k /\ LabelName_IsValid k = false) \/
     (e = InvalidRegexpValue k /\ Regexp_.compiled re = None)).
Proof.
  unfold MatchRegexps_UnmarshalYAML. destruct (mapR _ _) as [?|e'] eqn:Hm; [done|].
  intros [= <-]. apply mapR_Err_elem in Hm as ([k re] & Hin & Hc).
  apply elem_of_map_to_list in Hin. exists k, re. split; [done|].
  unfold MatchRegexps_check in Hc. simpl in Hc.
  destruct (LabelName_IsValid k); simpl in Hc.
  - destruct (Regexp_.compiled re); [done|]. injection Hc as <-. by right.
  - injection Hc as <-. by left.
Qed.

Lemma MatchRegexps_Ok (m : gmap string Regexp_.t) k re :
  MatchRegexps_UnmarshalYAML m = Ok tt -> m !! k = Some re ->
  LabelName_IsValid k = true /\ is_Some (Regexp_.compiled re).
Proof.
  unfold MatchRegexps_UnmarshalYAML. destruct (mapR _ _) as [us|e'] eqn:Hm; [|done].
  intros _ Hk. apply mapR_Ok_Forall2 in Hm.
  apply elem_of_map_to_list in Hk.
  apply list_elem_of_lookup in Hk as [i Hi].
  destruct (Forall2_lookup_l _ _ _ _ _ Hm Hi) as (u & _ & Hc).
  unfold MatchRegexps_check in Hc. simpl in Hc.
  destruct (LabelName_IsValid k); simpl in Hc; [|done].
  destruct (Regexp_.compiled re); [eauto|done].
Qed.

Lemma group_by_loop_Err (ls : list string) : forall gb all e,
  group_by_loop ls gb all = Err e ->
  exists l, e = InvalidGroupByLabel l /\ l ∈ ls /\ l <> "..." /\
            LabelName_IsValid l = false.
Proof.
  induction ls as [|l ls IH]; intros gb all e; simpl; [done|].
  destruct (String.eqb l "...") eqn:Hl.
  - intros (l' & ? & ? & ?)%IH. exists l'. split; [done|]. split; [by right|done].
  - destruct (LabelName_IsValid l) eqn:Hv; simpl.
    + intros (l' & ? & ? & ?)%IH. exists l'. split; [done|]. split; [by right|done].
    + intros [= <-]. exists l. apply String.eqb_neq in Hl.
      split; [done|]. split; [left|done].
Qed.

Lemma check_duplicates_Err (lns : list string) : forall seen e,
  check_duplicates lns seen = Err e ->
  exists l, e = DuplicatedGroupByLabel l /\
    ((l ∈ seen /\ l ∈ lns) \/ twice l lns).
Proof.
  induction lns as [|ln lns IH]; intros seen e; simpl; [done|].
  destruct (decide (ln ∈ seen)).
  - intros [= <-]. exists ln. split; [done|]. left. split; [done|left].
  - intros (l & -> & [[Hs Hin]|Ht])%IH; exists l; (split; [done|]).
    + apply elem_of_union in Hs as [->%elem_of_singleton|Hs].
      * right. apply list_elem_of_split in Hin as (l2 & l3 & ->). by exists [], l2, l3.
      * left. split; [done|by right].
    + right. destruct Ht as (l1 & l2 & l3 & ->). by exists (ln :: l1), l2, l3.
Qed.

Lemma filter_split {A} (P : A -> Prop) `{!forall x, Decision (P x)}
    (l : list A) a x b :
  filter P l = a ++ x :: b ->
  exists a' b', l = a' ++ x :: b' /\ filter P a' = a /\ filter P b' = b.
Proof.
  revert a. induction l as [|y l IH]; intros a.
  - rewrite filter_nil. by destruct a.
  - rewrite filter_cons. destruct (decide (P y)) as [Hy|Hy].
    + destruct a as [|a0 a]; simpl.
      * intros [= <- Hb]. by exists [], l.
      * intros [= <- Hf]. apply IH in Hf as (a' & b' & -> & <- & <-).
        exists (y :: a'), b'. by rewrite filter_cons_True.
    + intros (a' & b' & -> & <- & <-)%IH.
      exists (y :: a'), b'. by rewrite filter_cons_False.
Qed.

Lemma twice_filter (P : string -> Prop) `{!forall x, Decision (P x)} l x :
  twice x (filter P l) -> twice x l.
Proof.
  intros (l1 & l2 & l3 & Hf).
  apply filter_split in Hf as (a' & b' & -> & _ & Hb).
  apply filter_split in Hb as (a2 & b2 & -> & _ & _). by exists a', a2, b2.
Qed.

Lemma twice_not_NoDup x (l : list string) : twice x l -> ~ NoDup l.
Proof.
  intros (l1 & l2 & l3 & ->) Hn.
  apply NoDup_app in Hn as (_ & _ & Hn). apply NoDup_cons in Hn as [Hx _].
  apply Hx. apply elem_of_app. right. left.
Qed.

Lemma not_NoDup_twice (l : list string) : ~ NoDup l -> exists x, twice x l.
Proof.
  induction l as [|a l IH]; intros Hn.
  - destruct Hn. constructor.
  - destruct (decide (a ∈ l)) as [Hin|Hin].
    + apply list_elem_of_split in Hin as (l2 & l3 & ->). by exists a, [], l2, l3.
    + destruct IH as (x & l1 & l2 & l3 & ->).
      { intros Hl. apply Hn. by constructor. }
      by exists x, (a :: l1), l2, l3.
Qed.

(** What is wrong with a route node when its hook gives the error [e]. *)
Definition node_defect (node : RouteYAML.t) (e : error) : Prop :=
  match e with
  | InvalidLabelName k =>
    (is_Some (RouteYAML.Match node !! k) \/ is_Some (RouteYAML.MatchRE node !! k)) /\
    LabelName_IsValid k = false
  | InvalidRegexpValue k =>
    exists re, RouteYAML.MatchRE node !! k = Some re /\ Regexp_.compiled re = None
  | InvalidGroupByLabel l =>
    l ∈ RouteYAML.GroupByStr node /\ l <> "..." /\ LabelName_IsValid l = false
  | WildcardWithLabels => wildcard_with_label (RouteYAML.GroupByStr node)
  | DuplicatedGroupByLabel l => l <> "..." /\ twice l (RouteYAML.GroupByStr node)
  | GroupIntervalZero => RouteYAML.GroupInterval node = Some 0%Z
  | RepeatIntervalZero => RouteYAML.RepeatInterval node = Some 0%Z
  | _ => False
  end.

Lemma is_zero_true (d : option Duration) : is_zero d = true -> d = Some 0%Z.
Proof. destruct d as [n|]; simpl; [|done]. by intros ->%Z.eqb_eq. Qed.

Lemma explicit_labels_elem l ls : l ∈ explicit_labels ls <-> l ∈ ls /\ l <> "...".
Proof. unfold explicit_labels. rewrite list_elem_of_filter. tauto. Qed.

Lemma Route_UnmarshalYAML_own_Err (y : RouteYAML.t) routes e :
  mapR Route_UnmarshalYAML (RouteYAML.Routes y) = Ok routes ->
  Route_UnmarshalYAML y = Err e -> node_defect y e.
Proof.
  intros H1. rewrite Route_UnmarshalYAML_unfold, H1. simpl.
  destruct (MatchRegexps_UnmarshalYAML _) as [[]|e2] eqn:H2; simpl.
  2:{ intros [= <-]. apply MatchRegexps_Err in H2 as (k & re & Hk & [[-> Hv]|[-> Hc]]);
      simpl; eauto. }
  destruct (check_label_names _) as [[]|e3] eqn:H3; simpl.
  2:{ intros [= <-]. apply check_label_names_Err in H3 as (k & -> & Hk & Hv).
      simpl. eauto. }
  destruct (group_by_loop _ _ _) as [[gb all]|e4] eqn:H4; simpl.
  2:{ intros [= <-]. apply group_by_loop_Err in H4 as (l & -> & ? & ? & ?). by simpl. }
  apply group_by_loop_Ok in H4 as [-> ->]. simpl.
  destruct ((0 <? length _)%nat && _) eqn:H5.
  { intros [= <-]. simpl. apply andb_true_iff in H5 as [Hlen Hall].
    apply bool_decide_eq_true in Hall. split; [done|].
    destruct (explicit_labels (RouteYAML.GroupByStr y)) as [|l ?] eqn:He; [done|].
    assert (Hl : l ∈ explicit_labels (RouteYAML.GroupByStr y)) by (rewrite He; left).
    apply explicit_labels_elem in Hl. eauto. }
  destruct (check_duplicates _ _) as [[]|e6] eqn:H6; simpl.
  2:{ intros [= <-]. apply check_duplicates_Err in H6 as (l & -> & [[Hs _]|Ht]).
      { by apply elem_of_empty in Hs. }
      simpl. split.
      - destruct Ht as (l1 & l2 & l3 & Ht).
        assert (Hl : l ∈ explicit_labels (RouteYAML.GroupByStr y)).
        { rewrite Ht. apply elem_of_app. right. left. }
        by apply explicit_labels_elem in Hl as [_ ?].
      - by eapply twice_filter. }
  destruct (is_zero (RouteYAML.GroupInterval y)) eqn:H7.
  { intros [= <-]. by apply is_zero_true. }
  destruct (is_zero (RouteYAML.RepeatInterval y)) eqn:H8; [|done].
  intros [= <-]. by apply is_zero_true.
Qed.

Lemma Route_UnmarshalYAML_Err (y : RouteYAML.t) : forall e,
  Route_UnmarshalYAML y = Err e ->
  exists node, node ∈ nodesY y /\ node_defect node e.
Proof.
  induction y as [y IH] using RouteYAML_ind'. intros e He.
  destruct (mapR Route_UnmarshalYAML (RouteYAML.Routes y)) as [routes|e1] eqn:H1.
  - exists y. split; [rewrite nodesY_unfold; left|].
    by eapply Route_UnmarshalYAML_own_Err.
  - assert (e1 = e) as ->.
    { rewrite Route_UnmarshalYAML_unfold, H1 in He. simpl in He. congruence. }
    apply mapR_Err_elem in H1 as (c & Hc & Hce).
    rewrite Forall_forall in IH.
    destruct (IH c Hc e Hce) as (node & Hn & Hd).
    exists node. split; [|done]. rewrite nodesY_unfold. right.
    by eapply elem_of_concat_map.
Qed.

(** What is wrong with an inhibit rule when its hook gives the error [e]. *)
Definition rule_defect (rule : InhibitRule.t) (e : error) : Prop :=
  match e with
  | InvalidLabelName k =>
    (is_Some (InhibitRule.SourceMatch rule !! k) \/
     is_Some (InhibitRule.SourceMatchRE rule !! k) \/
     is_Some (InhibitRule.TargetMatch rule !! k) \/
     is_Some (InhibitRule.TargetMatchRE rule !! k)) /\
    LabelName_IsValid k = false
  | InvalidRegexpValue k =>
    exists re, (InhibitRule.SourceMatchRE rule !! k = Some re \/
                InhibitRule.TargetMatchRE rule !! k = Some re) /\
               Regexp_.compiled re = None
  | _ => False
  end.

Lemma InhibitRule_UnmarshalYAML_Err (rule : InhibitRule.t) e :
  InhibitRule_UnmarshalYAML rule = Err e -> rule_defect rule e.
Proof.
  unfold InhibitRule_UnmarshalYAML.
  destruct (MatchRegexps_UnmarshalYAML (InhibitRule.SourceMatchRE rule))
    as [[]|e1] eqn:H1; simpl.
  2:{ intros [= <-]. apply MatchRegexps_Err in H1 as (k & re & Hk & [[-> Hv]|[-> Hc]]);
      simpl; eauto 6. }
  destruct (MatchRegexps_UnmarshalYAML (InhibitRule.TargetMatchRE rule))
    as [[]|e2] eqn:H2; simpl.
  2:{ intros [= <-]. apply MatchRegexps_Err in H2 as (k & re & Hk & [[-> Hv]|[-> Hc]]);
      simpl; eauto 8. }
  destruct (check_label_names (InhibitRule.SourceMatch rule)) as [[]|e3] eqn:H3; simpl.
  2:{ intros [= <-]. apply check_label_names_Err in H3 as (k & -> & Hk & Hv).
      simpl. eauto. }
  destruct (check_label_names (InhibitRule.TargetMatch rule)) as [[]|e4] eqn:H4; simpl.
  2:{ intros [= <-]. apply check_label_names_Err in H4 as (k & -> & Hk & Hv).
      simpl. eauto 6. }
  done.
Qed.

Lemma InhibitRule_UnmarshalYAML_Ok (rule rule' : InhibitRule.t) :
  InhibitRule_UnmarshalYAML rule = Ok rule' ->
  rule' = rule /\
  MatchRegexps_UnmarshalYAML (InhibitRule.SourceMatchRE rule) = Ok tt /\
  MatchRegexps_UnmarshalYAML (InhibitRule.TargetMatchRE rule) = Ok tt /\
  check_label_names (InhibitRule.SourceMatch rule) = Ok tt /\
  check_label_names (InhibitRule.TargetMatch rule) = Ok tt.
Proof.
  unfold InhibitRule_UnmarshalYAML.
  destruct (MatchRegexps_UnmarshalYAML (InhibitRule.SourceMatchRE rule))
    as [[]|e1]; simpl; [|done].
  destruct (MatchRegexps_UnmarshalYAML (InhibitRule.TargetMatchRE rule))
    as [[]|e2]; simpl; [|done].
  destruct (check_label_names (InhibitRule.SourceMatch rule)) as [[]|e3]; simpl; [|done].
  destruct (check_label_names (InhibitRule.TargetMatch rule)) as [[]|e4]; simpl; [|done].
  by intros [= <-].
Qed.

Lemma mapR_Receiver_Err (rcvs : list Receiver.t) e :
  mapR Receiver_UnmarshalYAML rcvs = Err e ->
  e = MissingReceiverName /\ "" ∈ Receiver.Name <$> rcvs.
Proof.
  intros (rcv & Hin & He)%mapR_Err_elem. unfold Receiver_UnmarshalYAML in He.
  destruct (String.eqb (Receiver.Name rcv) "") eqn:Hn; [|done].
  injection He as <-. split; [done|]. apply String.eqb_eq in Hn. rewrite <- Hn.
  by apply list_elem_of_fmap_2.
Qed.

(** What an error of the plain decode says about the document. *)
Lemma unmarshal_plain_Err (y : ConfigYAML.t) e :
  unmarshal_plain y = Err e ->
  (exists ry node, ConfigYAML.Route y = Some ry /\ node ∈ nodesY ry /\
                   node_defect node e) \/
  (exists rule, rule ∈ ConfigYAML.InhibitRules y /\ rule_defect rule e) \/
  (e = MissingReceiverName /\ "" ∈ Receiver.Name <$> ConfigYAML.Receivers y).
Proof.
  unfold unmarshal_plain.
  destruct (ConfigYAML.Route y) as [ry|] eqn:Hry; simpl.
  - destruct (Route_UnmarshalYAML ry) as [r|e1] eqn:Hr; simpl.
    2:{ intros [= <-]. left. apply Route_UnmarshalYAML_Err in Hr as (node & ? & ?).
        eauto. }
    destruct (mapR InhibitRule_UnmarshalYAML _) as [rules|e2] eqn:H2; simpl.
    2:{ intros [= <-]. right. left. apply mapR_Err_elem in H2 as (rule & ? & ?).
        exists rule. split; [done|]. by apply InhibitRule_UnmarshalYAML_Err. }
    destruct (mapR Receiver_UnmarshalYAML _) as [rcvs|e3] eqn:H3; simpl; [done|].
    intros [= <-]. right. right. by apply mapR_Receiver_Err.
  - destruct (mapR InhibitRule_UnmarshalYAML _) as [rules|e2] eqn:H2; simpl.
    2:{ intros [= <-]. right. left. apply mapR_Err_elem in H2 as (rule & ? & ?).
        exists rule. split; [done|]. by apply InhibitRule_UnmarshalYAML_Err. }
    destruct (mapR Receiver_UnmarshalYAML _) as [rcvs|e3] eqn:H3; simpl; [done|].
    intros [= <-]. right. right. by apply mapR_Receiver_Err.
Qed.

(** *** Errors of the defaulting loops *)

Lemma bind_Err {A B} (m : M A) (f : A -> M B) h e :
  (m ≫= f) h = Err e ->
  m h = Err e \/ exists a h1, m h = Ok (a, h1) /\ f a h1 = Err e.
Proof.
  unfold mbind, M_bind. destruct (m h) as [[a h1]|e']; [|by left; congruence].
  intros H. right. eauto.
Qed.

Lemma lift_Err {A} (r : result A) h e : lift r h = Err e -> r = Err e.
Proof. unfold lift. by destruct r; intros [= <-]. Qed.

Lemma mapM_Err {A B} (f : A -> M B) l : forall h e,
  mapM f l h = Err e -> exists a h1, a ∈ l /\ f a h1 = Err e.
Proof.
  induction l as [|x l IH]; intros h e; simpl; [done|].
  intros [H|(y & h1 & _ & H)]%bind_Err.
  - exists x, h. split; [left|done].
  - apply bind_Err in H as [H|(ys & h2 & _ & H)]; [|done].
    apply IH in H as (a & h2 & ? & ?). exists a, h2. split; [by right|done].
Qed.

Lemma required_Err own global f e :
  required own global f = Err e -> e = NoGlobalSet f /\ own = "" /\ global = "".
Proof.
  unfold required. destruct (String.eqb own "") eqn:H1; [|done].
  destruct (String.eqb global "") eqn:H2; [|done].
  apply String.eqb_eq in H1, H2. by intros [= <-].
Qed.

Lemma required_ptr_Err own global f e :
  required_ptr own global f = Err e -> e = NoGlobalSet f /\ own = None /\ global = None.
Proof. unfold required_ptr. destruct own, global; try done. by intros [= <-]. Qed.

Lemma ensure_slash_no_Err l h e : ensure_slash l h <> Err e.
Proof. destruct (ensure_slash_Ok l h) as (h' & -> & _). done. Qed.

Definition email_defect (g : GlobalConfig.t) (c : EmailConfig.t) (f : global_field) : Prop :=
  match f with
  | SMTP_smarthost =>
    HostPort_String (EmailConfig.Smarthost c) = "" /\
    HostPort_String (GlobalConfig.SMTPSmarthost g) = ""
  | SMTP_from => EmailConfig.From c = "" /\ GlobalConfig.SMTPFrom g = ""
  | _ => False
  end.

Definition slack_defect (g : GlobalConfig.t) (c : SlackConfig.t) (f : global_field) : Prop :=
  match f with
  | Slack_API_URL => SlackConfig.APIURL c = None /\ GlobalConfig.SlackAPIURL g = None
  | _ => False
  end.

Definition pagerduty_defect (g : GlobalConfig.t) (c : PagerdutyConfig.t)
    (f : global_field) : Prop :=
  match f with
  | PagerDuty_URL => PagerdutyConfig.URL c = None /\ GlobalConfig.PagerdutyURL g = None
  | _ => False
  end.

Definition opsgenie_defect (g : GlobalConfig.t) (c : OpsGenieConfig.t)
    (f : global_field) : Prop :=
  match f with
  | OpsGenie_URL => OpsGenieConfig.APIURL c = None /\ GlobalConfig.OpsGenieAPIURL g = None
  | OpsGenie_API_Key => OpsGenieConfig.APIKey c = "" /\ GlobalConfig.OpsGenieAPIKey g = ""
  | _ => False
  end.

Definition wechat_defect (g : GlobalConfig.t) (c : WechatConfig.t) (f : global_field) : Prop :=
  match f with
  | Wechat_URL => WechatConfig.APIURL c = None /\ GlobalConfig.WeChatAPIURL g = None
  | Wechat_ApiSecret =>
    WechatConfig.APISecret c = "" /\ GlobalConfig.WeChatAPISecret g = ""
  | Wechat_CorpID => WechatConfig.CorpID c = "" /\ GlobalConfig.WeChatAPICorpID g = ""
  | _ => False
  end.

Definition victorops_defect (g : GlobalConfig.t) (c : VictorOpsConfig.t)
    (f : global_field) : Prop :=
  match f with
  | VictorOps_URL =>
    VictorOpsConfig.APIURL c = None /\ GlobalConfig.VictorOpsAPIURL g = None
  | VictorOps_API_Key =>
    VictorOpsConfig.APIKey c = "" /\ GlobalConfig.VictorOpsAPIKey g = ""
  | _ => False
  end.

(** A channel configuration of the receiver lacks the field [f], and so does
    the global configuration. *)
Definition receiver_defect (g : GlobalConfig.t) (rcv : Receiver.t) (f : global_field) : Prop :=
  (exists c, c ∈ Receiver.EmailConfigs rcv /\ email_defect g c f) \/
  (exists c, c ∈ Receiver.SlackConfigs rcv /\ slack_defect g c f) \/
  (exists c, c ∈ Receiver.PagerdutyConfigs rcv /\ pagerduty_defect g c f) \/
  (exists c, c ∈ Receiver.OpsGenieConfigs rcv /\ opsgenie_defect g c f) \/
  (exists c, c ∈ Receiver.WechatConfigs rcv /\ wechat_defect g c f) \/
  (exists c, c ∈ Receiver.VictorOpsConfigs rcv /\ victorops_defect g c f).

Ltac step_Err H :=
  let a := fresh "a" in let h := fresh "h" in let Ha := fresh "Hstep" in
  apply bind_Err in H as [H|(a & h & Ha & H)].

Lemma default_email_Err g c h e :
  default_email g c h = Err e -> exists f, e = NoGlobalSet f /\ email_defect g c f.
Proof.
  unfold default_email. intros H. step_Err H.
  - apply lift_Err in H. exists SMTP_smarthost.
    destruct (String.eqb (HostPort_String (EmailConfig.Smarthost c)) "") eqn:H1; [|done].
    destruct (String.eqb (HostPort_String (GlobalConfig.SMTPSmarthost g)) "") eqn:H2;
      [|done].
    apply String.eqb_eq in H1, H2. injection H as <-. by simpl.
  - step_Err H; [|done]. apply lift_Err, required_Err in H as (-> & ? & ?).
    exists SMTP_from. by simpl.
Qed.

Lemma default_slack_Err g c h e :
  default_slack g c h = Err e -> exists f, e = NoGlobalSet f /\ slack_defect g c f.
Proof.
  unfold default_slack. intros H. step_Err H; [|done].
  apply lift_Err, required_ptr_Err in H as (-> & ? & ?). exists Slack_API_URL. by simpl.
Qed.

Lemma default_pagerduty_Err g c h e :
  default_pagerduty g c h = Err e -> exists f, e = NoGlobalSet f /\ pagerduty_defect g c f.
Proof.
  unfold default_pagerduty. intros H. step_Err H; [|done].
  apply lift_Err, required_ptr_Err in H as (-> & ? & ?). exists PagerDuty_URL. by simpl.
Qed.

Lemma default_opsgenie_Err g c h e :
  default_opsgenie g c h = Err e -> exists f, e = NoGlobalSet f /\ opsgenie_defect g c f.
Proof.
  unfold default_opsgenie. intros H. step_Err H.
  { apply lift_Err, required_ptr_Err in H as (-> & ? & ?). exists OpsGenie_URL. by simpl. }
  step_Err H; [by apply ensure_slash_no_Err in H|].
  step_Err H; [|done].
  apply lift_Err, required_Err in H as (-> & ? & ?). exists OpsGenie_API_Key. by simpl.
Qed.

Lemma default_wechat_Err g c h e :
  default_wechat g c h = Err e -> exists f, e = NoGlobalSet f /\ wechat_defect g c f.
Proof.
  unfold default_wechat. intros H. step_Err H.
  { apply lift_Err, required_ptr_Err in H as (-> & ? & ?). exists Wechat_URL. by simpl. }
  step_Err H.
  { apply lift_Err, required_Err in H as (-> & ? & ?). exists Wechat_ApiSecret. by simpl. }
  step_Err H.
  { apply lift_Err, required_Err in H as (-> & ? & ?). exists Wechat_CorpID. by simpl. }
  step_Err H; [by apply ensure_slash_no_Err in H|done].
Qed.

Lemma default_victorops_Err g c h e :
  default_victorops g c h = Err e -> exists f, e = NoGlobalSet f /\ victorops_defect g c f.
Proof.
  unfold default_victorops. intros H. step_Err H.
  { apply lift_Err, required_ptr_Err in H as (-> & ? & ?). exists VictorOps_URL. by simpl. }
  step_Err H; [by apply ensure_slash_no_Err in H|].
  step_Err H; [|done].
  apply lift_Err, required_Err in H as (-> & ? & ?). exists VictorOps_API_Key. by simpl.
Qed.

Lemma default_receiver_Err g rcv h e :
  default_receiver g rcv h = Err e ->
  exists f, e = NoGlobalSet f /\ receiver_defect g rcv f.
Proof.
  unfold default_receiver, receiver_defect. intros H.
  step_Err H. { by apply mapM_Err in H as (c & ? & _ & ?). }
  step_Err H.
  { apply mapM_Err in H as (c & ? & Hc & (f & -> & Hf)%default_email_Err). eauto 10. }
  step_Err H.
  { apply mapM_Err in H as (c & ? & Hc & (f & -> & Hf)%default_slack_Err). eauto 10. }
  step_Err H. { by apply mapM_Err in H as (c & ? & _ & ?). }
  step_Err H.
  { apply mapM_Err in H as (c & ? & Hc & (f & -> & Hf)%default_pagerduty_Err).
    eauto 10. }
  step_Err H.
  { apply mapM_Err in H as (c & ? & Hc & (f & -> & Hf)%default_opsgenie_Err).
    eauto 10. }
  step_Err H.
  { apply mapM_Err in H as (c & ? & Hc & (f & -> & Hf)%default_wechat_Err). eauto 12. }
  step_Err H; [|done].
  apply mapM_Err in H as (c & ? & Hc & (f & -> & Hf)%default_victorops_Err). eauto 12.
Qed.

Lemma default_receivers_Err g rcvs : forall names h e,
  default_receivers g rcvs names h = Err e ->
  (exists n, e = NameNotUnique n /\
     ((n ∈ names /\ n ∈ Receiver.Name <$> rcvs) \/ twice n (Receiver.Name <$> rcvs))) \/
  (exists f rcv, rcv ∈ rcvs /\ e = NoGlobalSet f /\ receiver_defect g rcv f).
Proof.
  induction rcvs as [|rcv rcvs IH]; intros names h e; cbn [default_receivers]; [done|].
  destruct (decide (Receiver.Name rcv ∈ names)) as [Hin|Hin].
  - intros [= <-]. left. eexists. split; [done|]. left. split; [done|rewrite fmap_cons; left].
  - intros H. step_Err H.
    { right. apply default_receiver_Err in H as (f & -> & Hf).
      exists f, rcv. split; [left|done]. }
    step_Err H; [|done].
    apply IH in H as [(n & -> & [[Hs Hn]|Ht])|(f & rcv' & ? & ? & ?)].
    + left. exists n. split; [done|].
      apply elem_of_union in Hs as [->%elem_of_singleton|Hs].
      * right. apply list_elem_of_split in Hn as (l2 & l3 & Hn).
        exists [], l2, l3. by rewrite fmap_cons, Hn.
      * left. split; [done|rewrite fmap_cons; by right].
    + left. exists n. split; [done|]. right.
      destruct Ht as (l1 & l2 & l3 & Ht).
      exists (Receiver.Name rcv :: l1), l2, l3. by rewrite fmap_cons, Ht.
    + right. exists f, rcv'. split; [by right|done].
Qed.

Lemma check_root_Err (route : option Route.t) e :
  check_root route = Err e ->
  (route = None /\ e = NoRoutesProvided) \/
  exists r, route = Some r /\
    ((Route.Receiver r = "" /\ e = RootWithoutReceiver) \/
     ((Route.Match r <> ∅ \/ Route.MatchRE r <> ∅) /\ e = RootWithMatchers)).
Proof.
  unfold check_root. destruct route as [r|]; [|intros [= <-]; by left].
  intros H. right. exists r. split; [done|].
  destruct (String.length (Route.Receiver r) =? 0)%nat eqn:Hlen.
  { injection H as <-. left. split; [|done].
    apply Nat.eqb_eq in Hlen. by destruct (Route.Receiver r). }
  destruct ((0 <? size (Route.Match r))%nat || (0 <? size (Route.MatchRE r))%nat)
    eqn:Hsz; [|done].
  injection H as <-. right. split; [|done].
  apply orb_true_iff in Hsz as [Hsz|Hsz]; apply Nat.ltb_lt in Hsz; [left|right];
    intros Hm; rewrite Hm, map_size_empty in Hsz; lia.
Qed.

(** The global configuration the defaults are taken from: the one of the
    document, or [DefaultGlobalConfig] when the document has none. *)
Definition global_of (y : ConfigYAML.t) (h : heap) (g : GlobalConfig.t) : Prop :=
  match ConfigYAML.Global y with
  | Some g0 => g = g0
  | None => exists h0, DefaultGlobalConfig h = Ok (g, h0)
  end.

Lemma DefaultGlobalConfig_total h : exists g h0, DefaultGlobalConfig h = Ok (g, h0).
Proof. by eexists _, _. Qed.

Lemma before_checkReceiver_Err (y : ConfigYAML.t) h e :
  before_checkReceiver y h = Err e ->
  unmarshal_plain y = Err e \/
  exists c, unmarshal_plain y = Ok c /\
    ((exists g h0, global_of y h g /\
        default_receivers g (ConfigYAML.Receivers y) ∅ h0 = Err e) \/
     check_root (Config.Route c) = Err e).
Proof.
  unfold before_checkReceiver. intros H. step_Err H. { left. by apply lift_Err in H. }
  right. apply lift_Ok in Hstep as [Hc ->]. exists a. split; [done|].
  destruct (unmarshal_plain_Ok _ _ Hc) as (HG & HR & _).
  step_Err H.
  { destruct (Config.Global a); [done|].
    destruct (DefaultGlobalConfig_total h) as (? & ? & Hd). congruence. }
  step_Err H.
  { left. exists a0, h0. split; [|by rewrite <- HR].
    unfold global_of. rewrite <- HG. destruct (Config.Global a).
    - by apply mret_Ok in Hstep as [-> _].
    - eauto. }
  step_Err H; [|done]. right. by apply lift_Err in H.
Qed.

(** What is wrong with a document when loading it gives the error [e]. *)
Definition document_defect (y : ConfigYAML.t) (h : heap) (e : error) : Prop :=
  match e with
  | NoRoutesProvided => ConfigYAML.Route y = None
  | RootWithoutReceiver =>
    exists ry, ConfigYAML.Route y = Some ry /\ RouteYAML.Receiver ry = ""
  | RootWithMatchers =>
    exists ry, ConfigYAML.Route y = Some ry /\
               (RouteYAML.Match ry <> ∅ \/ RouteYAML.MatchRE ry <> ∅)
  | ContinueInRootRoute =>
    exists ry, ConfigYAML.Route y = Some ry /\ RouteYAML.Continue ry = true
  | UndefinedReceiver n =>
    exists ry node, ConfigYAML.Route y = Some ry /\ node ∈ nodesY ry /\
                    RouteYAML.Receiver node = n /\ dangling (declared y) n
  | NameNotUnique n => twice n (Receiver.Name <$> ConfigYAML.Receivers y)
  | MissingReceiverName => "" ∈ Receiver.Name <$> ConfigYAML.Receivers y
  | NoGlobalSet f =>
    exists g rcv, global_of y h g /\ rcv ∈ ConfigYAML.Receivers y /\
                  receiver_defect g rcv f
  | InvalidLabelName _ | InvalidRegexpValue _ =>
    (exists ry node, ConfigYAML.Route y = Some ry /\ node ∈ nodesY ry /\
                     node_defect node e) \/
    (exists rule, rule ∈ ConfigYAML.InhibitRules y /\ rule_defect rule e)
  | InvalidGroupByLabel _ | WildcardWithLabels | DuplicatedGroupByLabel _
  | GroupIntervalZero | RepeatIntervalZero =>
    exists ry node, ConfigYAML.Route y = Some ry /\ node ∈ nodesY ry /\
                    node_defect node e
  | YAMLError | NoRouteInConfig | NotAString | JSONError | URLParseError _
  | UnsupportedScheme _ | MissingHost | RegexpError _ | HostPortError _ => False
  end.

Lemma Load_Document_Err (s : string) (y : ConfigYAML.t) (h : heap) (e : error) :
  Load s (Document y h) = Err e -> document_defect y h e.
Proof.
  rewrite Load_Document.
  destruct (before_checkReceiver y h) as [[[[[c g] out] r] h1]|e0] eqn:Hb.
  - apply before_checkReceiver_Ok in Hb
      as (_ & _ & (h0 & Hrcv) & _ & ry & Hry & Hhook).
    apply default_receivers_names in Hrcv.
    assert (Hnames : out.2 = declared y).
    { rewrite Hrcv. unfold declared. set_solver. }
    destruct (checkReceiver r out.2) as [[]|e1] eqn:Hc.
    + destruct (Route.Continue r) eqn:Hcont; [|done]. intros [= <-]. simpl.
      apply Route_UnmarshalYAML_Ok in Hhook. exists ry. split; [done|].
      by rewrite <- (hooked_Continue _ _ Hhook).
    + intros [= <-]. apply checkReceiver_Err in Hc as (n & Hn & Hd & ->). simpl.
      apply hooked_nodes_lookup in Hhook as [_ Hbwd].
      destruct (Hbwd n Hn) as (node & Hnode & Hh).
      exists ry, node. rewrite <- Hnames. split_and!; try done.
      symmetry. apply (hooked_Receiver _ _ Hh).
  - intros [= <-].
    apply before_checkReceiver_Err in Hb as [Hp|(c & Hp & [(g & h0 & Hg & Hd)|Hr])].
    + apply unmarshal_plain_Err in Hp
        as [(ry & node & ? & ? & Hd)|[(rule & ? & Hd)|[-> ?]]].
      * destruct e0; simpl in Hd |- *; try done; eauto 10.
      * destruct e0; simpl in Hd |- *; try done; eauto 10.
      * done.
    + apply default_receivers_Err in Hd
        as [(n & -> & [[Hs _]|Ht])|(f & rcv & ? & -> & ?)]; simpl.
      * by apply elem_of_empty in Hs.
      * done.
      * eauto.
    + apply unmarshal_plain_Ok in Hp as (_ & _ & _ & Hroute).
      apply check_root_Err in Hr as [[Hn ->]|(r & Hr & [[Hrcv ->]|[Hm ->]])]; simpl.
      * destruct (ConfigYAML.Route y); [|done]. destruct Hroute as (? & ? & _). congruence.
      * destruct (ConfigYAML.Route y) as [ry|]; [|congruence].
        destruct Hroute as (r' & Hr' & Hh%Route_UnmarshalYAML_Ok).
        assert (r' = r) as -> by congruence.
        exists ry. split; [done|]. by rewrite <- (hooked_Receiver _ _ Hh).
      * destruct (ConfigYAML.Route y) as [ry|]; [|congruence].
        destruct Hroute as (r' & Hr' & Hh%Route_UnmarshalYAML_Ok).
        assert (r' = r) as -> by congruence.
        exists ry. split; [done|].
        by rewrite <- (hooked_Match _ _ Hh), <- (hooked_MatchRE _ _ Hh).
Qed.

(** X4: Every error is true of the input: an error of the decoder is
    returned as it is, and any other error that [Load] reports names a
    defect that the document has among its entries that are not null. *)
Theorem Load_error_sound (s : string) (input : decoded) (e : error) :
  Load s input = Err e ->
  match input with
  | Malformed e' => e = e'
  | EmptyInput => e = NoRouteInConfig
  | Parsed d h => document_defect (deref_document d) h e
  end.
Proof.
  destruct input as [e'| |d h].
  - by intros [= <-].
  - by intros [= <-].
  - intros HL%Load_Done. by apply (Load_Document_Err s).
Qed.

End Errors.

(** * More of package [config]: what defaulting leaves *)

Section Defaults.
Context {RL : RegexpLib}.
Import config.

(** A pointer field after defaulting: the own pointer, else the global
    one. *)
Definition ptr_or (own global : option loc) : option loc :=
  match own with
  | Some _ => own
  | None => global
  end.

Definition webhook_resolved (g : GlobalConfig.t) (c c' : WebhookConfig.t) : Prop :=
  WebhookConfig.HTTPConfig c' = http_or_global (WebhookConfig.HTTPConfig c) g.

Definition pushover_resolved (g : GlobalConfig.t) (c c' : PushoverConfig.t) : Prop :=
  PushoverConfig.HTTPConfig c' = http_or_global (PushoverConfig.HTTPConfig c) g.

Definition email_resolved (g : GlobalConfig.t) (c c' : EmailConfig.t) : Prop :=
  EmailConfig.Smarthost c' =
    (if lacks_smarthost c then GlobalConfig.SMTPSmarthost g else EmailConfig.Smarthost c) /\
  EmailConfig.From c' = optional (EmailConfig.From c) (GlobalConfig.SMTPFrom g) /\
  EmailConfig.Hello c' = optional (EmailConfig.Hello c) (GlobalConfig.SMTPHello g) /\
  EmailConfig.AuthUsername c' =
    optional (EmailConfig.AuthUsername c) (GlobalConfig.SMTPAuthUsername g) /\
  EmailConfig.AuthPassword c' =
    optional (EmailConfig.AuthPassword c) (GlobalConfig.SMTPAuthPassword g) /\
  EmailConfig.AuthSecret c' =
    optional (EmailConfig.AuthSecret c) (GlobalConfig.SMTPAuthSecret g) /\
  EmailConfig.AuthIdentity c' =
    optional (EmailConfig.AuthIdentity c) (GlobalConfig.SMTPAuthIdentity g) /\
  EmailConfig.RequireTLS c' =
    Some (default (GlobalConfig.SMTPRequireTLS g) (EmailConfig.RequireTLS c)) /\
  HostPort_String (EmailConfig.Smarthost c') <> "" /\
  EmailConfig.From c' <> "".

Definition slack_resolved (g : GlobalConfig.t) (c c' : SlackConfig.t) : Prop :=
  SlackConfig.HTTPConfig c' = http_or_global (SlackConfig.HTTPConfig c) g /\
  SlackConfig.APIURL c' = ptr_or (SlackConfig.APIURL c) (GlobalConfig.SlackAPIURL g) /\
  is_Some (SlackConfig.APIURL c').

Definition pagerduty_resolved (g : GlobalConfig.t) (c c' : PagerdutyConfig.t) : Prop :=
  PagerdutyConfig.HTTPConfig c' = http_or_global (PagerdutyConfig.HTTPConfig c) g /\
  PagerdutyConfig.URL c' = ptr_or (PagerdutyConfig.URL c) (GlobalConfig.PagerdutyURL g) /\
  is_Some (PagerdutyConfig.URL c').

Definition opsgenie_resolved (g : GlobalConfig.t) (c c' : OpsGenieConfig.t) : Prop :=
  OpsGenieConfig.HTTPConfig c' = http_or_global (OpsGenieConfig.HTTPConfig c) g /\
  OpsGenieConfig.APIURL c' =
    ptr_or (OpsGenieConfig.APIURL c) (GlobalConfig.OpsGenieAPIURL g) /\
  is_Some (OpsGenieConfig.APIURL c') /\
  OpsGenieConfig.APIKey c' =
    optional (OpsGenieConfig.APIKey c) (GlobalConfig.OpsGenieAPIKey g) /\
  OpsGenieConfig.APIKey c' <> "".

Definition wechat_resolved (g : GlobalConfig.t) (c c' : WechatConfig.t) : Prop :=
  WechatConfig.HTTPConfig c' = http_or_global (WechatConfig.HTTPConfig c) g /\
  WechatConfig.APIURL c' = ptr_or (WechatConfig.APIURL c) (GlobalConfig.WeChatAPIURL g) /\
  is_Some (WechatConfig.APIURL c') /\
  WechatConfig.APISecret c' =
    optional (WechatConfig.APISecret c) (GlobalConfig.WeChatAPISecret g) /\
  WechatConfig.APISecret c' <> "" /\
  WechatConfig.CorpID c' =
    optional (WechatConfig.CorpID c) (GlobalConfig.WeChatAPICorpID g) /\
  WechatConfig.CorpID c' <> "".

Definition victorops_resolved (g : GlobalConfig.t) (c c' : VictorOpsConfig.t) : Prop :=
  VictorOpsConfig.HTTPConfig c' = http_or_global (VictorOpsConfig.HTTPConfig c) g /\
  VictorOpsConfig.APIURL c' =
    ptr_or (VictorOpsConfig.APIURL c) (GlobalConfig.VictorOpsAPIURL g) /\
  is_Some (VictorOpsConfig.APIURL c') /\
  VictorOpsConfig.APIKey c' =
    optional (VictorOpsConfig.APIKey c) (GlobalConfig.VictorOpsAPIKey g) /\
  VictorOpsConfig.APIKey c' <> "".

(** A receiver after defaulting: its name and the number and order of its
    configurations are kept, and every configuration is resolved against the
    global one. *)
Definition receiver_resolved (g : GlobalConfig.t) (rcv rcv' : Receiver.t) : Prop :=
  Receiver.Name rcv' = Receiver.Name rcv /\
  Forall2 (webhook_resolved g) (Receiver.WebhookConfigs rcv) (Receiver.WebhookConfigs rcv') /\
  Forall2 (email_resolved g) (Receiver.EmailConfigs rcv) (Receiver.EmailConfigs rcv') /\
  Forall2 (slack_resolved g) (Receiver.SlackConfigs rcv) (Receiver.SlackConfigs rcv') /\
  Forall2 (pushover_resolved g) (Receiver.PushoverConfigs rcv)
          (Receiver.PushoverConfigs rcv') /\
  Forall2 (pagerduty_resolved g) (Receiver.PagerdutyConfigs rcv)
          (Receiver.PagerdutyConfigs rcv') /\
  Forall2 (opsgenie_resolved g) (Receiver.OpsGenieConfigs rcv)
          (Receiver.OpsGenieConfigs rcv') /\
  Forall2 (wechat_resolved g) (Receiver.WechatConfigs rcv) (Receiver.WechatConfigs rcv') /\
  Forall2 (victorops_resolved g) (Receiver.VictorOpsConfigs rcv)
          (Receiver.VictorOpsConfigs rcv').

Lemma required_Ok own global f v :
  required own global f = Ok v -> v = optional own global /\ v <> "".
Proof.
  unfold required, optional. destruct (String.eqb own "") eqn:H1.
  - destruct (String.eqb global "") eqn:H2; [done|]. intros [= <-].
    by apply String.eqb_neq in H2.
  - intros [= <-]. by apply String.eqb_neq in H1.
Qed.

Lemma required_ptr_Ok own global f l :
  required_ptr own global f = Ok l -> Some l = ptr_or own global.
Proof. unfold required_ptr, ptr_or. destruct own, global; congruence. Qed.

Lemma default_webhook_resolved g c h c' h' :
  default_webhook g c h = Ok (c', h') -> webhook_resolved g c c'.
Proof. unfold default_webhook. by intros [-> _]%mret_Ok. Qed.

Lemma default_pushover_resolved g c h c' h' :
  default_pushover g c h = Ok (c', h') -> pushover_resolved g c c'.
Proof. unfold default_pushover. by intros [-> _]%mret_Ok. Qed.

Lemma default_email_resolved g c h c' h' :
  default_email g c h = Ok (c', h') -> email_resolved g c c'.
Proof.
  unfold default_email, email_resolved, lacks_smarthost. intros H.
  apply bind_Ok in H as (sh & h1 & Hsh & H). apply lift_Ok in Hsh as [Hsh ->].
  apply bind_Ok in H as (from & h2 & Hfrom & H). apply lift_Ok in Hfrom as [Hfrom ->].
  apply mret_Ok in H as [-> ->].
  apply required_Ok in Hfrom as [-> Hfrom]. simpl.
  destruct (String.eqb (HostPort_String (EmailConfig.Smarthost c)) "") eqn:H1.
  - destruct (String.eqb (HostPort_String (GlobalConfig.SMTPSmarthost g)) "") eqn:H2;
      [done|]. injection Hsh as <-. apply String.eqb_neq in H2.
    split_and!; try done. by destruct (EmailConfig.RequireTLS c).
  - injection Hsh as <-. apply String.eqb_neq in H1.
    split_and!; try done. by destruct (EmailConfig.RequireTLS c).
Qed.

Lemma default_slack_resolved g c h c' h' :
  default_slack g c h = Ok (c', h') -> slack_resolved g c c'.
Proof.
  unfold default_slack, slack_resolved. intros H.
  apply bind_Ok in H as (l & h1 & Hl & H). apply lift_Ok in Hl as [Hl ->].
  apply mret_Ok in H as [-> ->]. simpl.
  apply required_ptr_Ok in Hl. split_and!; eauto.
Qed.

Lemma default_pagerduty_resolved g c h c' h' :
  default_pagerduty g c h = Ok (c', h') -> pagerduty_resolved g c c'.
Proof.
  unfold default_pagerduty, pagerduty_resolved. intros H.
  apply bind_Ok in H as (l & h1 & Hl & H). apply lift_Ok in Hl as [Hl ->].
  apply mret_Ok in H as [-> ->]. simpl.
  apply required_ptr_Ok in Hl. split_and!; eauto.
Qed.

Lemma default_opsgenie_resolved g c h c' h' :
  default_opsgenie g c h = Ok (c', h') -> opsgenie_resolved g c c'.
Proof.
  unfold default_opsgenie, opsgenie_resolved. intros H.
  apply bind_Ok in H as (l & h1 & Hl & H). apply lift_Ok in Hl as [Hl ->].
  apply bind_Ok in H as ([] & h2 & _ & H).
  apply bind_Ok in H as (key & h3 & Hkey & H). apply lift_Ok in Hkey as [Hkey ->].
  apply mret_Ok in H as [-> ->]. simpl.
  apply required_ptr_Ok in Hl. apply required_Ok in Hkey as [-> ?].
  split_and!; eauto.
Qed.

Lemma default_wechat_resolved g c h c' h' :
  default_wechat g c h = Ok (c', h') -> wechat_resolved g c c'.
Proof.
  unfold default_wechat, wechat_resolved. intros H.
  apply bind_Ok in H as (l & h1 & Hl & H). apply lift_Ok in Hl as [Hl ->].
  apply bind_Ok in H as (sec & h2 & Hsec & H). apply lift_Ok in Hsec as [Hsec ->].
  apply bind_Ok in H as (corp & h3 & Hcorp & H). apply lift_Ok in Hcorp as [Hcorp ->].
  apply bind_Ok in H as ([] & h4 & _ & H).
  apply mret_Ok in H as [-> ->]. simpl.
  apply required_ptr_Ok in Hl. apply required_Ok in Hsec as [-> ?].
  apply required_Ok in Hcorp as [-> ?].
  split_and!; eauto.
Qed.

Lemma default_victorops_resolved g c h c' h' :
  default_victorops g c h = Ok (c', h') -> victorops_resolved g c c'.
Proof.
  unfold default_victorops, victorops_resolved. intros H.
  apply bind_Ok in H as (l & h1 & Hl & H). apply lift_Ok in Hl as [Hl ->].
  apply bind_Ok in H as ([] & h2 & _ & H).
  apply bind_Ok in H as (key & h3 & Hkey & H). apply lift_Ok in Hkey as [Hkey ->].
  apply mret_Ok in H as [-> ->]. simpl.
  apply required_ptr_Ok in Hl. apply required_Ok in Hkey as [-> ?].
  split_and!; eauto.
Qed.

Lemma mapM_resolved {A B} (f : A -> M B) (R : A -> B -> Prop) :
  (forall a h b h', f a h = Ok (b, h') -> R a b) ->
  forall l h l' h', mapM f l h = Ok (l', h') -> Forall2 R l l'.
Proof.
  intros Hf l h l' h' H. apply mapM_Forall2 in H.
  eapply Forall2_impl; [exact H|]. intros a b (h1 & h2 & Hab). eauto.
Qed.

Lemma default_receiver_resolved g rcv h rcv' h' :
  default_receiver g rcv h = Ok (rcv', h') -> receiver_resolved g rcv rcv'.
Proof.
  unfold default_receiver, receiver_resolved. intros H.
  apply bind_Ok in H as (whs & h1 & H1 & H).
  apply bind_Ok in H as (ems & h2 & H2 & H).
  apply bind_Ok in H as (sls & h3 & H3 & H).
  apply bind_Ok in H as (pos & h4 & H4 & H).
  apply bind_Ok in H as (pds & h5 & H5 & H).
  apply bind_Ok in H as (ogs & h6 & H6 & H).
  apply bind_Ok in H as (wcs & h7 & H7 & H).
  apply bind_Ok in H as (vos & h8 & H8 & H).
  apply mret_Ok in H as [-> ->]. simpl.
  split; [done|].
  split; [exact (mapM_resolved _ _ (default_webhook_resolved g) _ _ _ _ H1)|].
  split; [exact (mapM_resolved _ _ (default_email_resolved g) _ _ _ _ H2)|].
  split; [exact (mapM_resolved _ _ (default_slack_resolved g) _ _ _ _ H3)|].
  split; [exact (mapM_resolved _ _ (default_pushover_resolved g) _ _ _ _ H4)|].
  split; [exact (mapM_resolved _ _ (default_pagerduty_resolved g) _ _ _ _ H5)|].
  split; [exact (mapM_resolved _ _ (default_opsgenie_resolved g) _ _ _ _ H6)|].
  split; [exact (mapM_resolved _ _ (default_wechat_resolved g) _ _ _ _ H7)|].
  exact (mapM_resolved _ _ (default_victorops_resolved g) _ _ _ _ H8).
Qed.

Lemma default_receivers_resolved g rcvs names h out h' :
  default_receivers g rcvs names h = Ok (out, h') ->
  Forall2 (receiver_resolved g) rcvs out.1.
Proof.
  intros H. apply default_receivers_Forall2 in H.
  eapply Forall2_impl; [exact H|]. intros a b (h1 & h2 & Hab).
  by eapply default_receiver_resolved.
Qed.

Lemma default_receivers_NoDup g rcvs : forall names h out h',
  default_receivers g rcvs names h = Ok (out, h') ->
  NoDup (Receiver.Name <$> rcvs) /\
  forall n, n ∈ Receiver.Name <$> rcvs -> n ∉ names.
Proof.
  induction rcvs as [|rcv rcvs IH]; intros names h out h'; cbn [default_receivers].
  - intros _. split; [constructor|]. intros n Hn. by apply elem_of_nil in Hn.
  - destruct (decide (Receiver.Name rcv ∈ names)) as [Hin|Hin]; [done|].
    intros H. apply bind_Ok in H as (rcv' & h1 & _ & H).
    apply bind_Ok in H as (out' & h2 & H2 & _).
    apply IH in H2 as [Hnd Hfresh]. rewrite fmap_cons. split.
    + constructor; [|done]. intros Hn. apply Hfresh in Hn. set_solver.
    + intros n [->|Hn]%elem_of_cons; [done|]. apply Hfresh in Hn. set_solver.
Qed.

(** The global configuration [Load] resolves against, and what it leaves of
    the receivers. *)
Lemma Load_Ok_resolved (s : string) (y : ConfigYAML.t) (h : heap) cfg h' :
  Load s (Document y h) = Ok (cfg, h') ->
  exists g, Config.Global cfg = Some g /\ global_of y h g /\
    Forall2 (receiver_resolved g) (ConfigYAML.Receivers y) (Config.Receivers cfg) /\
    NoDup (Receiver.Name <$> ConfigYAML.Receivers y).
Proof.
  intros (y' & h0 & c & g & out & r & [<- <-]%Document_inj & Hb & _ & _ & ->)%Load_Ok.
  exists g. split; [done|]. split; [by eapply before_checkReceiver_global|].
  apply before_checkReceiver_Ok in Hb as (_ & _ & (h1 & Hrcv) & _).
  split; [by eapply default_receivers_resolved|].
  by apply default_receivers_NoDup in Hrcv as [? _].
Qed.

Lemma Forall2_elem_l {A B} (R : A -> B -> Prop) l l' x :
  Forall2 R l l' -> x ∈ l -> exists y, y ∈ l' /\ R x y.
Proof.
  intros HF [i Hi]%list_elem_of_lookup.
  destruct (Forall2_lookup_l _ _ _ _ _ HF Hi) as (y & Hy & HR).
  exists y. split; [by eapply list_elem_of_lookup_2|done].
Qed.

Lemma Forall2_elem_r {A B} (R : A -> B -> Prop) l l' y :
  Forall2 R l l' -> y ∈ l' -> exists x, x ∈ l /\ R x y.
Proof.
  intros HF [i Hi]%list_elem_of_lookup.
  destruct (Forall2_lookup_r _ _ _ _ _ HF Hi) as (x & Hx & HR).
  exists x. split; [by eapply list_elem_of_lookup_2|done].
Qed.

Lemma receiver_resolved_no_defect g rcv rcv' f :
  receiver_resolved g rcv rcv' -> ~ receiver_defect g rcv f.
Proof.
  intros (_ & _ & Hem & Hsl & _ & Hpd & Hog & Hwc & Hvo)
         [(c & Hc & Hd)|[(c & Hc & Hd)|[(c & Hc & Hd)|[(c & Hc & Hd)|
          [(c & Hc & Hd)|(c & Hc & Hd)]]]]].
  - destruct (Forall2_elem_l _ _ _ _ Hem Hc)
      as (c' & _ & Hsh & Hfrom & _ & _ & _ & _ & _ & _ & Hsh' & Hfrom').
    destruct f; simpl in Hd; try done; destruct Hd as [H1 H2].
    + apply Hsh'. rewrite Hsh. unfold lacks_smarthost. by rewrite H1.
    + apply Hfrom'. rewrite Hfrom. unfold optional. by rewrite H1.
  - destruct (Forall2_elem_l _ _ _ _ Hsl Hc) as (c' & _ & _ & Hp & [l Hl]).
    destruct f; simpl in Hd; try done; destruct Hd as [H1 H2].
    rewrite Hp, H1 in Hl. simpl in Hl. congruence.
  - destruct (Forall2_elem_l _ _ _ _ Hpd Hc) as (c' & _ & _ & Hp & [l Hl]).
    destruct f; simpl in Hd; try done; destruct Hd as [H1 H2].
    rewrite Hp, H1 in Hl. simpl in Hl. congruence.
  - destruct (Forall2_elem_l _ _ _ _ Hog Hc) as (c' & _ & _ & Hp & [l Hl] & Hk & Hk').
    destruct f; simpl in Hd; try done; destruct Hd as [H1 H2].
    + rewrite Hp, H1 in Hl. simpl in Hl. congruence.
    + apply Hk'. rewrite Hk. unfold optional. by rewrite H1.
  - destruct (Forall2_elem_l _ _ _ _ Hwc Hc)
      as (c' & _ & _ & Hp & [l Hl] & Hs & Hs' & Hi & Hi').
    destruct f; simpl in Hd; try done; destruct Hd as [H1 H2].
    + rewrite Hp, H1 in Hl. simpl in Hl. congruence.
    + apply Hs'. rewrite Hs. unfold optional. by rewrite H1.
    + apply Hi'. rewrite Hi. unfold optional. by rewrite H1.
  - destruct (Forall2_elem_l _ _ _ _ Hvo Hc) as (c' & _ & _ & Hp & [l Hl] & Hk & Hk').
    destruct f; simpl in Hd; try done; destruct Hd as [H1 H2].
    + rewrite Hp, H1 in Hl. simpl in Hl. congruence.
    + apply Hk'. rewrite Hk. unfold optional. by rewrite H1.
Qed.

Lemma group_by_loop_valid (ls : list string) : forall gb all out,
  group_by_loop ls gb all = Ok out ->
  forall l, l ∈ ls -> l <> "..." -> LabelName_IsValid l = true.
Proof.
  induction ls as [|l0 ls IH]; intros gb all out H l Hl Hne.
  - by apply elem_of_nil in Hl.
  - simpl in H. destruct (String.eqb l0 "...") eqn:H0.
    + apply String.eqb_eq in H0. apply elem_of_cons in Hl as [->|Hl]; [done|]. eauto.
    + destruct (LabelName_IsValid l0) eqn:Hv; simpl in H; [|done].
      apply elem_of_cons in Hl as [->|Hl]; [done|]. eauto.
Qed.

Lemma node_defect_rejected (node : RouteYAML.t) e :
  node_defect node e -> forall r, Route_UnmarshalYAML node <> Ok r.
Proof.
  intros Hd r Hr. pose proof Hr as Hh%Route_UnmarshalYAML_Ok.
  destruct e; simpl in Hd; try done.
  - destruct Hd as [[Hk|[re Hk]] Hv].
    + pose proof (check_label_names_Ok _ _ (hooked_match _ _ Hh) Hk). congruence.
    + destruct (MatchRegexps_Ok _ _ _ (hooked_match_re _ _ Hh) Hk). congruence.
  - destruct Hd as (Hl & Hne & Hv).
    pose proof (group_by_loop_valid _ _ _ _ (hooked_group_by _ _ Hh) _ Hl Hne).
    congruence.
  - by eapply wildcard_with_label_rejected.
  - destruct Hd as [Hne (l1 & l2 & l3 & Ht)].
    eapply label_twice_rejected; [|exact Hr]. by exists name, l1, l2, l3.
  - by eapply zero_group_interval_rejected.
  - by eapply zero_repeat_interval_rejected.
  - destruct Hd as (re & Hk & Hc).
    destruct (MatchRegexps_Ok _ _ _ (hooked_match_re _ _ Hh) Hk) as [_ [? ?]].
    congruence.
Qed.

Lemma rule_defect_rejected (rule : InhibitRule.t) e :
  rule_defect rule e -> forall r, InhibitRule_UnmarshalYAML rule <> Ok r.
Proof.
  intros Hd r (_ & H1 & H2 & H3 & H4)%InhibitRule_UnmarshalYAML_Ok.
  destruct e; simpl in Hd; try done.
  - destruct Hd as [[Hk|[[re Hk]|[Hk|[re Hk]]]] Hv].
    + pose proof (check_label_names_Ok _ _ H3 Hk). congruence.
    + destruct (MatchRegexps_Ok _ _ _ H1 Hk). congruence.
    + pose proof (check_label_names_Ok _ _ H4 Hk). congruence.
    + destruct (MatchRegexps_Ok _ _ _ H2 Hk). congruence.
  - destruct Hd as (re & [Hk|Hk] & Hc).
    + destruct (MatchRegexps_Ok _ _ _ H1 Hk) as [_ [? ?]]. congruence.
    + destruct (MatchRegexps_Ok _ _ _ H2 Hk) as [_ [? ?]]. congruence.
Qed.

Lemma unmarshal_plain_Ok_parts (y : ConfigYAML.t) (c : Config.t) :
  unmarshal_plain y = Ok c ->
  mapR InhibitRule_UnmarshalYAML (ConfigYAML.InhibitRules y) = Ok (Config.InhibitRules c) /\
  mapR Receiver_UnmarshalYAML (ConfigYAML.Receivers y) = Ok (Config.Receivers c).
Proof.
  unfold unmarshal_plain.
  destruct (match ConfigYAML.Route y with Some _ => _ | None => _ end) as [route|];
    simpl; [|done].
  destruct (mapR InhibitRule_UnmarshalYAML _) as [rules|]; simpl; [|done].
  destruct (mapR Receiver_UnmarshalYAML _) as [rcvs|]; simpl; [|done].
  by intros [= <-].
Qed.

Lemma mapR_InhibitRule_Ok rules rules' :
  mapR InhibitRule_UnmarshalYAML rules = Ok rules' -> rules' = rules.
Proof.
  intros H%mapR_Ok_Forall2. induction H as [|r r' l l' Hr _ IH]; [done|].
  apply InhibitRule_UnmarshalYAML_Ok in Hr as [-> _]. by rewrite IH.
Qed.

Lemma global_of_unique y h g1 g2 : global_of y h g1 -> global_of y h g2 -> g1 = g2.
Proof.
  unfold global_of. destruct (ConfigYAML.Global y); [congruence|].
  intros [h1 H1] [h2 H2]. congruence.
Qed.

(** X6: After [Load] every channel configuration is resolved against the
    global configuration: a field that is set is kept, an unset one has the
    global value, and the fields that must be set are set.  The receivers
    keep their names, which are not empty and pairwise different. *)
Theorem Load_resolves_receivers (s : string) (y : ConfigYAML.t) (h : heap) cfg h' :
  Load s (Document y h) = Ok (cfg, h') ->
  exists g, Config.Global cfg = Some g /\ global_of y h g /\
    Forall2 (receiver_resolved g) (ConfigYAML.Receivers y) (Config.Receivers cfg) /\
    Receiver.Name <$> Config.Receivers cfg = Receiver.Name <$> ConfigYAML.Receivers y /\
    NoDup (Receiver.Name <$> Config.Receivers cfg) /\
    "" ∉ Receiver.Name <$> Config.Receivers cfg.
Proof.
  intros HL. destruct (Load_Ok_resolved _ _ _ _ _ HL) as (g & HG & Hg & Hres & Hnd).
  exists g. split; [done|]. split; [done|]. split; [done|].
  assert (Hnames : Receiver.Name <$> Config.Receivers cfg =
                   Receiver.Name <$> ConfigYAML.Receivers y).
  { clear -Hres. induction Hres as [|rcv rcv' l l' Hr _ IH]; [done|].
    rewrite !fmap_cons, IH. f_equal. apply Hr. }
  rewrite Hnames. split; [done|]. split; [done|].
  apply Load_Ok in HL as (y' & h1 & c & g' & out & r & [<- <-]%Document_inj & Hb & _).
  apply before_checkReceiver_Ok in Hb as (Hp & _).
  apply unmarshal_plain_Ok_parts in Hp as [_ Hrcvs].
  intros (rcv & Hname & Hin)%list_elem_of_fmap.
  apply mapR_Ok_Forall2 in Hrcvs.
  destruct (Forall2_elem_l _ _ _ _ Hrcvs Hin) as (r' & _ & Hr').
  unfold Receiver_UnmarshalYAML in Hr'. rewrite <- Hname in Hr'. done.
Qed.

(** A document with a defect does not load. *)
Lemma Load_Ok_no_defect (s : string) (y : ConfigYAML.t) (h : heap) cfg h' e :
  Load s (Document y h) = Ok (cfg, h') -> ~ document_defect y h e.
Proof.
  intros HL Hd.
  destruct (Load_Ok_resolved _ _ _ _ _ HL) as (g & _ & Hg & Hres & Hnd).
  apply Load_Ok in HL as (y' & h0 & c & g' & out & r & [<- <-]%Document_inj & Hb & Hcr & Hcont & ->).
  apply before_checkReceiver_Ok in Hb
    as (Hp & _ & (h1 & Hrcv) & Hroot & ry & Hry & Hhook).
  apply check_root_Ok in Hroot as (_ & Hrcv0 & Hm & Hmre).
  pose proof Hhook as Hh%Route_UnmarshalYAML_Ok.
  apply unmarshal_plain_Ok_parts in Hp as [Hrules Hnames].
  assert (Hnode : forall node e', ConfigYAML.Route y = Some ry -> node ∈ nodesY ry ->
                                  node_defect node e' -> False).
  { intros node e' _ Hn Hde.
    destruct (proj1 (hooked_nodes_lookup _ _ Hhook) node Hn) as (n & _ & Hhn).
    apply Route_UnmarshalYAML_Ok in Hhn. by eapply node_defect_rejected. }
  assert (Hrule : forall rule e', rule ∈ ConfigYAML.InhibitRules y ->
                                  rule_defect rule e' -> False).
  { intros rule e' Hin Hde. apply mapR_Ok_Forall2 in Hrules.
    destruct (Forall2_elem_l _ _ _ _ Hrules Hin) as (r' & _ & Hr').
    by eapply rule_defect_rejected. }
  destruct e; cbn [document_defect] in Hd; try done.
  - destruct Hd as (ry' & Hry' & Hc). simplify_eq.
    rewrite <- (hooked_Continue _ _ Hh) in Hc. congruence.
  - apply twice_not_NoDup in Hd. done.
  - destruct Hd as (g2 & rcv & Hg2 & Hin & Hde).
    rewrite (global_of_unique _ _ _ _ Hg2 Hg) in Hde.
    destruct (Forall2_elem_l _ _ _ _ Hres Hin) as (rcv' & _ & Hr').
    by eapply receiver_resolved_no_defect.
  - congruence.
  - destruct Hd as (ry' & Hry' & Hc). simplify_eq.
    by rewrite (hooked_Receiver _ _ Hh) in Hrcv0.
  - destruct Hd as (ry' & Hry' & Hc). simplify_eq.
    rewrite (hooked_Match _ _ Hh) in Hm. rewrite (hooked_MatchRE _ _ Hh) in Hmre.
    by destruct Hc.
  - destruct Hd as (ry' & node & Hry' & Hn & <- & Hdang). simplify_eq.
    destruct (proj1 (hooked_nodes_lookup _ _ Hhook) node Hn) as (n & Hn' & Hhn).
    apply checkReceiver_Ok in Hcr. rewrite Forall_forall in Hcr.
    apply (Hcr n Hn'). rewrite (hooked_Receiver _ _ Hhn).
    apply default_receivers_names in Hrcv. rewrite Hrcv.
    unfold declared in Hdang. destruct Hdang as [? Hnot]. split; [done|]. set_solver.
  - destruct Hd as [(ry' & node & Hry' & Hn & Hde)|(rule & Hin & Hde)].
    + simplify_eq. by eapply Hnode.
    + by eapply Hrule.
  - destruct Hd as (ry' & node & Hry' & Hn & Hde). simplify_eq. by eapply Hnode.
  - destruct Hd as (ry' & node & Hry' & Hn & Hde). simplify_eq. by eapply Hnode.
  - destruct Hd as (ry' & node & Hry' & Hn & Hde). simplify_eq. by eapply Hnode.
  - destruct Hd as (ry' & node & Hry' & Hn & Hde). simplify_eq. by eapply Hnode.
  - destruct Hd as (ry' & node & Hry' & Hn & Hde). simplify_eq. by eapply Hnode.
  - apply mapR_Ok_Forall2 in Hnames.
    apply list_elem_of_fmap in Hd as (rcv & Hname & Hin).
    destruct (Forall2_elem_l _ _ _ _ Hnames Hin) as (r' & _ & Hr').
    unfold Receiver_UnmarshalYAML in Hr'. rewrite <- Hname in Hr'. done.
  - destruct Hd as [(ry' & node & Hry' & Hn & Hde)|(rule & Hin & Hde)].
    + simplify_eq. by eapply Hnode.
    + by eapply Hrule.
Qed.

(** X5: [Load] returns a configuration for a decoded document exactly when
    the decoder has left no nil in the list of receivers, in a list of
    channel configurations or in a list of child routes, and the document
    has no defect. *)
Theorem Load_succeeds_iff (s : string) (d : ptr.ConfigYAML.t) (h : heap) :
  (exists cfg h', Load s (Parsed d h) = Ok (cfg, h')) <->
  (exists y, d = ref_document y /\ forall e, ~ document_defect y h e).
Proof.
  split.
  - intros (cfg & h' & HL). destruct (Load_met_no_nil _ _ _ _ HL) as (y & h0 & Heq).
    assert (d = ref_document y /\ h = h0) as [-> <-] by (unfold Document in Heq; split; congruence).
    exists y. split; [done|]. intros e. by eapply Load_Ok_no_defect.
  - intros (y & -> & Hnone). destruct (Load_total s y h) as [?|[e He]]; [done|].
    destruct (Hnone e). by eapply Load_Document_Err.
Qed.

End Defaults.

(** * More of package [config]: the store after [Load] *)

Section Store.
Context {RL : RegexpLib}.
Import config.

(** The URL that [ensure_slash] leaves where it found [u]. *)
Definition with_slash_URL (u : url_URL) : url_URL :=
  {| Scheme := Scheme u; Host := Host u; Path := with_slash (Path u) |}.

(** The locations that the OpsGenie, WeChat and VictorOps configurations of
    a receiver hold as API URL. *)
Definition receiver_api_urls (rcv : Receiver.t) : list loc :=
  omap OpsGenieConfig.APIURL (Receiver.OpsGenieConfigs rcv) ++
  omap WechatConfig.APIURL (Receiver.WechatConfigs rcv) ++
  omap VictorOpsConfig.APIURL (Receiver.VictorOpsConfigs rcv).

Definition api_urls (rcvs : list Receiver.t) : list loc :=
  concat (map receiver_api_urls rcvs).

(** [h'] is [h] with the URLs at the locations [ls] given their final
    slash; nothing else is written and nothing is allocated. *)
Definition slashed_at (ls : list loc) (h h' : heap) : Prop :=
  next h' = next h /\
  forall l, cells h' l = if bool_decide (l ∈ ls) then with_slash_URL (cells h l)
                         else cells h l.

Lemma with_slash_idem p : with_slash (with_slash p) = with_slash p.
Proof.
  unfold with_slash. destruct (HasSuffix p "/") eqn:Hp; [by rewrite Hp|].
  by rewrite HasSuffix_append_slash.
Qed.

Lemma with_slash_URL_idem u : with_slash_URL (with_slash_URL u) = with_slash_URL u.
Proof. unfold with_slash_URL. simpl. by rewrite with_slash_idem. Qed.

Lemma slashed_at_nil h : slashed_at [] h h.
Proof. split; [done|]. intros l. by rewrite bool_decide_eq_false_2 by apply not_elem_of_nil. Qed.

Lemma slashed_at_app l1 l2 h h1 h2 :
  slashed_at l1 h h1 -> slashed_at l2 h1 h2 -> slashed_at (l1 ++ l2) h h2.
Proof.
  intros [Hn1 H1] [Hn2 H2]. split; [congruence|]. intros l.
  rewrite H2, H1.
  destruct (decide (l ∈ l1)) as [Hl1|Hl1], (decide (l ∈ l2)) as [Hl2|Hl2].
  - rewrite !bool_decide_eq_true_2 by (try done; apply elem_of_app; auto).
    apply with_slash_URL_idem.
  - rewrite (bool_decide_eq_false_2 _ Hl2), (bool_decide_eq_true_2 _ Hl1).
    by rewrite bool_decide_eq_true_2 by (apply elem_of_app; auto).
  - rewrite (bool_decide_eq_true_2 _ Hl2), (bool_decide_eq_false_2 _ Hl1).
    by rewrite bool_decide_eq_true_2 by (apply elem_of_app; auto).
  - rewrite (bool_decide_eq_false_2 _ Hl2), (bool_decide_eq_false_2 _ Hl1).
    rewrite bool_decide_eq_false_2; [done|]. rewrite elem_of_app. tauto.
Qed.

Lemma ensure_slash_slashed (l : loc) (h : heap) u h' :
  ensure_slash l h = Ok (u, h') -> slashed_at [l] h h'.
Proof.
  unfold ensure_slash, mbind, M_bind, load. simpl.
  destruct (HasSuffix (Path (cells h l)) "/") eqn:Hs.
  - intros [= _ <-]. split; [done|]. intros l0.
    destruct (decide (l0 = l)) as [->|Hne].
    + rewrite bool_decide_eq_true_2 by left.
      unfold with_slash_URL, with_slash. rewrite Hs. by destruct (cells h l).
    + rewrite bool_decide_eq_false_2; [done|]. by intros ->%list_elem_of_singleton.
  - intros [= _ <-]. split; [done|]. intros l0. simpl.
    destruct (decide (l0 = l)) as [->|Hne].
    + rewrite bool_decide_eq_true_2 by left. rewrite fn_lookup_insert.
      unfold with_slash_URL, with_slash. by rewrite Hs.
    + rewrite fn_lookup_insert_ne by done.
      rewrite bool_decide_eq_false_2; [done|]. by intros ->%list_elem_of_singleton.
Qed.

Lemma default_opsgenie_slashed g c h c' h' :
  default_opsgenie g c h = Ok (c', h') ->
  slashed_at (option_list (OpsGenieConfig.APIURL c')) h h'.
Proof.
  unfold default_opsgenie. intros H.
  apply bind_Ok in H as (l & h1 & Hl & H). apply lift_Ok in Hl as [Hl ->].
  apply bind_Ok in H as ([] & h2 & Hs & H).
  apply bind_Ok in H as (key & h3 & Hkey & H). apply lift_Ok in Hkey as [Hkey ->].
  apply mret_Ok in H as [-> ->]. simpl. by eapply ensure_slash_slashed.
Qed.

Lemma default_wechat_slashed g c h c' h' :
  default_wechat g c h = Ok (c', h') ->
  slashed_at (option_list (WechatConfig.APIURL c')) h h'.
Proof.
  unfold default_wechat. intros H.
  apply bind_Ok in H as (l & h1 & Hl & H). apply lift_Ok in Hl as [Hl ->].
  apply bind_Ok in H as (sec & h2 & Hsec & H). apply lift_Ok in Hsec as [Hsec ->].
  apply bind_Ok in H as (corp & h3 & Hcorp & H). apply lift_Ok in Hcorp as [Hcorp ->].
  apply bind_Ok in H as ([] & h4 & Hs & H).
  apply mret_Ok in H as [-> ->]. simpl. by eapply ensure_slash_slashed.
Qed.

Lemma default_victorops_slashed g c h c' h' :
  default_victorops g c h = Ok (c', h') ->
  slashed_at (option_list (VictorOpsConfig.APIURL c')) h h'.
Proof.
  unfold default_victorops. intros H.
  apply bind_Ok in H as (l & h1 & Hl & H). apply lift_Ok in Hl as [Hl ->].
  apply bind_Ok in H as ([] & h2 & Hs & H).
  apply bind_Ok in H as (key & h3 & Hkey & H). apply lift_Ok in Hkey as [Hkey ->].
  apply mret_Ok in H as [-> ->]. simpl. by eapply ensure_slash_slashed.
Qed.

Lemma mapM_slashed {A B} (f : A -> M B) (url : B -> option loc) :
  (forall a h b h', f a h = Ok (b, h') -> slashed_at (option_list (url b)) h h') ->
  forall l h l' h', mapM f l h = Ok (l', h') -> slashed_at (omap url l') h h'.
Proof.
  intros Hf. induction l as [|a l IH]; intros h l' h' H; simpl in H.
  - apply mret_Ok in H as [-> ->]. apply slashed_at_nil.
  - apply bind_Ok in H as (b & h1 & Hb & H).
    apply bind_Ok in H as (bs & h2 & Hbs & H).
    apply mret_Ok in H as [-> ->].
    replace (omap url (b :: bs)) with (option_list (url b) ++ omap url bs)
      by (simpl; by destruct (url b)).
    eapply slashed_at_app; eauto.
Qed.

Lemma default_receiver_slashed g rcv h rcv' h' :
  default_receiver g rcv h = Ok (rcv', h') ->
  slashed_at (receiver_api_urls rcv') h h'.
Proof.
  unfold default_receiver, receiver_api_urls. intros H.
  apply bind_Ok in H as (whs & h1 & H1 & H).
  apply bind_Ok in H as (ems & h2 & H2 & H).
  apply bind_Ok in H as (sls & h3 & H3 & H).
  apply bind_Ok in H as (pos & h4 & H4 & H).
  apply bind_Ok in H as (pds & h5 & H5 & H).
  apply bind_Ok in H as (ogs & h6 & H6 & H).
  apply bind_Ok in H as (wcs & h7 & H7 & H).
  apply bind_Ok in H as (vos & h8 & H8 & H).
  apply mret_Ok in H as [-> ->]. simpl.
  apply (mapM_quiet _ (default_webhook_quiet g)) in H1 as ->.
  apply (mapM_quiet _ (default_email_quiet g)) in H2 as ->.
  apply (mapM_quiet _ (default_slack_quiet g)) in H3 as ->.
  apply (mapM_quiet _ (default_pushover_quiet g)) in H4 as ->.
  apply (mapM_quiet _ (default_pagerduty_quiet g)) in H5 as ->.
  apply (mapM_slashed _ OpsGenieConfig.APIURL (default_opsgenie_slashed g)) in H6.
  apply (mapM_slashed _ WechatConfig.APIURL (default_wechat_slashed g)) in H7.
  apply (mapM_slashed _ VictorOpsConfig.APIURL (default_victorops_slashed g)) in H8.
  eauto using slashed_at_app.
Qed.

Lemma default_receivers_slashed g rcvs : forall names h out h',
  default_receivers g rcvs names h = Ok (out, h') ->
  slashed_at (api_urls out.1) h h'.
Proof.
  induction rcvs as [|rcv rcvs IH]; intros names h out h'; cbn [default_receivers].
  - intros [-> ->]%mret_Ok. apply slashed_at_nil.
  - destruct (decide (Receiver.Name rcv ∈ names)); [done|]. intros H.
    apply bind_Ok in H as (rcv' & h1 & H1 & H).
    apply bind_Ok in H as (out' & h2 & H2 & H).
    apply mret_Ok in H as [-> ->]. simpl.
    change (api_urls (rcv' :: out'.1)) with (receiver_api_urls rcv' ++ api_urls out'.1).
    eapply slashed_at_app; [by eapply default_receiver_slashed|by eapply IH].
Qed.

(** The store in which the receivers are resolved: the one of the document,
    or, when the document has no global block, the one in which
    [DefaultGlobalConfig] has made its four URLs. *)
Definition global_store (y : ConfigYAML.t) (h h0 : heap) : Prop :=
  match ConfigYAML.Global y with
  | Some _ => h0 = h
  | None => exists g, DefaultGlobalConfig h = Ok (g, h0)
  end.

Lemma before_checkReceiver_store (y : ConfigYAML.t) h c g out r h1 :
  before_checkReceiver y h = Ok (c, g, out, r, h1) ->
  exists h0, global_store y h h0 /\
    default_receivers g (ConfigYAML.Receivers y) ∅ h0 = Ok (out, h1).
Proof.
  unfold before_checkReceiver. intros H.
  apply bind_Ok in H as (c' & h2 & Hc & H). apply lift_Ok in Hc as [Hc ->].
  apply bind_Ok in H as (g' & h0 & Hg & H).
  apply bind_Ok in H as (out' & h3 & Hout & H).
  apply bind_Ok in H as (r' & h4 & Hr & H). apply lift_Ok in Hr as [Hr ->].
  apply mret_Ok in H as [[= <- <- <- <-] ->].
  destruct (unmarshal_plain_Ok _ _ Hc) as (HG & HR & _).
  exists h0. split; [|by rewrite <- HR].
  unfold global_store. rewrite <- HG. destruct (Config.Global c).
  - by apply mret_Ok in Hg as [_ ->].
  - eauto.
Qed.

Lemma global_store_frame (y : ConfigYAML.t) h h0 :
  global_store y h h0 ->
  next h <= next h0 /\ forall l, l < next h -> cells h0 l = cells h l.
Proof.
  unfold global_store. destruct (ConfigYAML.Global y); [by intros ->|].
  intros [g Hg]. unfold DefaultGlobalConfig, mbind, M_bind, alloc in Hg. simpl in Hg.
  injection Hg as _ <-. simpl. split; [lia|]. intros l Hl.
  rewrite !fn_lookup_insert_ne by lia. done.
Qed.

Lemma Load_Ok_slashed (s : string) (y : ConfigYAML.t) (h : heap) cfg h' :
  Load s (Document y h) = Ok (cfg, h') ->
  exists h0, global_store y h h0 /\ slashed_at (api_urls (Config.Receivers cfg)) h0 h'.
Proof.
  intros (y' & h1 & c & g & out & r & [<- <-]%Document_inj & Hb & _ & _ & ->)%Load_Ok.
  apply before_checkReceiver_store in Hb as (h0 & Hg & Hrcv).
  apply default_receivers_slashed in Hrcv. eauto.
Qed.

(** X7: [Load] allocates nothing after the global block is fixed, and it writes
    the store only to give the API URLs of the OpsGenie, WeChat and
    VictorOps configurations of the result their final slash: scheme and
    host of these stay, and every other URL object is as decoding left
    it. *)
Theorem Load_store (s : string) (y : ConfigYAML.t) (h : heap) cfg h' :
  Load s (Document y h) = Ok (cfg, h') ->
  exists h0,
    global_store y h h0 /\
    (forall l, l < next h -> cells h0 l = cells h l) /\
    next h' = next h0 /\
    (forall l, l ∈ api_urls (Config.Receivers cfg) ->
       Scheme (cells h' l) = Scheme (cells h0 l) /\
       Host (cells h' l) = Host (cells h0 l) /\
       Path (cells h' l) = with_slash (Path (cells h0 l))) /\
    (forall l, l ∉ api_urls (Config.Receivers cfg) -> cells h' l = cells h0 l).
Proof.
  intros (h0 & Hg & Hn & Hcells)%Load_Ok_slashed.
  exists h0. split; [done|]. split; [by apply (global_store_frame y)|].
  split; [done|]. split.
  - intros l Hl. by rewrite Hcells, bool_decide_eq_true_2.
  - intros l Hl. by rewrite Hcells, bool_decide_eq_false_2.
Qed.

Lemma api_urls_elem (rcvs : list Receiver.t) rcv l :
  rcv ∈ rcvs -> l ∈ receiver_api_urls rcv -> l ∈ api_urls rcvs.
Proof. intros. unfold api_urls. by eapply elem_of_concat_map. Qed.

(** X8: A configuration that leaves its API URL to the global block ends up
    with the pointer of the global block, not with a copy: the slash is
    written into the URL object of the global block itself. *)
Theorem global_urls_shared (s : string) (y : ConfigYAML.t) (h : heap) cfg h'
    (g : GlobalConfig.t) (rcv : Receiver.t) (l : loc) :
  Load s (Document y h) = Ok (cfg, h') ->
  ConfigYAML.Global y = Some g ->
  rcv ∈ ConfigYAML.Receivers y ->
  (exists c, c ∈ Receiver.OpsGenieConfigs rcv /\ OpsGenieConfig.APIURL c = None /\
             GlobalConfig.OpsGenieAPIURL g = Some l) \/
  (exists c, c ∈ Receiver.WechatConfigs rcv /\ WechatConfig.APIURL c = None /\
             GlobalConfig.WeChatAPIURL g = Some l) \/
  (exists c, c ∈ Receiver.VictorOpsConfigs rcv /\ VictorOpsConfig.APIURL c = None /\
             GlobalConfig.VictorOpsAPIURL g = Some l) ->
  Config.Global cfg = Some g /\
  l ∈ api_urls (Config.Receivers cfg) /\
  Path (cells h' l) = with_slash (Path (cells h l)).
Proof.
  intros HL HG Hrcv Hc.
  destruct (Load_Ok_resolved _ _ _ _ _ HL) as (g' & Hg' & Hof & Hres & _).
  unfold global_of in Hof. rewrite HG in Hof. subst g'.
  destruct (Load_Ok_slashed _ _ _ _ _ HL) as (h0 & Hh0 & _ & Hcells).
  unfold global_store in Hh0. rewrite HG in Hh0. subst h0.
  destruct (Forall2_elem_l _ _ _ _ Hres Hrcv)
    as (rcv' & Hrcv' & _ & _ & _ & _ & _ & _ & Hog & Hwc & Hvo).
  assert (Hl : l ∈ api_urls (Config.Receivers cfg)).
  { apply (api_urls_elem _ rcv'); [done|]. unfold receiver_api_urls.
    rewrite !elem_of_app, !list_elem_of_omap.
    destruct Hc as [(c & Hc & Hnone & Hsome)|[(c & Hc & Hnone & Hsome)|
                    (c & Hc & Hnone & Hsome)]].
    - destruct (Forall2_elem_l _ _ _ _ Hog Hc) as (c' & Hc' & _ & Hp & _).
      rewrite Hnone in Hp. simpl in Hp. left. exists c'. split; [done|congruence].
    - destruct (Forall2_elem_l _ _ _ _ Hwc Hc) as (c' & Hc' & _ & Hp & _).
      rewrite Hnone in Hp. simpl in Hp. right. left. exists c'. split; [done|congruence].
    - destruct (Forall2_elem_l _ _ _ _ Hvo Hc) as (c' & Hc' & _ & Hp & _).
      rewrite Hnone in Hp. simpl in Hp. right. right. exists c'.
      split; [done|congruence]. }
  split; [done|]. split; [done|]. by rewrite Hcells, bool_decide_eq_true_2.
Qed.

End Store.

(** * More of package [config]: the routes and rules after [Load] *)

Section Routes.
Context {RL : RegexpLib}.
Import config.

(** What the hook of [Route] leaves of a node of the document. *)
Definition node_result (node : RouteYAML.t) (n : Route.t) : Prop :=
  Route.Receiver n = RouteYAML.Receiver node /\
  Route.GroupByStr n = RouteYAML.GroupByStr node /\
  Route.Match n = RouteYAML.Match node /\
  Route.MatchRE n = RouteYAML.MatchRE node /\
  Route.Continue n = RouteYAML.Continue node /\
  length (Route.Routes n) = length (RouteYAML.Routes node) /\
  Route.GroupBy n = explicit_labels (RouteYAML.GroupByStr node) /\
  Route.GroupByAll n = bool_decide ("..." ∈ RouteYAML.GroupByStr node) /\
  NoDup (Route.GroupBy n) /\
  Forall (fun l => LabelName_IsValid l = true) (Route.GroupBy n) /\
  (Route.GroupByAll n = true -> Route.GroupBy n = []) /\
  (forall k, is_Some (Route.Match n !! k) -> LabelName_IsValid k = true) /\
  (forall k re, Route.MatchRE n !! k = Some re ->
     LabelName_IsValid k = true /\ is_Some (Regexp_.compiled re)).

Lemma hooked_node_result (node : RouteYAML.t) (n : Route.t) :
  hooked node n -> node_result node n.
Proof.
  intros Hh. pose proof (hooked_group_by _ _ Hh) as Hgb.
  pose proof (group_by_loop_Ok _ _ _ _ _ Hgb) as [HGB HAll]. simpl in HGB, HAll.
  unfold node_result.
  rewrite (hooked_Receiver _ _ Hh), (hooked_GroupByStr _ _ Hh), (hooked_Match _ _ Hh),
    (hooked_MatchRE _ _ Hh), (hooked_Continue _ _ Hh).
  split_and!; try done.
  - pose proof (hooked_routes _ _ Hh) as Hr%mapR_Ok_Forall2.
    symmetry. by eapply Forall2_length.
  - eapply check_duplicates_Ok, (hooked_duplicates _ _ Hh).
  - rewrite Forall_forall. intros l Hl. rewrite HGB in Hl.
    apply explicit_labels_elem in Hl as [Hl Hne].
    by eapply group_by_loop_valid.
  - intros Hall. pose proof (hooked_wildcard _ _ Hh) as Hw.
    rewrite Hall, andb_true_r in Hw. apply Nat.ltb_ge in Hw.
    destruct (Route.GroupBy n); [done|simpl in Hw; lia].
  - intros k Hk. by eapply check_label_names_Ok, Hk; apply (hooked_match _ _ Hh).
  - intros k re Hk. by eapply MatchRegexps_Ok; [apply (hooked_match_re _ _ Hh)|].
Qed.

(** X9: The route tree that [Load] returns has the shape of the tree of the
    document; at every node the fields of the document are kept, [GroupBy]
    holds the labels of [group_by] other than the wildcard, all valid and
    none twice, [GroupByAll] says whether the wildcard was there, and the
    two are never set together. *)
Theorem Load_route_results (s : string) (y : ConfigYAML.t) (h : heap) cfg h' :
  Load s (Document y h) = Ok (cfg, h') ->
  exists ry r, ConfigYAML.Route y = Some ry /\ Config.Route cfg = Some r /\
    Forall2 node_result (nodesY ry) (nodes r).
Proof.
  intros HL.
  pose proof HL as (y' & h1 & c & g & out & r & [<- <-]%Document_inj & Hb & _ & _ & ->)%Load_Ok.
  apply before_checkReceiver_Ok in Hb as (_ & _ & _ & _ & ry & Hry & _).
  destruct (Load_Ok_hooked _ _ _ _ _ _ HL Hry) as (r' & Hr' & _ & Hnodes).
  exists ry, r'. split; [done|]. split; [done|].
  eapply Forall2_impl; [exact Hnodes|]. apply hooked_node_result.
Qed.

(** What is asked of an inhibit rule. *)
Definition rule_valid (rule : InhibitRule.t) : Prop :=
  (forall k, is_Some (InhibitRule.SourceMatch rule !! k) -> LabelName_IsValid k = true) /\
  (forall k, is_Some (InhibitRule.TargetMatch rule !! k) -> LabelName_IsValid k = true) /\
  (forall k re, InhibitRule.SourceMatchRE rule !! k = Some re ->
     LabelName_IsValid k = true /\ is_Some (Regexp_.compiled re)) /\
  (forall k re, InhibitRule.TargetMatchRE rule !! k = Some re ->
     LabelName_IsValid k = true /\ is_Some (Regexp_.compiled re)).

(** X10: [Load] returns the inhibit rules, the template paths and a given global
    block as the document has them, and the text it was given; the inhibit
    rules are valid and [equal] is not looked at. *)
Theorem Load_keeps_document (s : string) (y : ConfigYAML.t) (h : heap) cfg h' :
  Load s (Document y h) = Ok (cfg, h') ->
  Config.InhibitRules cfg = ConfigYAML.InhibitRules y /\
  Forall rule_valid (Config.InhibitRules cfg) /\
  Config.Templates cfg = ConfigYAML.Templates y /\
  Config.original cfg = s /\
  (forall g, ConfigYAML.Global y = Some g -> Config.Global cfg = Some g) /\
  is_Some (Config.Global cfg).
Proof.
  intros (y' & h1 & c & g & out & r & [<- <-]%Document_inj & Hb & _ & _ & ->)%Load_Ok.
  pose proof (before_checkReceiver_global _ _ _ _ _ _ _ Hb) as Hg.
  apply before_checkReceiver_Ok in Hb as (Hp & _).
  pose proof (unmarshal_plain_Ok _ _ Hp) as (_ & _ & HT & _).
  apply unmarshal_plain_Ok_parts in Hp as [Hrules _]. simpl.
  pose proof (mapR_InhibitRule_Ok _ _ Hrules) as Heq.
  split; [done|]. split.
  { rewrite Heq. rewrite Heq in Hrules. apply mapR_Ok_Forall2 in Hrules.
    rewrite Forall_forall. intros rule Hin.
    destruct (Forall2_elem_l _ _ _ _ Hrules Hin)
      as (r' & _ & (_ & H1 & H2 & H3 & H4)%InhibitRule_UnmarshalYAML_Ok).
    unfold rule_valid. split_and!.
    - intros k Hk. exact (check_label_names_Ok _ _ H3 Hk).
    - intros k Hk. exact (check_label_names_Ok _ _ H4 Hk).
    - intros k re Hk. exact (MatchRegexps_Ok _ _ _ H1 Hk).
    - intros k re Hk. exact (MatchRegexps_Ok _ _ _ H2 Hk). }
  split; [done|]. split; [done|]. split; [|eauto].
  intros g0 Hg0. rewrite Hg0 in Hg. by subst.
Qed.

End Routes.

(** * More of package [config]: marshalers, copies and files *)

Section Scalars.
Context {RL : RegexpLib} {U : config.URLLib} {J : config.JSONLib} {N : config.NetLib}
        {F : config.FilepathLib}.
Import config.

Lemma Regexp_UnmarshalYAML_Ok s re :
  Regexp_UnmarshalYAML (Some s) = Ok re ->
  Regexp_.original re = s /\ Regexp_.compiled re = Compile ("^(?:" +:+ s +:+ ")$") /\
  is_Some (Regexp_.compiled re).
Proof.
  unfold Regexp_UnmarshalYAML. destruct (Compile _) as [regex|] eqn:Hc; [|done].
  intros [= <-]. simpl. eauto.
Qed.

(** X11: A regular expression of the configuration is written back as the text
    it was read from, and reading that text again gives the same value; the
    expression read from the empty text is valid, but it is written back as
    nothing at all. *)
Theorem Regexp_round_trip :
  (forall s re,
     Regexp_UnmarshalYAML (Some s) = Ok re ->
     Regexp_MarshalYAML re = (if String.eqb s "" then None else Some s)) /\
  (forall s re,
     s <> "" -> Regexp_UnmarshalYAML (Some s) = Ok re ->
     Regexp_UnmarshalYAML (Regexp_MarshalYAML re) = Ok re) /\
  (forall re text re',
     Regexp_MarshalYAML re = Some text ->
     Regexp_UnmarshalYAML (Some text) = Ok re' ->
     text <> "" /\ Regexp_.original re' = Regexp_.original re) /\
  (forall re,
     Regexp_UnmarshalYAML (Some "") = Ok re ->
     is_Some (Regexp_.compiled re) /\
     Regexp_MarshalYAML re = None /\ Regexp_MarshalJSON re = None /\
     Regexp_UnmarshalYAML (Regexp_MarshalYAML re) = Err NotAString) /\
  (forall data s,
     json_Unmarshal data = Some s ->
     Regexp_UnmarshalJSON data = Regexp_UnmarshalYAML (Some s)) /\
  (forall s re,
     json_Unmarshal (json_Marshal s) = Some s ->
     s <> "" -> Regexp_UnmarshalYAML (Some s) = Ok re ->
     exists data, Regexp_MarshalJSON re = Some data /\
                  Regexp_UnmarshalJSON data = Ok re).
Proof.
  refine (conj _ (conj _ (conj _ (conj _ (conj _ _))))).
  - intros s re (Ho & _)%Regexp_UnmarshalYAML_Ok.
    unfold Regexp_MarshalYAML. rewrite Ho. by destruct (String.eqb s "").
  - intros s re Hs Hre. pose proof Hre as (Ho & _)%Regexp_UnmarshalYAML_Ok.
    unfold Regexp_MarshalYAML. rewrite Ho.
    apply String.eqb_neq in Hs. by rewrite Hs.
  - intros re text re'. unfold Regexp_MarshalYAML.
    destruct (String.eqb (Regexp_.original re) "") eqn:He; [done|].
    intros [= <-] (Ho & _)%Regexp_UnmarshalYAML_Ok.
    split; [by apply String.eqb_neq|done].
  - intros re Hre. pose proof Hre as (Ho & _ & Hc)%Regexp_UnmarshalYAML_Ok.
    unfold Regexp_MarshalYAML, Regexp_MarshalJSON. rewrite Ho. by simpl.
  - intros data s Hd. unfold Regexp_UnmarshalJSON, Regexp_UnmarshalYAML. by rewrite Hd.
  - intros s re Hj Hs Hre. pose proof Hre as (Ho & _)%Regexp_UnmarshalYAML_Ok.
    unfold Regexp_MarshalJSON. rewrite Ho.
    apply String.eqb_neq in Hs. rewrite Hs. simpl. eexists. split; [done|].
    unfold Regexp_UnmarshalJSON. rewrite Hj. exact Hre.
Qed.

Lemma append_colon_nonempty a b : a +:+ ":" +:+ b <> "".
Proof. by destruct a. Qed.

Lemma HostPort_String_port hp : hp_Port hp <> "" -> HostPort_String hp <> "".
Proof.
  unfold HostPort_String. intros Hp%String.eqb_neq. rewrite Hp, andb_false_r.
  apply append_colon_nonempty.
Qed.

(** X12: Decoding a [host:port] text: the empty text leaves the value as it is,
    every other text gives a value with a port, so that a decoded smarthost
    counts as unset exactly when its text was empty; a text with an empty
    port is refused. *)
Theorem HostPort_decode :
  (forall hp, HostPort_UnmarshalYAML (Some "") hp = inr hp) /\
  (forall s hp hp',
     s <> "" -> HostPort_UnmarshalYAML (Some s) hp = inr hp' ->
     net_SplitHostPort s = Some (hp_Host hp', hp_Port hp') /\
     hp_Port hp' <> "" /\ HostPort_String hp' <> "") /\
  (forall s hp',
     HostPort_UnmarshalYAML (Some s) {| hp_Host := ""; hp_Port := "" |} = inr hp' ->
     (HostPort_String hp' = "" <-> s = "")) /\
  (forall s host hp,
     s <> "" -> net_SplitHostPort s = Some (host, "") ->
     HostPort_UnmarshalYAML (Some s) hp = inl (PortCannotBeEmpty s)) /\
  (forall hp hp0,
     hp_Port hp <> "" ->
     net_SplitHostPort (HostPort_String hp) = Some (hp_Host hp, hp_Port hp) ->
     HostPort_UnmarshalYAML (Some (HostPort_MarshalYAML hp)) hp0 = inr hp) /\
  (forall data s hp,
     json_Unmarshal data = Some s ->
     HostPort_UnmarshalJSON data hp = HostPort_UnmarshalYAML (Some s) hp).
Proof.
  assert (Hdec : forall s hp hp',
     s <> "" -> HostPort_UnmarshalYAML (Some s) hp = inr hp' ->
     net_SplitHostPort s = Some (hp_Host hp', hp_Port hp') /\
     hp_Port hp' <> "" /\ HostPort_String hp' <> "").
  { intros s hp hp' Hs%String.eqb_neq. unfold HostPort_UnmarshalYAML. rewrite Hs.
    destruct (net_SplitHostPort s) as [[host port]|]; [|done].
    destruct (String.eqb port "") eqn:Hp; [done|]. intros [= <-]. simpl.
    apply String.eqb_neq in Hp. split; [done|]. split; [done|].
    by apply HostPort_String_port. }
  refine (conj _ (conj Hdec (conj _ (conj _ (conj _ _))))).
  - done.
  - intros s hp' H. destruct (decide (s = "")) as [->|Hs].
    + injection H as <-. done.
    + destruct (Hdec _ _ _ Hs H) as (_ & _ & Hne). split; [done|]. done.
  - intros s host hp Hs%String.eqb_neq Hsplit.
    unfold HostPort_UnmarshalYAML. by rewrite Hs, Hsplit.
  - intros hp hp0 Hp Hsplit. unfold HostPort_UnmarshalYAML, HostPort_MarshalYAML.
    pose proof (HostPort_String_port _ Hp) as Hne%String.eqb_neq.
    rewrite Hne, Hsplit. apply String.eqb_neq in Hp. rewrite Hp. by destruct hp.
  - intros data s hp Hd. unfold HostPort_UnmarshalJSON, HostPort_UnmarshalYAML.
    by rewrite Hd.
Qed.

(** X13: [URL.Copy] makes a new object with the value of the old one: a write
    through one of the two pointers is not seen through the other. *)
Theorem URL_Copy_independent (u : loc) (h : heap) :
  u < next h ->
  exists v h1,
    URL_Copy u h = Ok (v, h1) /\ v <> u /\
    cells h1 v = cells h u /\
    (forall l, l <> v -> cells h1 l = cells h l) /\
    (forall r h2, ensure_slash v h1 = Ok (r, h2) ->
       cells h2 u = cells h u /\
       Path (cells h2 v) = with_slash (Path (cells h u))) /\
    (forall r h2, ensure_slash u h1 = Ok (r, h2) ->
       cells h2 v = cells h u /\
       Path (cells h2 u) = with_slash (Path (cells h u))).
Proof.
  intros Hu. eexists (next h), _. split; [reflexivity|]. simpl.
  split; [lia|]. split; [by rewrite fn_lookup_insert|].
  split; [intros l Hl; by rewrite fn_lookup_insert_ne|].
  split.
  - intros r h2 Hs. pose proof (ensure_slash_path _ _ _ _ Hs) as Hp. simpl in Hp.
    rewrite fn_lookup_insert in Hp. split; [|done].
    apply ensure_slash_slashed in Hs as [_ Hc]. rewrite Hc.
    rewrite bool_decide_eq_false_2 by (intros ?%list_elem_of_singleton; lia).
    simpl. rewrite fn_lookup_insert_ne by lia. done.
  - intros r h2 Hs. pose proof (ensure_slash_path _ _ _ _ Hs) as Hp. simpl in Hp.
    rewrite fn_lookup_insert_ne in Hp by lia. split; [|done].
    apply ensure_slash_slashed in Hs as [_ Hc]. rewrite Hc.
    rewrite bool_decide_eq_false_2 by (intros ?%list_elem_of_singleton; lia).
    simpl. by rewrite fn_lookup_insert.
Qed.

Lemma join_unchanged base fp :
  fp = "" \/ filepath_IsAbs fp = true -> join base fp = fp.
Proof. unfold join. intros [-> | ->]; [done|]. by rewrite andb_false_r. Qed.

Lemma join_relative base fp :
  fp <> "" -> filepath_IsAbs fp = false -> join base fp = filepath_Join base fp.
Proof. unfold join. intros Hne ->. by destruct fp. Qed.

Lemma join_idem base fp :
  filepath_IsAbs (filepath_Join base fp) = true ->
  join base (join base fp) = join base fp.
Proof.
  intros Ha. destruct (decide (fp = "")) as [->|Hne]; [done|].
  destruct (filepath_IsAbs fp) eqn:Hfp.
  - rewrite (join_unchanged base fp) by auto. apply join_unchanged. auto.
  - rewrite (join_relative base fp) by done. apply join_unchanged. auto.
Qed.

(** X14: [LoadFile] returns what [Load] makes of the content of the file, with
    the template paths resolved against the directory of the file: an empty
    or absolute path is kept, a relative one is joined to the directory, and
    number and order of the paths stay.  Where joining to the directory
    gives absolute paths, resolving a second time changes nothing. *)
Theorem LoadFile_resolves_templates :
  (forall filename decode, LoadFile filename None decode = inl ReadFileError) /\
  (forall filename content decode e,
     Load content (decode content) = Err e ->
     LoadFile filename (Some content) decode = inl (LoadError e)) /\
  (forall filename file decode cfg' h',
     LoadFile filename file decode = inr (cfg', h') ->
     exists content y h cfg,
       file = Some content /\ decode content = Document y h /\
       Load content (Document y h) = Ok (cfg, h') /\
       Config.original cfg' = content /\
       Config.Global cfg' = Config.Global cfg /\
       Config.Route cfg' = Config.Route cfg /\
       Config.InhibitRules cfg' = Config.InhibitRules cfg /\
       Config.Receivers cfg' = Config.Receivers cfg /\
       Forall2 (fun fp fp' =>
           (fp = "" \/ filepath_IsAbs fp = true -> fp' = fp) /\
           (fp <> "" -> filepath_IsAbs fp = false ->
            fp' = filepath_Join (filepath_Dir filename) fp))
         (ConfigYAML.Templates y) (Config.Templates cfg')) /\
  (forall baseDir cfg,
     (forall fp, fp ∈ Config.Templates cfg ->
                 filepath_IsAbs (filepath_Join baseDir fp) = true) ->
     resolveFilepaths baseDir (resolveFilepaths baseDir cfg) =
     resolveFilepaths baseDir cfg).
Proof.
  refine (conj _ (conj _ (conj _ _))).
  - done.
  - intros filename content decode e He. unfold LoadFile. by rewrite He.
  - intros filename file decode cfg' h'. unfold LoadFile.
    destruct file as [content|]; [|done].
    destruct (Load content (decode content)) as [[[cfg h]|e]|] eqn:HL; [|done..].
    intros [= <- <-].
    pose proof HL as (y & h0 & c & g & out & r & Hdec & Hb & _ & _ & ->)%Load_Ok.
    apply before_checkReceiver_Ok in Hb as (Hp & _).
    apply unmarshal_plain_Ok in Hp as (_ & _ & HT & _).
    exists content, y, h0, (loaded content c g out.1).
    rewrite Hdec in HL. split_and!; try done. simpl. rewrite HT.
    generalize (ConfigYAML.Templates y). intros fps.
    induction fps as [|fp fps IH]; simpl; constructor; [|done].
    split; [apply join_unchanged|apply join_relative].
  - intros baseDir cfg Habs. unfold resolveFilepaths. simpl. f_equal.
    induction (Config.Templates cfg) as [|fp fps IH]; [done|]. simpl.
    rewrite join_idem by (apply Habs; left). f_equal. apply IH.
    intros fp' Hfp'. apply Habs. by right.
Qed.

Lemma parseURL_Ok s u :
  parseURL s = Ok u <->
  url_Parse s = Some u /\ (Scheme u = "http" \/ Scheme u = "https") /\ Host u <> "".
Proof.
  unfold parseURL. destruct (url_Parse s) as [v|]; [|split; [done|by intros [? _]]].
  destruct (String.eqb_spec (Scheme v) "http") as [H1|H1];
    destruct (String.eqb_spec (Scheme v) "https") as [H2|H2];
    destruct (String.eqb_spec (Host v) "") as [H3|H3]; simpl;
    (split;
     [intros Hx; try discriminate Hx; injection Hx as <-; auto
     |intros ([= <-] & Hs & Hh); first [done | destruct Hs; congruence]]).
Qed.

(** X15: A URL that decodes is an HTTP or HTTPS URL with a host, never nil; a
    secret URL that decodes is such a URL or the empty URL, and it is the
    empty URL exactly when the text was the placeholder. *)
Theorem decoded_URLs_are_valid :
  (forall s u,
     parseURL s = Ok u <->
     url_Parse s = Some u /\ (Scheme u = "http" \/ Scheme u = "https") /\ Host u <> "") /\
  (forall node u,
     URL_UnmarshalYAML node = Ok u ->
     exists s v, node = Some s /\ u = Some v /\ parseURL s = Ok v) /\
  (forall data u,
     URL_UnmarshalJSON data = Ok u ->
     exists s v, json_Unmarshal data = Some s /\ u = Some v /\ parseURL s = Ok v) /\
  (forall node su,
     SecretURL_UnmarshalYAML node = Ok su ->
     exists s v, node = Some s /\ su = Some v /\
       (v = empty_URL <-> s = secretToken) /\
       (s <> secretToken -> parseURL s = Ok v)) /\
  (forall data su,
     SecretURL_UnmarshalJSON data = Ok su ->
     exists v, su = Some v /\
       (v = empty_URL <-> data = secretToken \/ data = secretTokenJSON)).
Proof.
  assert (Hne : forall s v, parseURL s = Ok v -> v <> empty_URL).
  { intros s v (_ & _ & Hh)%parseURL_Ok ->. done. }
  refine (conj parseURL_Ok (conj _ (conj _ (conj _ _)))).
  - intros node u. unfold URL_UnmarshalYAML. destruct node as [s|]; [|done].
    destruct (parseURL s) as [v|] eqn:Hp; [|done]. intros [= <-]. eauto.
  - intros data u. unfold URL_UnmarshalJSON.
    destruct (json_Unmarshal data) as [s|]; [|done].
    destruct (parseURL s) as [v|] eqn:Hp; [|done]. intros [= <-]. eauto.
  - intros node su. unfold SecretURL_UnmarshalYAML, URL_UnmarshalYAML.
    destruct node as [s|]; [|done].
    destruct (String.eqb s secretToken) eqn:Hs.
    + apply String.eqb_eq in Hs. intros [= <-]. exists s, empty_URL.
      split_and!; try done.
    + apply String.eqb_neq in Hs. destruct (parseURL s) as [v|] eqn:Hp; [|done].
      intros [= <-]. exists s, v. split_and!; try done.
      split; [intros ->; by destruct (Hne _ _ Hp)|done].
  - intros data su. unfold SecretURL_UnmarshalJSON, URL_UnmarshalJSON.
    destruct (String.eqb data secretToken) eqn:H1; simpl.
    { apply String.eqb_eq in H1. intros [= <-]. exists empty_URL. split; [done|]. tauto. }
    destruct (String.eqb data secretTokenJSON) eqn:H2; simpl.
    { apply String.eqb_eq in H2. intros [= <-]. exists empty_URL. split; [done|]. tauto. }
    apply String.eqb_neq in H1, H2.
    destruct (json_Unmarshal data) as [s|]; [|done].
    destruct (parseURL s) as [v|] eqn:Hp; [|done]. intros [= <-].
    exists v. split; [done|]. split; [intros ->; by destruct (Hne _ _ Hp)|by intros [?|?]].
Qed.

(** X16: The JSON marshalers print the placeholder also where nothing is set,
    while the YAML marshalers print nothing there: an unset secret URL that
    goes through JSON comes back as the empty URL, not as nil; and a secret
    that is read back from its marshaled form is the placeholder itself. *)
Theorem unset_secrets_in_JSON :
  Secret_MarshalYAML "" = None /\
  Secret_MarshalJSON "" = secretTokenJSON /\
  SecretURL_MarshalYAML None = None /\
  SecretURL_MarshalJSON None = secretTokenJSON /\
  SecretURL_UnmarshalJSON (SecretURL_MarshalJSON None) = Ok (Some empty_URL) /\
  (forall s text,
     Secret_MarshalYAML s = Some text ->
     Secret_UnmarshalYAML (Some text) = Ok secretToken /\
     Secret_MarshalYAML secretToken = Some text) /\
  (forall s1 s2 : Secret,
     Secret_MarshalJSON s1 = Secret_MarshalJSON s2 /\
     (s1 <> "" -> s2 <> "" -> Secret_MarshalYAML s1 = Secret_MarshalYAML s2)).
Proof.
  split_and!; try done.
  - unfold SecretURL_UnmarshalJSON, SecretURL_MarshalJSON, secretTokenJSON.
    by rewrite String.eqb_refl, orb_true_r.
  - intros s text. unfold Secret_MarshalYAML.
    destruct (String.eqb s ""); simpl; [done|]. by intros [= <-].
  - intros s1 s2. split; [done|]. intros H1%String.eqb_neq H2%String.eqb_neq.
    unfold Secret_MarshalYAML. by rewrite H1, H2.
Qed.

End Scalars.

(** * Further statements on the sample documents *)

Lemma Load_error_sound_witness :
  (config.Load "text" (config.Document ghost_document sample_heap)
     = config.Err (config.UndefinedReceiver "ghost") /\
   document_defect ghost_document sample_heap (config.UndefinedReceiver "ghost")) /\
  (config.Load "text" (config.Parsed twice_then_null_document sample_heap)
     = config.Err (config.NameNotUnique "default") /\
   document_defect (config.deref_document twice_then_null_document) sample_heap
     (config.NameNotUnique "default")) /\
  (config.Load (RL := toyRegexp) "text" (config.Malformed (config.RegexpError "^(?:[)$"))
     = config.Err (config.RegexpError "^(?:[)$") /\
   config.RegexpError "^(?:[)$" = config.RegexpError "^(?:[)$").
Proof.
  assert (HL : config.Load "text" (config.Document ghost_document sample_heap)
               = config.Err (config.UndefinedReceiver "ghost"))
    by (vm_compute; reflexivity).
  assert (HL2 : config.Load "text" (config.Parsed twice_then_null_document sample_heap)
                = config.Err (config.NameNotUnique "default"))
    by (vm_compute; reflexivity).
  assert (HL3 : config.Load (RL := toyRegexp) "text"
                  (config.Malformed (config.RegexpError "^(?:[)$"))
                = config.Err (config.RegexpError "^(?:[)$")) by reflexivity.
  split; [|split].
  - split; [exact HL|].
    exact (Load_error_sound "text" (config.Document ghost_document sample_heap) _ HL).
  - split; [exact HL2|].
    exact (Load_error_sound "text"
             (config.Parsed twice_then_null_document sample_heap) _ HL2).
  - split; [exact HL3|].
    exact (Load_error_sound "text" (config.Malformed (config.RegexpError "^(?:[)$")) _ HL3).
Defined.

Lemma Load_resolves_receivers_witness :
  exists cfg h',
    config.Load "text" (config.Document good_document sample_heap) = config.Ok (cfg, h') /\
    exists g, config.Config.Global cfg = Some g /\
      global_of good_document sample_heap g /\
      Forall2 (receiver_resolved g) (config.ConfigYAML.Receivers good_document)
              (config.Config.Receivers cfg) /\
      config.Receiver.Name <$> config.Config.Receivers cfg =
        config.Receiver.Name <$> config.ConfigYAML.Receivers good_document /\
      NoDup (config.Receiver.Name <$> config.Config.Receivers cfg) /\
      "" ∉ config.Receiver.Name <$> config.Config.Receivers cfg.
Proof.
  pose proof (Load_resolves_receivers (RL := toyRegexp) "text" good_document
                sample_heap) as H.
  revert H. loaded_or_absurd HL. intros H. do 2 eexists. split; [reflexivity|].
  exact (H _ _ eq_refl).
Defined.

Lemma Load_store_witness :
  exists cfg h',
    config.Load "text" (config.Document good_document sample_heap) = config.Ok (cfg, h') /\
    exists h0,
      global_store good_document sample_heap h0 /\
      (forall l, l < config.next sample_heap ->
                 config.cells h0 l = config.cells sample_heap l) /\
      config.next h' = config.next h0 /\
      (forall l, l ∈ api_urls (config.Config.Receivers cfg) ->
         config.Scheme (config.cells h' l) = config.Scheme (config.cells h0 l) /\
         config.Host (config.cells h' l) = config.Host (config.cells h0 l) /\
         config.Path (config.cells h' l) = with_slash (config.Path (config.cells h0 l))) /\
      (forall l, l ∉ api_urls (config.Config.Receivers cfg) ->
         config.cells h' l = config.cells h0 l).
Proof.
  pose proof (Load_store (RL := toyRegexp) "text" good_document sample_heap) as H.
  revert H. loaded_or_absurd HL. intros H. do 2 eexists. split; [reflexivity|].
  exact (H _ _ eq_refl).
Defined.

Lemma global_urls_shared_witness :
  exists cfg h',
    config.Load "text" (config.Document good_document sample_heap) = config.Ok (cfg, h') /\
    config.Config.Global cfg = Some (sample_global example_smarthost) /\
    2 ∈ api_urls (config.Config.Receivers cfg) /\
    config.Path (config.cells h' 2) = with_slash (config.Path (config.cells sample_heap 2)).
Proof.
  pose proof (global_urls_shared (RL := toyRegexp) "text" good_document sample_heap) as H.
  revert H. loaded_or_absurd HL. intros H. do 2 eexists. split; [reflexivity|].
  apply (H _ _ (sample_global example_smarthost) pager_receiver 2 eq_refl eq_refl).
  - apply list_elem_of_In. simpl. auto.
  - right. left. eexists. split; [left|]. split; reflexivity.
Defined.

Lemma Load_route_results_witness :
  exists cfg h',
    config.Load "text" (config.Document good_document sample_heap) = config.Ok (cfg, h') /\
    exists ry r, config.ConfigYAML.Route good_document = Some ry /\
      config.Config.Route cfg = Some r /\
      Forall2 node_result (nodesY ry) (nodes r).
Proof.
  pose proof (Load_route_results (RL := toyRegexp) "text" good_document sample_heap) as H.
  revert H. loaded_or_absurd HL. intros H. do 2 eexists. split; [reflexivity|].
  exact (H _ _ eq_refl).
Defined.

Lemma Load_keeps_document_witness :
  exists cfg h',
    config.Load "text" (config.Document good_document sample_heap) = config.Ok (cfg, h') /\
    config.Config.InhibitRules cfg = config.ConfigYAML.InhibitRules good_document /\
    Forall rule_valid (config.Config.InhibitRules cfg) /\
    config.Config.Templates cfg = config.ConfigYAML.Templates good_document /\
    config.Config.original cfg = "text" /\
    (forall g, config.ConfigYAML.Global good_document = Some g ->
               config.Config.Global cfg = Some g) /\
    is_Some (config.Config.Global cfg).
Proof.
  pose proof (Load_keeps_document (RL := toyRegexp) "text" good_document sample_heap) as H.
  revert H. loaded_or_absurd HL. intros H. do 2 eexists. split; [reflexivity|].
  exact (H _ _ eq_refl).
Defined.

Lemma URL_Copy_independent_witness :
  exists v h1,
    config.URL_Copy 2 sample_heap = config.Ok (v, h1) /\ v <> 2 /\
    config.cells h1 v = config.cells sample_heap 2 /\
    (forall l, l <> v -> config.cells h1 l = config.cells sample_heap l) /\
    (forall r h2, config.ensure_slash v h1 = config.Ok (r, h2) ->
       config.cells h2 2 = config.cells sample_heap 2 /\
       config.Path (config.cells h2 v) =
         with_slash (config.Path (config.cells sample_heap 2))) /\
    (forall r h2, config.ensure_slash 2 h1 = config.Ok (r, h2) ->
       config.cells h2 v = config.cells sample_heap 2 /\
       config.Path (config.cells h2 2) =
         with_slash (config.Path (config.cells sample_heap 2))).
Proof. apply (URL_Copy_independent 2 sample_heap). simpl. lia. Defined.

(** The global WeChat URL of the sample store has no final slash; a copy of
    it keeps the path when the original is given its slash. *)
Example copy_keeps_its_path :
  exists v h1 h2,
    config.URL_Copy 2 sample_heap = config.Ok (v, h1) /\
    config.ensure_slash 2 h1 = config.Ok (tt, h2) /\
    config.Path (config.cells h2 2) = "/cgi-bin/" /\
    config.Path (config.cells h2 v) = "/cgi-bin".
Proof. do 3 eexists. split; [reflexivity|]. split; [reflexivity|]. split; reflexivity. Qed.

(** A smarthost with an IPv6 host is read from the bracketed form, and is
    written back without the brackets, which does not read again. *)
Example bracketed_host_is_not_written_back :
  @config.HostPort_UnmarshalYAML config.toyNet (Some "[::1]:25") no_host
    = inr {| config.hp_Host := "::1"; config.hp_Port := "25" |} /\
  config.HostPort_MarshalYAML {| config.hp_Host := "::1"; config.hp_Port := "25" |}
    = "::1:25" /\
  @config.HostPort_UnmarshalYAML config.toyNet (Some "::1:25") no_host
    = inl (config.SplitHostPortError "::1:25") /\
  @config.HostPort_UnmarshalYAML config.toyNet (Some "smtp.example.com:") no_host
    = inl (config.PortCannotBeEmpty "smtp.example.com:") /\
  @config.HostPort_UnmarshalYAML config.toyNet (Some "smtp.example.com:25") no_host
    = inr example_smarthost.
Proof. repeat split; reflexivity. Qed.

(** The sample document with three template paths, loaded from a file. *)
Definition templated_document : @config.ConfigYAML.t toyRegexp := {|
  config.ConfigYAML.Global := config.ConfigYAML.Global good_document;
  config.ConfigYAML.Route := config.ConfigYAML.Route good_document;
  config.ConfigYAML.InhibitRules := [];
  config.ConfigYAML.Receivers := config.ConfigYAML.Receivers good_document;
  config.ConfigYAML.Templates := ["templates/*.tmpl"; "/etc/shared/*.tmpl"; ""]
|}.

Example templates_of_a_file :
  exists cfg h,
    @config.LoadFile toyRegexp config.toyFilepath "/etc/alertmanager/config.yml"
      (Some "text") (fun _ => config.Document templated_document sample_heap)
      = inr (cfg, h) /\
    config.Config.Templates cfg =
      ["/etc/alertmanager/templates/*.tmpl"; "/etc/shared/*.tmpl"; ""] /\
    config.Config.original cfg = "text".
Proof.
  destruct (@config.LoadFile toyRegexp config.toyFilepath "/etc/alertmanager/config.yml"
      (Some "text") (fun _ => config.Document templated_document sample_heap))
    as [[e|[cfg h]]|] eqn:HL; [vm_compute in HL; discriminate HL| |
                               vm_compute in HL; discriminate HL].
  exists cfg, h. split; [reflexivity|].
  vm_compute in HL. injection HL as <- <-. split; reflexivity.
Qed.

(** * More of package [config]: what [Load] does not look at *)

Section Oblivious.
Context {RL : RegexpLib}.
Import config.

(** Two runs agree: the same error, or the same value and as many URL
    objects. *)
Definition agree {A} (r1 r2 : result (A * heap)) : Prop :=
  match r1, r2 with
  | Ok (a1, h1), Ok (a2, h2) => a1 = a2 /\ next h1 = next h2
  | Err e1, Err e2 => e1 = e2
  | _, _ => False
  end.

(** A computation that does not look into the URL objects. *)
Definition oblivious {A} (m : M A) : Prop :=
  forall h1 h2, next h1 = next h2 -> agree (m h1) (m h2).

Lemma oblivious_ret {A} (a : A) : oblivious (mret a).
Proof. by intros h1 h2 Hn. Qed.

Lemma oblivious_lift {A} (r : result A) : oblivious (lift r).
Proof. intros h1 h2 Hn. unfold lift. by destruct r. Qed.

Lemma oblivious_fail {A} e : oblivious (fail e : M A).
Proof. by intros h1 h2 Hn. Qed.

Lemma oblivious_alloc u : oblivious (alloc u).
Proof. intros h1 h2 Hn. simpl. by rewrite Hn. Qed.

Lemma oblivious_ensure_slash l : oblivious (ensure_slash l).
Proof.
  intros h1 h2 Hn.
  destruct (ensure_slash_Ok l h1) as (h1' & -> & _ & _ & Hn1).
  destruct (ensure_slash_Ok l h2) as (h2' & -> & _ & _ & Hn2).
  simpl. split; [done|congruence].
Qed.

Lemma oblivious_bind {A B} (m : M A) (f : A -> M B) :
  oblivious m -> (forall a, oblivious (f a)) -> oblivious (m ≫= f).
Proof.
  intros Hm Hf h1 h2 Hn. specialize (Hm h1 h2 Hn). unfold mbind, M_bind.
  destruct (m h1) as [[a1 h1']|e1], (m h2) as [[a2 h2']|e2]; simpl in Hm; try done.
  destruct Hm as [-> Hn']. by apply Hf.
Qed.

Lemma oblivious_mapM {A B} (f : A -> M B) (l : list A) :
  (forall a, oblivious (f a)) -> oblivious (mapM f l).
Proof.
  intros Hf. induction l as [|a l IH]; simpl; [apply oblivious_ret|].
  apply oblivious_bind; [done|]. intros b.
  apply oblivious_bind; [done|]. intros bs. apply oblivious_ret.
Qed.

Ltac oblivious_steps :=
  repeat first
    [ apply oblivious_ret | apply oblivious_lift | apply oblivious_fail
    | apply oblivious_alloc | apply oblivious_ensure_slash
    | apply oblivious_bind; [|intros ?] ].

Lemma oblivious_default_receiver g rcv : oblivious (default_receiver g rcv).
Proof.
  unfold default_receiver.
  apply oblivious_bind; [apply oblivious_mapM; intros c; unfold default_webhook;
                         oblivious_steps|intros ?].
  apply oblivious_bind; [apply oblivious_mapM; intros c; unfold default_email;
                         oblivious_steps|intros ?].
  apply oblivious_bind; [apply oblivious_mapM; intros c; unfold default_slack;
                         oblivious_steps|intros ?].
  apply oblivious_bind; [apply oblivious_mapM; intros c; unfold default_pushover;
                         oblivious_steps|intros ?].
  apply oblivious_bind; [apply oblivious_mapM; intros c; unfold default_pagerduty;
                         oblivious_steps|intros ?].
  apply oblivious_bind; [apply oblivious_mapM; intros c; unfold default_opsgenie;
                         oblivious_steps|intros ?].
  apply oblivious_bind; [apply oblivious_mapM; intros c; unfold default_wechat;
                         oblivious_steps|intros ?].
  apply oblivious_bind; [apply oblivious_mapM; intros c; unfold default_victorops;
                         oblivious_steps|intros ?].
  apply oblivious_ret.
Qed.

Lemma oblivious_default_receivers g rcvs : forall names,
  oblivious (default_receivers g rcvs names).
Proof.
  induction rcvs as [|rcv rcvs IH]; intros names; cbn [default_receivers].
  - apply oblivious_ret.
  - destruct (decide (Receiver.Name rcv ∈ names)); [apply oblivious_fail|].
    apply oblivious_bind; [apply oblivious_default_receiver|intros rcv'].
    apply oblivious_bind; [apply IH|intros out]. apply oblivious_ret.
Qed.

Lemma oblivious_Config_UnmarshalYAML (y : ConfigYAML.t) :
  oblivious (Config_UnmarshalYAML y).
Proof.
  unfold Config_UnmarshalYAML.
  apply oblivious_bind; [apply oblivious_lift|intros c].
  apply oblivious_bind.
  { destruct (Config.Global c); [apply oblivious_ret|].
    unfold DefaultGlobalConfig. oblivious_steps. }
  intros g.
  apply oblivious_bind; [apply oblivious_default_receivers|intros out].
  oblivious_steps.
Qed.

(** X17: [Load] does not look into the URL objects: on two stores with as many
    objects it gives the same error or the same configuration, whatever the
    objects hold. *)
Theorem Load_ignores_URL_objects (s : string) (y : ConfigYAML.t) (h1 h2 : heap) :
  next h1 = next h2 ->
  match Load s (Document y h1), Load s (Document y h2) with
  | Ok (cfg1, h1'), Ok (cfg2, h2') => cfg1 = cfg2 /\ next h1' = next h2'
  | Err e1, Err e2 => e1 = e2
  | _, _ => False
  end.
Proof.
  intros Hn. pose proof (oblivious_Config_UnmarshalYAML y h1 h2 Hn) as H.
  rewrite !Load_by_value.
  destruct (Config_UnmarshalYAML y h1) as [[c1 h1']|e1],
           (Config_UnmarshalYAML y h2) as [[c2 h2']|e2]; simpl in H; try done.
  destruct H as [-> Hn']. destruct (Config.Route c2) as [r|]; [|done].
  by destruct (Route.Continue r).
Qed.

End Oblivious.

(** * More of package [config]: which error is reported *)

Section Priority.
Context {RL : RegexpLib}.
Import config.

(** The step of [Load] at which an error is raised: the decode hooks of
    routes, inhibit rules and receivers (1), the loop over the receivers (2),
    the checks of the root route (3), [checkReceiver] (4), and the check of
    [continue] in [Load] itself (5). *)
Definition stage (e : error) : nat :=
  match e with
  | InvalidLabelName _ | InvalidRegexpValue _ | InvalidGroupByLabel _
  | WildcardWithLabels | DuplicatedGroupByLabel _ | GroupIntervalZero
  | RepeatIntervalZero | MissingReceiverName => 1
  | NameNotUnique _ | NoGlobalSet _ => 2
  | NoRoutesProvided | RootWithoutReceiver | RootWithMatchers => 3
  | UndefinedReceiver _ => 4
  | ContinueInRootRoute => 5
  | YAMLError | NoRouteInConfig | NotAString | JSONError | URLParseError _
  | UnsupportedScheme _ | MissingHost | RegexpError _ | HostPortError _ => 0
  end.

Lemma defect_stage_pos (y : ConfigYAML.t) h e :
  document_defect y h e -> stage e <> 0.
Proof. by destruct e. Qed.

Lemma before_checkReceiver_stages (y : ConfigYAML.t) h e :
  before_checkReceiver y h = Err e ->
  unmarshal_plain y = Err e \/
  exists c, unmarshal_plain y = Ok c /\
    exists g h0, global_of y h g /\
      (default_receivers g (ConfigYAML.Receivers y) ∅ h0 = Err e \/
       exists out h1,
         default_receivers g (ConfigYAML.Receivers y) ∅ h0 = Ok (out, h1) /\
         check_root (Config.Route c) = Err e).
Proof.
  unfold before_checkReceiver. intros H.
  apply bind_Err in H as [H|(c & h1 & Hc & H)]. { left. by apply lift_Err in H. }
  right. apply lift_Ok in Hc as [Hc ->]. exists c. split; [done|].
  destruct (unmarshal_plain_Ok _ _ Hc) as (HG & HR & _).
  apply bind_Err in H as [H|(g & h0 & Hg & H)].
  { destruct (Config.Global c); [done|].
    destruct (DefaultGlobalConfig_total h) as (? & ? & Hd). congruence. }
  exists g, h0. split.
  { unfold global_of. rewrite <- HG. destruct (Config.Global c).
    - by apply mret_Ok in Hg as [-> _].
    - eauto. }
  rewrite HR in H.
  apply bind_Err in H as [H|(out & h2 & Hout & H)]; [by left|].
  right. exists out, h2. split; [done|].
  apply bind_Err in H as [H|(r & h3 & _ & H)]; [by apply lift_Err in H|done].
Qed.

Lemma plain_Err_stage (y : ConfigYAML.t) e : unmarshal_plain y = Err e -> stage e = 1.
Proof.
  intros [(ry & node & _ & _ & Hd)|[(rule & _ & Hd)|[-> _]]]%unmarshal_plain_Err.
  - by destruct e.
  - by destruct e.
  - done.
Qed.

Lemma plain_Ok_no_defect (y : ConfigYAML.t) c h e :
  unmarshal_plain y = Ok c -> stage e = 1 -> ~ document_defect y h e.
Proof.
  intros Hp Hs Hd. pose proof (unmarshal_plain_Ok _ _ Hp) as (_ & _ & _ & Hroute).
  apply unmarshal_plain_Ok_parts in Hp as [Hrules Hnames].
  assert (Hnode : forall ry node e',
            ConfigYAML.Route y = Some ry -> node ∈ nodesY ry ->
            node_defect node e' -> False).
  { intros ry node e' Hry Hn Hde. rewrite Hry in Hroute.
    destruct Hroute as (r & _ & Hhook).
    destruct (proj1 (hooked_nodes_lookup _ _ Hhook) node Hn) as (n & _ & Hhn).
    apply Route_UnmarshalYAML_Ok in Hhn. by eapply node_defect_rejected. }
  assert (Hrule : forall rule e', rule ∈ ConfigYAML.InhibitRules y ->
                                  rule_defect rule e' -> False).
  { intros rule e' Hin Hde. apply mapR_Ok_Forall2 in Hrules.
    destruct (Forall2_elem_l _ _ _ _ Hrules Hin) as (r' & _ & Hr').
    by eapply rule_defect_rejected. }
  destruct e; cbn [document_defect] in Hd; try discriminate Hs.
  - destruct Hd as [(ry & node & Hry & Hn & Hde)|(rule & Hin & Hde)].
    + by eapply Hnode.
    + by eapply Hrule.
  - destruct Hd as (ry & node & Hry & Hn & Hde). by eapply Hnode.
  - destruct Hd as (ry & node & Hry & Hn & Hde). by eapply Hnode.
  - destruct Hd as (ry & node & Hry & Hn & Hde). by eapply Hnode.
  - destruct Hd as (ry & node & Hry & Hn & Hde). by eapply Hnode.
  - destruct Hd as (ry & node & Hry & Hn & Hde). by eapply Hnode.
  - apply mapR_Ok_Forall2 in Hnames.
    apply list_elem_of_fmap in Hd as (rcv & Hname & Hin).
    destruct (Forall2_elem_l _ _ _ _ Hnames Hin) as (r' & _ & Hr').
    unfold Receiver_UnmarshalYAML in Hr'. rewrite <- Hname in Hr'. done.
  - destruct Hd as [(ry & node & Hry & Hn & Hde)|(rule & Hin & Hde)].
    + by eapply Hnode.
    + by eapply Hrule.
Qed.

Lemma receivers_Err_stage g rcvs h e :
  default_receivers g rcvs ∅ h = Err e -> stage e = 2.
Proof.
  intros [(n & -> & _)|(f & rcv & _ & -> & _)]%default_receivers_Err; done.
Qed.

Lemma receivers_Ok_no_defect (y : ConfigYAML.t) h g h0 out h1 e :
  global_of y h g ->
  default_receivers g (ConfigYAML.Receivers y) ∅ h0 = Ok (out, h1) ->
  stage e = 2 -> ~ document_defect y h e.
Proof.
  intros Hg Hrcv Hs Hd.
  destruct e; cbn [document_defect] in Hd; try discriminate Hs.
  - apply default_receivers_NoDup in Hrcv as [Hnd _]. by apply twice_not_NoDup in Hd.
  - destruct Hd as (g2 & rcv & Hg2 & Hin & Hde).
    rewrite (global_of_unique _ _ _ _ Hg2 Hg) in Hde.
    apply default_receivers_resolved in Hrcv.
    destruct (Forall2_elem_l _ _ _ _ Hrcv Hin) as (rcv' & _ & Hr').
    by eapply receiver_resolved_no_defect.
Qed.

Lemma root_Err_stage route e : check_root route = Err e -> stage e = 3.
Proof.
  intros [[_ ->]|(r & _ & [[_ ->]|[_ ->]])]%check_root_Err; done.
Qed.

Lemma root_Ok_no_defect (y : ConfigYAML.t) c r h e :
  unmarshal_plain y = Ok c -> check_root (Config.Route c) = Ok r ->
  stage e = 3 -> ~ document_defect y h e.
Proof.
  intros Hp Hroot Hs Hd. apply unmarshal_plain_Ok in Hp as (_ & _ & _ & Hroute).
  apply check_root_Ok in Hroot as (Hsome & Hrcv & Hm & Hmre).
  destruct (ConfigYAML.Route y) as [ry|] eqn:Hry.
  2:{ destruct e; cbn [document_defect] in Hd; try discriminate Hs; try congruence;
      by destruct Hd as (? & ? & _). }
  destruct Hroute as (r' & Hr' & Hh%Route_UnmarshalYAML_Ok).
  assert (r' = r) as -> by congruence.
  destruct e; cbn [document_defect] in Hd; try discriminate Hs.
  - congruence.
  - destruct Hd as (ry' & Hry' & Hc). assert (ry' = ry) as -> by congruence.
    by rewrite (hooked_Receiver _ _ Hh) in Hrcv.
  - destruct Hd as (ry' & Hry' & Hc). assert (ry' = ry) as -> by congruence.
    rewrite (hooked_Match _ _ Hh) in Hm. rewrite (hooked_MatchRE _ _ Hh) in Hmre.
    by destruct Hc.
Qed.

Lemma checkReceiver_Ok_no_defect (y : ConfigYAML.t) h st h1 e :
  before_checkReceiver y h = Ok (st, h1) ->
  checkReceiver st.2 st.1.2.2 = Ok tt ->
  stage e = 4 -> ~ document_defect y h e.
Proof.
  destruct st as [[[c g] out] r]. simpl. intros Hb Hcr Hs Hd.
  apply before_checkReceiver_Ok in Hb as (_ & _ & (h0 & Hrcv) & _ & ry & Hry & Hhook).
  destruct e; cbn [document_defect] in Hd; try discriminate Hs.
  destruct Hd as (ry' & node & Hry' & Hn & <- & Hdang). simplify_eq.
  destruct (proj1 (hooked_nodes_lookup _ _ Hhook) node Hn) as (n & Hn' & Hhn).
  apply checkReceiver_Ok in Hcr. rewrite Forall_forall in Hcr.
  apply (Hcr n Hn'). rewrite (hooked_Receiver _ _ Hhn).
  apply default_receivers_names in Hrcv. rewrite Hrcv.
  unfold declared in Hdang. destruct Hdang as [? Hnot]. split; [done|]. set_solver.
Qed.

(** X18: The error [Load] reports is one of the earliest step at which the
    document has a defect: an error of the receivers loop is reported only
    when all decode hooks pass, an error of the root route only when the
    receivers resolve as well, an undefined receiver only when the root route
    is valid too, and [continue] in the root route only for a document that
    has no other defect. *)
Theorem Load_reports_earliest_stage (s : string) (y : ConfigYAML.t) (h : heap)
    (e e' : error) :
  Load s (Document y h) = Err e -> document_defect y h e' -> stage e <= stage e'.
Proof.
  intros HL Hd. pose proof (defect_stage_pos _ _ _ Hd) as Hpos.
  rewrite Load_Document in HL.
  destruct (before_checkReceiver y h) as [[st h1]|e0] eqn:Hb.
  - destruct st as [[[c g] out] r].
    pose proof (before_checkReceiver_global _ _ _ _ _ _ _ Hb) as Hg.
    pose proof (before_checkReceiver_Ok _ _ _ _ _ _ _ Hb)
      as (Hp & _ & (h0 & Hrcv) & Hroot & _).
    assert (H123 : 4 <= stage e').
    { destruct (stage e') as [|[|[|[|n]]]] eqn:Hs; [done| | | |lia].
      - by destruct (plain_Ok_no_defect _ _ h _ Hp Hs).
      - by destruct (receivers_Ok_no_defect _ _ _ _ _ _ _ Hg Hrcv Hs).
      - by destruct (root_Ok_no_defect _ _ _ h _ Hp Hroot Hs). }
    destruct (checkReceiver r out.2) as [[]|e1] eqn:Hcr.
    + destruct (Route.Continue r); [|done]. injection HL as <-. simpl.
      destruct (decide (stage e' = 4)) as [Hs|Hs]; [|lia].
      by destruct (checkReceiver_Ok_no_defect _ _ _ _ _ Hb Hcr Hs).
    + injection HL as <-. apply checkReceiver_Err in Hcr as (n & _ & _ & ->). done.
  - injection HL as <-.
    apply before_checkReceiver_stages in Hb
      as [Hp|(c & Hp & g & h0 & Hg & [Hrcv|(out & h1 & Hrcv & Hroot)])].
    + rewrite (plain_Err_stage _ _ Hp). lia.
    + rewrite (receivers_Err_stage _ _ _ _ Hrcv).
      destruct (decide (stage e' = 1)) as [Hs|Hs]; [|lia].
      by destruct (plain_Ok_no_defect _ _ h _ Hp Hs).
    + rewrite (root_Err_stage _ _ Hroot).
      destruct (stage e') as [|[|[|n]]] eqn:Hs; [done| | |lia].
      * by destruct (plain_Ok_no_defect _ _ h _ Hp Hs).
      * by destruct (receivers_Ok_no_defect _ _ _ _ _ _ _ Hg Hrcv Hs).
Qed.

End Priority.

(** A store with as many objects as the sample store, all of them empty. *)
Definition blank_heap : config.heap :=
  {| config.cells := fun _ => config.empty_URL; config.next := 5 |}.

(** The root route has a matcher and its child names an undeclared
    receiver. *)
Definition two_defects_document : @config.ConfigYAML.t toyRegexp :=
  sample_document example_smarthost
    (route_node "default" [] {[ "team" := "x" ]} None None
       [ route_node "ghost" [] ∅ None None [] ]).

Lemma Load_ignores_URL_objects_witness :
  match config.Load "text" (config.Document good_document sample_heap),
        config.Load "text" (config.Document good_document blank_heap) with
  | config.Ok (cfg1, h1'), config.Ok (cfg2, h2') =>
    cfg1 = cfg2 /\ config.next h1' = config.next h2'
  | config.Err e1, config.Err e2 => e1 = e2
  | _, _ => False
  end.
Proof.
  apply (Load_ignores_URL_objects (RL := toyRegexp) "text" good_document
           sample_heap blank_heap).
  reflexivity.
Defined.

Lemma Load_reports_earliest_stage_witness :
  config.Load "text" (config.Document two_defects_document sample_heap)
    = config.Err config.RootWithMatchers /\
  stage config.RootWithMatchers <= stage (config.UndefinedReceiver "ghost").
Proof.
  assert (HL : config.Load "text" (config.Document two_defects_document sample_heap)
               = config.Err config.RootWithMatchers) by (vm_compute; reflexivity).
  split; [exact HL|].
  apply (Load_reports_earliest_stage "text" two_defects_document sample_heap _ _ HL).
  exists (route_node "default" [] {[ "team" := "x" ]} None None
            [ route_node "ghost" [] ∅ None None [] ]),
         (route_node "ghost" [] ∅ None None []).
  split; [reflexivity|]. split; [apply list_elem_of_In; simpl; auto|].
  split; [reflexivity|]. split; [discriminate|]. by_decision.
Defined.

(** * More of package [types]: the texts of matchers *)

Section MatcherStrings.
Context {RL : RegexpLib} {Q : types.FmtLib}.
Import types.

Lemma valid_label_tail_ok (n : string) :
  LabelName_IsValid n = true -> label_tail_ok n = true.
Proof.
  destruct n as [|c n]; simpl; [done|].
  intros [Hc Hn]%andb_true_iff. by rewrite Hc, Hn.
Qed.

(** A label name holds no [=], so the name of a matcher ends at the first
    [=] of its text. *)
Lemma label_name_ends_at_equals (n1 n2 r1 r2 : string) :
  label_tail_ok n1 = true -> label_tail_ok n2 = true ->
  n1 +:+ String "=" r1 = n2 +:+ String "=" r2 -> n1 = n2 /\ r1 = r2.
Proof.
  revert n2. induction n1 as [|c n1 IH]; intros [|d n2]; simpl.
  - intros _ _ [= ->]. done.
  - intros _ [Hd _]%andb_true_iff [= <- _]. done.
  - intros [Hc _]%andb_true_iff _ [= -> _]. done.
  - intros [_ H1]%andb_true_iff [_ H2]%andb_true_iff [= -> Heq].
    destruct (IH _ H1 H2 Heq) as [-> ->]. done.
Qed.

Lemma append_assoc_string (a b c : string) : (a +:+ b) +:+ c = a +:+ (b +:+ c).
Proof.
  induction a as [|x a IH]; [done|].
  change (String x ((a +:+ b) +:+ c) = String x (a +:+ (b +:+ c))). by rewrite IH.
Qed.

Lemma append_nil_r_string (a : string) : a +:+ "" = a.
Proof.
  induction a as [|x a IH]; [done|].
  change (String x (a +:+ "") = String x a). by rewrite IH.
Qed.

Lemma Matchers_String_loop_succ (ms : list Matcher) : forall i buf,
  Matchers_String_loop (S i) ms buf =
  buf +:+ String.concat "" (map (fun m => "," +:+ Matcher_String m) ms).
Proof.
  induction ms as [|m ms IH]; intros i buf.
  - cbn [Matchers_String_loop map String.concat]. by rewrite append_nil_r_string.
  - cbn [Matchers_String_loop map]. rewrite IH.
    change (0 <? S i)%nat with true. cbn iota.
    rewrite !append_assoc_string. f_equal.
    destruct ms as [|m' ms]; cbn [map String.concat].
    + by rewrite !append_nil_r_string.
    + done.
Qed.

Lemma concat_comma (x : string) (xs : list string) :
  String.concat "," (x :: xs) = x +:+ String.concat "" (map (fun s => "," +:+ s) xs).
Proof.
  revert x. induction xs as [|y xs IH]; intros x.
  - cbn [map String.concat]. by rewrite append_nil_r_string.
  - change (String.concat "," (x :: y :: xs))
      with (x +:+ "," +:+ String.concat "," (y :: xs)).
    rewrite IH. cbn [map]. f_equal.
    destruct xs as [|z xs]; cbn [map String.concat].
    + by rewrite !append_nil_r_string.
    + by rewrite append_assoc_string.
Qed.

(** X19: the text of a matcher is its name, [=] or [=~], and its value as
    [%q] prints it; for matchers with valid label names two texts are equal
    only if the names, the kind of comparison and the printed values are
    equal.  The text of a list of matchers is the texts of its matchers,
    separated by commas, in braces. *)
Theorem Matcher_String_identifies :
  (forall m1 m2 : Matcher,
     LabelName_IsValid (Name m1) = true -> LabelName_IsValid (Name m2) = true ->
     (exists t, fmt_q (Value m1) = String quote_char t) ->
     (exists t, fmt_q (Value m2) = String quote_char t) ->
     Matcher_String m1 = Matcher_String m2 ->
     Name m1 = Name m2 /\ IsRegex m1 = IsRegex m2 /\
     fmt_q (Value m1) = fmt_q (Value m2)) /\
  Matchers_String [] = "{}" /\
  (forall ms : list Matcher,
     Matchers_String ms =
     "{" +:+ String.concat "," (map Matcher_String ms) +:+ "}").
Proof.
  refine (conj _ (conj _ _)).
  - intros m1 m2 H1%valid_label_tail_ok H2%valid_label_tail_ok [t1 Hq1] [t2 Hq2].
    unfold Matcher_String.
    destruct (IsRegex m1), (IsRegex m2); intros Heq;
      apply (label_name_ends_at_equals _ _ _ _ H1 H2) in Heq as [Hn Hr].
    + injection Hr as Hr. done.
    + rewrite Hq2 in Hr. discriminate Hr.
    + rewrite Hq1 in Hr. discriminate Hr.
    + done.
  - done.
  - intros [|m ms]; [done|]. unfold Matchers_String.
    cbn [Matchers_String_loop]. change (0 <? 0)%nat with false. cbn iota.
    rewrite Matchers_String_loop_succ. cbn [map]. rewrite concat_comma.
    rewrite map_map. rewrite !append_assoc_string. done.
Qed.

End MatcherStrings.

Example matchers_as_text :
  @types.Matchers_String toyRegexp types.toyFmt
    (types.NewMatchers (S := insertion) ready_matchers)
  = "{instance=" +:+ @types.fmt_q types.toyFmt "web" +:+
    ",job=" +:+ @types.fmt_q types.toyFmt "api-1" +:+
    ",job=~" +:+ @types.fmt_q types.toyFmt "api.*" +:+ "}".
Proof. vm_compute. reflexivity. Qed.

(** * More of package [config]: the texts of URLs *)

Section URLTexts.
Context {U : config.URLLib} {J : config.JSONLib} {US : config.URLStringLib}.
Import config.

(** X20: a nil URL marshals to nil; a URL that was decoded marshals to the
    text of its [url.URL], and where [url.Parse] reads that text back as the
    same URL, decoding the marshaled form gives the URL again (for JSON, where
    [json.Unmarshal] also inverts [json.Marshal] on the text): the checks of
    [parseURL] pass a second time. *)
Theorem URL_round_trip :
  URL_MarshalYAML None = None /\
  URL_MarshalJSON None = None /\
  (forall node u v,
     URL_UnmarshalYAML node = Ok u -> u = Some v ->
     url_Parse (url_String v) = Some v ->
     URL_MarshalYAML u = Some (url_String v) /\
     URL_UnmarshalYAML (URL_MarshalYAML u) = Ok u) /\
  (forall data u v,
     URL_UnmarshalJSON data = Ok u -> u = Some v ->
     url_Parse (url_String v) = Some v ->
     json_Unmarshal (json_Marshal (url_String v)) = Some (url_String v) ->
     exists text, URL_MarshalJSON u = Some text /\ URL_UnmarshalJSON text = Ok u) /\
  (forall v e,
     url_Parse (url_String v) = Some v ->
     parseURL (url_String v) = Err e ->
     URL_UnmarshalYAML (URL_MarshalYAML (Some v)) = Err e /\
     (e = UnsupportedScheme (Scheme v) \/ e = MissingHost)).
Proof.
  assert (Hvalid : forall s v, parseURL s = Ok v ->
            url_Parse (url_String v) = Some v -> parseURL (url_String v) = Ok v).
  { intros s v (_ & Hs & Hh)%parseURL_Ok Hp. by apply parseURL_Ok. }
  refine (conj _ (conj _ (conj _ (conj _ _)))); [done|done|..].
  - intros node u v Hu -> Hp. split; [done|]. simpl.
    unfold URL_UnmarshalYAML in Hu. destruct node as [s|]; [|done].
    destruct (parseURL s) as [v'|] eqn:Hs; [|done]. injection Hu as ->.
    by rewrite (Hvalid _ _ Hs Hp).
  - intros data u v Hu -> Hp Hj. eexists. split; [done|].
    unfold URL_UnmarshalJSON in Hu |- *.
    destruct (json_Unmarshal data) as [s|]; [|done].
    destruct (parseURL s) as [v'|] eqn:Hs; [|done]. injection Hu as ->.
    by rewrite Hj, (Hvalid _ _ Hs Hp).
  - intros v e Hp He. simpl. rewrite He. split; [done|].
    unfold parseURL in He. rewrite Hp in He.
    destruct (negb _ && negb _); [injection He as <-; by left|].
    destruct (String.eqb (Host v) ""); [injection He as <-; by right|done].
Qed.

End URLTexts.

(** The four addresses of [DefaultGlobalConfig] and a webhook address, as
    the executable [url.Parse] reads them and [URL.String] writes them. *)
Example addresses_read_and_written :
  @config.parseURL config.toyURL "https://events.pagerduty.com/v2/enqueue"
    = config.Ok {| config.Scheme := "https"; config.Host := "events.pagerduty.com";
                   config.Path := "/v2/enqueue" |} /\
  @config.parseURL config.toyURL "https://api.opsgenie.com/"
    = config.Ok {| config.Scheme := "https"; config.Host := "api.opsgenie.com";
                   config.Path := "/" |} /\
  @config.parseURL config.toyURL "https://qyapi.weixin.qq.com/cgi-bin/"
    = config.Ok {| config.Scheme := "https"; config.Host := "qyapi.weixin.qq.com";
                   config.Path := "/cgi-bin/" |} /\
  @config.parseURL config.toyURL
      "https://alert.victorops.com/integrations/generic/20131114/alert/"
    = config.Ok {| config.Scheme := "https"; config.Host := "alert.victorops.com";
                   config.Path := "/integrations/generic/20131114/alert/" |} /\
  (exists u,
     @config.URL_UnmarshalYAML config.toyURL (Some "http://hooks.example.com/T0")
       = config.Ok u /\
     @config.URL_MarshalYAML config.toyURLString u = Some "http://hooks.example.com/T0") /\
  @config.URL_UnmarshalYAML config.toyURL (Some "ftp://hooks.example.com/T0")
    = config.Err (config.UnsupportedScheme "ftp") /\
  @config.URL_UnmarshalYAML config.toyURL (Some "https:///T0")
    = config.Err config.MissingHost.
Proof.
  repeat split; try reflexivity. eexists. split; reflexivity.
Qed.

(** * More of package [config]: the configuration as a whole *)

Section Whole.
Context {RL : RegexpLib}.
Import config.

Lemma receiver_resolved_names g (l l' : list Receiver.t) :
  Forall2 (receiver_resolved g) l l' -> Receiver.Name <$> l' = Receiver.Name <$> l.
Proof.
  induction 1 as [|rcv rcv' l l' Hr _ IH]; [done|].
  rewrite !fmap_cons, IH. f_equal. apply Hr.
Qed.

(** X21: in the configuration [Load] returns every route node names no
    receiver or a receiver of the configuration, and the root route names
    one. *)
Theorem Load_routes_name_receivers (s : string) (y : ConfigYAML.t) (h : heap) cfg h' :
  Load s (Document y h) = Ok (cfg, h') ->
  exists r, Config.Route cfg = Some r /\
    (exists rcv, rcv ∈ Config.Receivers cfg /\ Receiver.Name rcv = Route.Receiver r) /\
    Forall (fun n =>
        Route.Receiver n = "" \/
        exists rcv, rcv ∈ Config.Receivers cfg /\ Receiver.Name rcv = Route.Receiver n)
      (nodes r).
Proof.
  intros (y' & h1 & c & g & out & r & [<- <-]%Document_inj & Hb & Hcr & _ & ->)%Load_Ok.
  apply before_checkReceiver_Ok in Hb as (_ & _ & (h0 & Hrcv) & Hroot & _).
  apply check_root_Ok in Hroot as (Hsome & Hne & _).
  pose proof (default_receivers_names _ _ _ _ _ _ Hrcv) as Hnames.
  apply default_receivers_resolved, receiver_resolved_names in Hrcv.
  assert (Hdecl : forall name, name <> "" -> ~ dangling out.2 name ->
            exists rcv, rcv ∈ out.1 /\ Receiver.Name rcv = name).
  { intros name Hn Hd. destruct (decide (name ∈ out.2)) as [Hin|Hin].
    - rewrite Hnames, <- Hrcv in Hin.
      apply elem_of_union in Hin as [Hin|Hin]; [|by apply elem_of_empty in Hin].
      apply elem_of_list_to_set, list_elem_of_fmap in Hin as (rcv & -> & Hin). eauto.
    - destruct Hd. by split. }
  apply checkReceiver_Ok in Hcr. exists r. simpl. split; [done|].
  assert (Hroot : r ∈ nodes r) by (rewrite nodes_unfold; left).
  rewrite Forall_forall in Hcr. split.
  - apply Hdecl; [done|]. by apply Hcr.
  - rewrite Forall_forall. intros n Hn.
    destruct (decide (Route.Receiver n = "")) as [?|Hne']; [by left|].
    right. apply Hdecl; [done|]. by apply Hcr.
Qed.

(** X22: loading the same document again in the store that [Load] has left
    gives the same configuration and writes nothing: the slashes are
    there.  (With a global block in the document; without one,
    [DefaultGlobalConfig] makes new objects at every load.) *)
Theorem Load_again (s : string) (y : ConfigYAML.t) (h : heap) cfg h' :
  is_Some (ConfigYAML.Global y) ->
  Load s (Document y h) = Ok (cfg, h') ->
  exists h'',
    Load s (Document y h') = Ok (cfg, h'') /\
    next h'' = next h' /\ forall l, cells h'' l = cells h' l.
Proof.
  intros [g0 HG] HL.
  destruct (Load_Ok_slashed _ _ _ _ _ HL) as (h0 & Hh0 & Hn & Hcells).
  unfold global_store in Hh0. rewrite HG in Hh0. subst h0.
  pose proof (oblivious_Config_UnmarshalYAML y h h' (eq_sym Hn)) as Hag.
  assert (HL' : exists h'', Load s (Document y h') = Ok (cfg, h'')).
  { rewrite Load_by_value in HL |- *.
    destruct (Config_UnmarshalYAML y h) as [[c1 h1]|e1],
             (Config_UnmarshalYAML y h') as [[c2 h2]|e2]; simpl in Hag; try done.
    destruct Hag as [<- _]. destruct (Config.Route c1) as [r|]; [|done].
    destruct (Route.Continue r); [done|]. injection HL as <- <-. eauto. }
  destruct HL' as (h'' & HL'). exists h''. split; [done|].
  destruct (Load_Ok_slashed _ _ _ _ _ HL') as (h0 & Hh0 & Hn' & Hcells').
  unfold global_store in Hh0. rewrite HG in Hh0. subst h0.
  split; [done|]. intros l. rewrite Hcells', Hcells.
  destruct (bool_decide (l ∈ api_urls (Config.Receivers cfg))); [|done].
  apply with_slash_URL_idem.
Qed.

(** X23: a document without a global block is resolved against
    [DefaultGlobalConfig]: it loads only if every email configuration has
    its own smarthost and sender, every Slack configuration its own URL and
    every OpsGenie, WeChat and VictorOps configuration its own key, secret
    and corporation id; an email configuration without [hello] gets
    [localhost], and one without [require_tls] requires TLS. *)
Theorem Load_without_global_block (s : string) (y : ConfigYAML.t) (h : heap) cfg h' :
  ConfigYAML.Global y = None ->
  Load s (Document y h) = Ok (cfg, h') ->
  (exists g, Config.Global cfg = Some g /\
     GlobalConfig.ResolveTimeout g = 300000000000%Z /\
     GlobalConfig.SMTPHello g = "localhost" /\
     GlobalConfig.SMTPRequireTLS g = true /\
     GlobalConfig.SlackAPIURL g = None /\
     GlobalConfig.PagerdutyURL g = Some (next h) /\
     GlobalConfig.OpsGenieAPIURL g = Some (S (next h)) /\
     GlobalConfig.WeChatAPIURL g = Some (S (S (next h))) /\
     GlobalConfig.VictorOpsAPIURL g = Some (S (S (S (next h))))) /\
  next h' = 4 + next h /\
  Forall2 (fun rcv rcv' =>
      Forall2 (fun c c' =>
          HostPort_String (EmailConfig.Smarthost c) <> "" /\
          EmailConfig.From c <> "" /\
          EmailConfig.Smarthost c' = EmailConfig.Smarthost c /\
          EmailConfig.From c' = EmailConfig.From c /\
          EmailConfig.Hello c' =
            (if String.eqb (EmailConfig.Hello c) "" then "localhost"
             else EmailConfig.Hello c) /\
          EmailConfig.RequireTLS c' = Some (default true (EmailConfig.RequireTLS c)))
        (Receiver.EmailConfigs rcv) (Receiver.EmailConfigs rcv') /\
      Forall (fun c => is_Some (SlackConfig.APIURL c)) (Receiver.SlackConfigs rcv) /\
      Forall (fun c => OpsGenieConfig.APIKey c <> "") (Receiver.OpsGenieConfigs rcv) /\
      Forall (fun c => WechatConfig.APISecret c <> "" /\ WechatConfig.CorpID c <> "")
             (Receiver.WechatConfigs rcv) /\
      Forall (fun c => VictorOpsConfig.APIKey c <> "") (Receiver.VictorOpsConfigs rcv))
    (ConfigYAML.Receivers y) (Config.Receivers cfg).
Proof.
  intros HG HL.
  destruct (Load_Ok_resolved _ _ _ _ _ HL) as (g & Hcfg & Hg & Hres & _).
  destruct (Load_Ok_slashed _ _ _ _ _ HL) as (h0 & Hh0 & Hn & _).
  unfold global_of in Hg. unfold global_store in Hh0. rewrite HG in Hg, Hh0.
  destruct Hg as [h1 Hg]. destruct Hh0 as [g1 Hg1].
  assert (g1 = g /\ h1 = h0) as [-> ->] by (split; congruence). clear Hg1.
  unfold DefaultGlobalConfig, mbind, M_bind, alloc in Hg. simpl in Hg.
  injection Hg as <- <-. simpl in *.
  split; [eexists; split; [exact Hcfg|]; simpl; by split_and!|].
  split; [done|].
  eapply Forall2_impl; [exact Hres|].
  intros rcv rcv' (_ & _ & Hem & Hsl & _ & _ & Hog & Hwc & Hvo). simpl in *.
  split_and!.
  - eapply Forall2_impl; [exact Hem|].
    intros c c' (Hsh & Hfrom & Hhello & _ & _ & _ & _ & Htls & Hsh' & Hfrom').
    simpl in *. unfold optional, lacks_smarthost in *.
    destruct (String.eqb (HostPort_String (EmailConfig.Smarthost c)) "") eqn:H1.
    { rewrite Hsh in Hsh'. by destruct Hsh'. }
    destruct (String.eqb (EmailConfig.From c) "") eqn:H2; [congruence|].
    apply String.eqb_neq in H1, H2. split_and!; done.
  - apply Forall_forall. intros c Hc.
    destruct (Forall2_elem_l _ _ _ _ Hsl Hc) as (c' & _ & _ & Hp & Hs). simpl in Hp.
    destruct (SlackConfig.APIURL c); [eauto|]. simpl in Hp. rewrite Hp in Hs.
    by destruct Hs.
  - apply Forall_forall. intros c Hc.
    destruct (Forall2_elem_l _ _ _ _ Hog Hc) as (c' & _ & _ & _ & _ & Hk & Hk').
    simpl in Hk. unfold optional in Hk.
    destruct (String.eqb (OpsGenieConfig.APIKey c) "") eqn:H1; [congruence|].
    by apply String.eqb_neq.
  - apply Forall_forall. intros c Hc.
    destruct (Forall2_elem_l _ _ _ _ Hwc Hc)
      as (c' & _ & _ & _ & _ & Hs & Hs' & Hi & Hi').
    simpl in Hs, Hi. unfold optional in Hs, Hi.
    destruct (String.eqb (WechatConfig.APISecret c) "") eqn:H1; [congruence|].
    destruct (String.eqb (WechatConfig.CorpID c) "") eqn:H2; [congruence|].
    split; by apply String.eqb_neq.
  - apply Forall_forall. intros c Hc.
    destruct (Forall2_elem_l _ _ _ _ Hvo Hc) as (c' & _ & _ & _ & _ & Hk & Hk').
    simpl in Hk. unfold optional in Hk.
    destruct (String.eqb (VictorOpsConfig.APIKey c) "") eqn:H1; [congruence|].
    by apply String.eqb_neq.
Qed.

End Whole.

(** A document without a global block: its receiver brings what the
    defaults do not have. *)
Definition own_email : config.EmailConfig.t := {|
  config.EmailConfig.Smarthost := example_smarthost;
  config.EmailConfig.From := "alertmanager@example.com";
  config.EmailConfig.Hello := "";
  config.EmailConfig.AuthUsername := "";
  config.EmailConfig.AuthPassword := "";
  config.EmailConfig.AuthSecret := "";
  config.EmailConfig.AuthIdentity := "";
  config.EmailConfig.RequireTLS := None
|}.

Definition team_receiver : config.Receiver.t := {|
  config.Receiver.Name := "team";
  config.Receiver.EmailConfigs := [own_email];
  config.Receiver.PagerdutyConfigs :=
    [ {| config.PagerdutyConfig.HTTPConfig := None;
         config.PagerdutyConfig.URL := None |} ];
  config.Receiver.SlackConfigs := [];
  config.Receiver.WebhookConfigs := [];
  config.Receiver.OpsGenieConfigs := [];
  config.Receiver.WechatConfigs := [];
  config.Receiver.PushoverConfigs := [];
  config.Receiver.VictorOpsConfigs := []
|}.

Definition self_contained_document : @config.ConfigYAML.t toyRegexp := {|
  config.ConfigYAML.Global := None;
  config.ConfigYAML.Route := Some (route_node "team" [] ∅ None None []);
  config.ConfigYAML.InhibitRules := [];
  config.ConfigYAML.Receivers := [team_receiver];
  config.ConfigYAML.Templates := []
|}.

Lemma Load_routes_name_receivers_witness :
  exists cfg h',
    config.Load "text" (config.Document good_document sample_heap) = config.Ok (cfg, h') /\
    exists r, config.Config.Route cfg = Some r /\
      (exists rcv, rcv ∈ config.Config.Receivers cfg /\
                   config.Receiver.Name rcv = config.Route.Receiver r) /\
      Forall (fun n =>
          config.Route.Receiver n = "" \/
          exists rcv, rcv ∈ config.Config.Receivers cfg /\
                      config.Receiver.Name rcv = config.Route.Receiver n)
        (nodes r).
Proof.
  pose proof (Load_routes_name_receivers (RL := toyRegexp) "text" good_document
                sample_heap) as H.
  revert H. loaded_or_absurd HL. intros H. do 2 eexists. split; [reflexivity|].
  exact (H _ _ eq_refl).
Defined.

Lemma Load_again_witness :
  exists cfg h' h'',
    config.Load "text" (config.Document good_document sample_heap) = config.Ok (cfg, h') /\
    config.Load "text" (config.Document good_document h') = config.Ok (cfg, h'') /\
    config.next h'' = config.next h' /\
    forall l, config.cells h'' l = config.cells h' l.
Proof.
  pose proof (Load_again (RL := toyRegexp) "text" good_document sample_heap) as H.
  revert H. loaded_or_absurd HL. intros H.
  destruct (H _ _ (ex_intro _ _ eq_refl) eq_refl) as (h'' & H1 & H2 & H3).
  do 3 eexists. split; [reflexivity|]. split; [exact H1|]. split; [exact H2|exact H3].
Defined.

Lemma Load_without_global_block_witness :
  exists cfg h',
    config.Load "text" (config.Document self_contained_document sample_heap)
      = config.Ok (cfg, h') /\
    config.next h' = 4 + config.next sample_heap.
Proof.
  pose proof (Load_without_global_block (RL := toyRegexp) "text"
                self_contained_document sample_heap) as H.
  revert H. loaded_or_absurd HL. intros H.
  destruct (H _ _ eq_refl eq_refl) as (_ & Hn & _).
  do 2 eexists. split; [reflexivity|exact Hn].
Defined.

(** What the defaults give the receiver of the document above. *)
Example defaults_without_global_block :
  exists cfg h',
    config.Load "text" (config.Document self_contained_document sample_heap)
      = config.Ok (cfg, h') /\
    (config.Receiver.EmailConfigs <$> config.Config.Receivers cfg) =
      [[ {| config.EmailConfig.Smarthost := example_smarthost;
            config.EmailConfig.From := "alertmanager@example.com";
            config.EmailConfig.Hello := "localhost";
            config.EmailConfig.AuthUsername := "";
            config.EmailConfig.AuthPassword := "";
            config.EmailConfig.AuthSecret := "";
            config.EmailConfig.AuthIdentity := "";
            config.EmailConfig.RequireTLS := Some true |} ]] /\
    (config.Receiver.PagerdutyConfigs <$> config.Config.Receivers cfg) =
      [[ {| config.PagerdutyConfig.HTTPConfig := Some {| config.http_settings := [] |};
            config.PagerdutyConfig.URL := Some 5 |} ]] /\
    config.cells h' 5 = {| config.Scheme := "https"; config.Host := "events.pagerduty.com";
                           config.Path := "/v2/enqueue" |}.
Proof.
  loaded_or_absurd HL. do 2 eexists. split; [reflexivity|].
  vm_compute in HL. injection HL as <- <-. repeat split; reflexivity.
Qed.

(** * More of package [config]: null entries *)

Section NullEntries.
Context {RL : RegexpLib}.
Import config.

(** X24: [Load] panics only on a document in which the decoder has left a nil
    entry; when it does not panic, it returns what it returns on the
    document without its nil entries; and it returns a configuration only
    for a document without nil entries. *)
Theorem Load_panics_on_nil_only (s : string) (d : ptr.ConfigYAML.t) (h : heap) :
  (Load s (Parsed d h) = Panic -> forall y, d <> ref_document y) /\
  (Load s (Parsed d h) <> Panic ->
   Load s (Parsed d h) = Load s (Document (deref_document d) h)) /\
  (forall cfg h', Load s (Parsed d h) = Ok (cfg, h') -> d = ref_document (deref_document d)).
Proof.
  split; [|split].
  - intros HL y ->. change (Parsed (ref_document y) h) with (Document y h) in HL.
    by rewrite Load_by_value in HL.
  - intros HL. destruct (Load s (Parsed d h)) as [x|] eqn:Hx; [|done].
    symmetry. by apply Load_Done.
  - intros cfg h' HL. destruct (Load_met_no_nil _ _ _ _ HL) as (y & h0 & Heq).
    assert (d = ref_document y) as -> by (unfold Document in Heq; congruence).
    by rewrite deref_ref_document.
Qed.

End NullEntries.

(** A null entry that is reached panics; one that stands behind an error is
    not reached; [LoadFile] panics where [Load] does. *)
Example null_entries :
  config.Load "text" (config.Parsed null_receiver_document sample_heap) = config.Panic /\
  config.Load "text" (config.Parsed null_route_document sample_heap) = config.Panic /\
  config.Load "text" (config.Parsed twice_then_null_document sample_heap)
    = config.Err (config.NameNotUnique "default") /\
  config.Load "text"
    (config.Parsed
       (pointer_document (pointer_node "" ∅ [None])
          [Some (config.ref_receiver mail_receiver)]) sample_heap)
    = config.Err config.RootWithoutReceiver /\
  @config.LoadFile toyRegexp config.toyFilepath "/etc/alertmanager/config.yml"
    (Some "text") (fun _ => config.Parsed null_route_document sample_heap)
    = config.Panicked.
Proof. vm_compute. repeat split. Qed.
